(** * Scheduling of a Terragrunt stack: [configstack/stack.go]

    A shallow embedding of the stack facade of Terragrunt's [configstack]
    package and the properties of its deploy-order computation
    ([getModuleRunGraph]), of the deploy-order reports, of stack
    construction, of the plan-error summary and of the dispatch in [Run],
    with the renderings of a stack and of a dependency cycle, the search for
    a stack in subfolders and the arguments synced to the modules. *)

From stdpp Require Import base gmap sets list strings sorting relations pretty.

Local Open Scope string_scope.
Local Open Scope list_scope.
Local Open Scope nat_scope.

(** ** Data model *)

(** Modelled from the spec: the declaration of [TerraformModule] is not part
    of [stack.go].  The spec's Module has an [id] (the path), the declared
    [dependencyIds] and the [assumeAlreadyApplied] flag; [stack.go] reads
    [Path], [Dependencies], [AssumeAlreadyApplied] and
    [Config.Dependencies.Paths].  Dependencies are kept by id. *)
Record TerraformModule := mkModule {
  Path : string;
  Dependencies : list string;
  ConfigDependenciesPaths : list string;
  AssumeAlreadyApplied : bool
}.

#[global] Instance TerraformModule_eq_dec : EqDecision TerraformModule.
Proof. solve_decision. Defined.

(** [type Stack struct { Path string; Modules []*TerraformModule }] *)
Record Stack := mkStack {
  StackPath : string;
  Modules : list TerraformModule
}.

(** Modelled from the spec: [runningModule] (the spec's GraphNode) is declared
    outside [stack.go].  [getModuleRunGraph] only uses the wrapped module and
    the key set of the [Dependencies] map (its length, membership and
    [delete]), which is kept as a finite set of paths. *)
Record runningModule := mkRunning {
  rmModule : TerraformModule;
  rmDependencies : gset string
}.

(** Modelled from the spec: the type of [NormalOrder] and [ReverseOrder] is
    declared outside [stack.go]; they are the spec's Forward and Reverse
    directions. *)
Inductive DependencyOrder := NormalOrder | ReverseOrder.

(** The error values that [stack.go] passes around: its own sentinel and
    cycle error, the error of graph construction (spec 4.1), the errors of
    module resolution, and the wrapper that [errors.WithStackTrace] puts
    around an error. *)
Inductive error :=
| NoTerraformModulesFound
| DependencyCycle (cycle : list string)
| GraphConstructionError (module dependency : string)
| ResolveError (msg : string)
| StackTrace (e : error).

(** Modelled from the spec: [terraform.CommandNameDestroy] and its siblings
    are constants of another package. *)
Definition CommandNameDestroy : string := "destroy".
Definition CommandNameApply : string := "apply".
Definition CommandNamePlan : string := "plan".

(** ** Dependency graph builder *)

Definition dependents (modules : list TerraformModule) (m : TerraformModule)
  : list TerraformModule :=
  filter (λ m', Path m ∈ Dependencies m') modules.

Definition remainingDependencies (order : DependencyOrder)
    (modules : list TerraformModule) (m : TerraformModule) : gset string :=
  match order with
  | NormalOrder => list_to_set (Dependencies m)
  | ReverseOrder => list_to_set (Path <$> dependents modules m)
  end.

Definition paths (modules : list TerraformModule) : list string :=
  Path <$> modules.

(** The first declared dependency of [m] that names no module of the stack. *)
Definition danglingDependency (modules : list TerraformModule)
    (m : TerraformModule) : option string :=
  head (filter (λ d, d ∉ paths modules) (Dependencies m)).

Fixpoint firstDangling (modules todo : list TerraformModule)
  : option (string * string) :=
  match todo with
  | [] => None
  | m :: rest =>
      match danglingDependency modules m with
      | Some d => Some (Path m, d)
      | None => firstDangling modules rest
      end
  end.

(** Modelled from the spec: [toRunningModules] is defined outside [stack.go].
    Spec 4.1: the result maps each module id to its GraphNode; forward, the
    node's remaining dependencies are the module's declared ids; reverse, for
    every module M declaring D, D's node gains M; a declared id without a
    module is a GraphConstructionError.  The exclude flag that the comment
    of [getModuleRunGraph] mentions is not part of the spec's Module. *)
Definition toRunningModules (modules : list TerraformModule)
    (order : DependencyOrder) : error + gmap string runningModule :=
  match firstDangling modules modules with
  | Some (m, d) => inl (GraphConstructionError m d)
  | None =>
      inr (list_to_map
             ((λ m, (Path m,
                     mkRunning m (remainingDependencies order modules m)))
                <$> modules))
  end.

(** ** Group scheduler: the loop of [getModuleRunGraph] *)

(** [const maxDepth = 1000] *)
Definition maxDepth : nat := 1000.

(** The three trackers of one pass over [moduleRunGraph]. *)
Record scanState := mkScan {
  currentIterationDeploy : list TerraformModule;
  next : gmap string runningModule;
  removeDep : list string
}.

Definition scanStart : scanState := mkScan [] ∅ [].

(** Body of [for path, module := range moduleRunGraph]. *)
Definition scanEntry (st : scanState) (e : string * runningModule)
  : scanState :=
  let '(path, module) := e in
  if AssumeAlreadyApplied (rmModule module) then
    mkScan (currentIterationDeploy st) (next st) (removeDep st ++ [path])
  else if decide (size (rmDependencies module) = 0) then
    mkScan (currentIterationDeploy st ++ [rmModule module]) (next st)
           (removeDep st ++ [path])
  else
    mkScan (currentIterationDeploy st) (<[path := module]> (next st))
           (removeDep st).

(** Go ranges over a map in an unspecified order: [entries] is the order in
    which one pass happens to visit the map. *)
Definition scan (entries : list (string * runningModule)) : scanState :=
  foldl scanEntry scanStart entries.

(** Body of [for _, path := range removeDep] for one deferred module. *)
Definition removeDependencies (removed : list string) (module : runningModule)
  : runningModule :=
  mkRunning (rmModule module)
    (foldl (λ deps path, if decide (path ∈ deps) then deps ∖ {[path]} else deps)
           (rmDependencies module) removed).

(** [sort.Slice] with [less(i, j) = group[i].Path < group[j].Path], as the
    insertion sort Go runs on short slices: each element moves left while it
    is smaller than its left neighbour.  Strings compare bytewise. *)
Definition less (a b : TerraformModule) : bool := String.ltb (Path a) (Path b).

Fixpoint insertByPath (m : TerraformModule) (sorted : list TerraformModule)
  : list TerraformModule :=
  match sorted with
  | [] => [m]
  | x :: rest => if less m x then m :: x :: rest else x :: insertByPath m rest
  end.

Definition sortByPath (group : list TerraformModule) : list TerraformModule :=
  foldl (λ sorted m, insertByPath m sorted) [] group.

(** One iteration of the loop, visiting the map in the order [entries]. *)
Definition iteration (entries : list (string * runningModule))
    (groups : list (list TerraformModule))
  : gmap string runningModule * list (list TerraformModule) :=
  let st := scan entries in
  let deferred := removeDependencies (removeDep st) <$> next st in
  let group := sortByPath (currentIterationDeploy st) in
  (deferred, if decide (0 < length group) then groups ++ [group] else groups).

(** [len(moduleRunGraph) > 0 && len(groups) < maxDepth] *)
Definition loopCond (graph : gmap string runningModule)
    (groups : list (list TerraformModule)) : bool :=
  bool_decide (0 < size graph) && bool_decide (length groups < maxDepth).

(** The loop, with a bound on the number of iterations it may take: [None]
    means that the loop is still running after [fuel] iterations. *)
Fixpoint groupLoop (fuel : nat) (graph : gmap string runningModule)
    (groups : list (list TerraformModule))
  : option (list (list TerraformModule)) :=
  if loopCond graph groups then
    match fuel with
    | O => None
    | S fuel' =>
        let '(graph', groups') := iteration (map_to_list graph) groups in
        groupLoop fuel' graph' groups'
    end
  else Some groups.

(** [getModuleRunGraph]: the graph is built in reverse order for destroy and
    in normal order for every other command; a graph error is returned as it
    is; otherwise the loop runs from no groups and its groups are returned
    with a nil error. *)
Definition getModuleRunGraph (fuel : nat) (stack : Stack)
    (terraformCommand : string)
  : option (error + list (list TerraformModule)) :=
  let built :=
    if decide (terraformCommand = CommandNameDestroy)
    then toRunningModules (Modules stack) ReverseOrder
    else toRunningModules (Modules stack) NormalOrder in
  match built with
  | inl graphErr => Some (inl graphErr)
  | inr moduleRunGraph => inr <$> groupLoop fuel moduleRunGraph []
  end.

(** ** The deploy-order report *)

(** [fmt.Sprintf("%d", n)] for a non-negative [n]. *)
Definition sprintfD (n : nat) : string := pretty (N.of_nat n).

(** ["Group " + fmt.Sprintf("%d", i+1)] *)
Definition groupNum (i : nat) : string := "Group " +:+ sprintfD (i + 1).

(** The map [jsonGraph] that [JsonModuleDeployOrder] fills, group by group. *)
Definition fillJsonGraph (runGraph : list (list TerraformModule))
  : gmap string (list string) :=
  foldl (λ jsonGraph ig, <[groupNum ig.1 := Path <$> ig.2]> jsonGraph) ∅
        (imap (λ i group, (i, group)) runGraph).

(** [encoding/json] writes a map as an object whose members are sorted by
    key, bytewise; the object is kept as the sequence of its members in the
    order in which they are written. *)
Fixpoint insertMember {A} (member : string * A) (sorted : list (string * A))
  : list (string * A) :=
  match sorted with
  | [] => [member]
  | x :: rest =>
      if String.ltb member.1 x.1 then member :: x :: rest
      else x :: insertMember member rest
  end.

Definition marshalMap {A} (m : gmap string A) : list (string * A) :=
  foldl (λ sorted member, insertMember member sorted) [] (map_to_list m).

(** [JsonModuleDeployOrder], as the members of the JSON object it returns. *)
Definition JsonModuleDeployOrder (fuel : nat) (stack : Stack)
    (terraformCommand : string)
  : option (error + list (string * list string)) :=
  match getModuleRunGraph fuel stack terraformCommand with
  | None => None
  | Some (inl err) => Some (inl err)
  | Some (inr runGraph) => Some (inr (marshalMap (fillJsonGraph runGraph)))
  end.

(** ** Cycle detection and stack construction *)

Definition findModule (modules : list TerraformModule) (path : string)
  : option TerraformModule :=
  head (filter (λ m, Path m = path) modules).

(** The ids that the module at [path] declares. *)
Definition declared (modules : list TerraformModule) (path : string)
  : list string :=
  match findModule modules path with
  | Some m => Dependencies m
  | None => []
  end.

(** Visit the ids of [todo] one after the other with [visit], threading
    the list of finished ids, until one of them reports a cycle. *)
Fixpoint visitEach (visit : list string → string → option (error + list string))
    (finished : list string) (todo : list string)
  : option (error + list string) :=
  match todo with
  | [] => Some (inr finished)
  | path :: rest =>
      match visit finished path with
      | Some (inr finished') => visitEach visit finished' rest
      | other => other
      end
  end.

(** The ids from the first occurrence of [path] in the traversal on. *)
Fixpoint cycleFrom (path : string) (inProgress : list string) : list string :=
  match inProgress with
  | [] => []
  | p :: rest => if decide (p = path) then p :: rest else cycleFrom path rest
  end.

(** Modelled from the spec: the depth-first traversal of the cycle check is
    not part of [stack.go].  Spec 4.2: three-colour marking; a node is
    unvisited, in progress (on the current traversal) or finished; meeting a
    node in progress closes a cycle, reported as the ids from that node on, in
    traversal order, ending back at it.  [None]: the traversal is deeper than
    [fuel]. *)
Fixpoint visitModule (fuel : nat) (modules : list TerraformModule)
    (inProgress finished : list string) (path : string)
  : option (error + list string) :=
  match fuel with
  | O => None
  | S fuel' =>
      if decide (path ∈ finished) then Some (inr finished)
      else if decide (path ∈ inProgress) then
        Some (inl (DependencyCycle (cycleFrom path inProgress ++ [path])))
      else
        match visitEach (visitModule fuel' modules (inProgress ++ [path]))
                finished (declared modules path) with
        | Some (inr finished') => Some (inr (finished' ++ [path]))
        | other => other
        end
  end.

(** Modelled from the spec: [CheckForCycles] over a module list is not part of
    [stack.go]; it runs the traversal from every module.  The result is the
    error, if any. *)
Definition CheckForCycles (fuel : nat) (modules : list TerraformModule)
  : option (option error) :=
  match visitEach (visitModule fuel modules []) [] (paths modules) with
  | None => None
  | Some (inl err) => Some (Some err)
  | Some (inr _) => Some None
  end.

(** [errors.WithStackTrace]: wraps an error with a stack trace unless it
    already carries one. *)
Definition WithStackTrace (err : error) : error :=
  match err with
  | StackTrace _ => err
  | _ => StackTrace err
  end.

(** The error under the stack trace. *)
Fixpoint Cause (err : error) : error :=
  match err with
  | StackTrace e => Cause e
  | _ => err
  end.

(** [telemetry.Telemetry] runs the function it is given and returns its
    error. *)
Definition Telemetry {A} (name : string) (fn : unit → A) : A := fn tt.

Section construction.

(** Discovery and parsing of the modules are the work of another file. *)
Variable ResolveTerraformModules : list string → error + list TerraformModule.

(** [createStackForTerragruntConfigPaths] *)
Definition createStackForTerragruntConfigPaths (fuel : nat) (path : string)
    (terragruntConfigPaths : list string) : option (error + Stack) :=
  let created :=
    Telemetry "create_stack_for_terragrunt_config_paths" (λ _,
      if decide (length terragruntConfigPaths = 0) then
        inl (WithStackTrace NoTerraformModulesFound)
      else
        match ResolveTerraformModules terragruntConfigPaths with
        | inl err => inl (WithStackTrace err)
        | inr modules => inr (mkStack path modules)
        end) in
  match created with
  | inl err => Some (inl (WithStackTrace err))
  | inr stack =>
      let checked :=
        Telemetry "check_for_cycles" (λ _,
          match CheckForCycles fuel (Modules stack) with
          | None => None
          | Some (Some err) => Some (Some (WithStackTrace err))
          | Some None => Some None
          end) in
      match checked with
      | None => None
      | Some (Some err) => Some (inl (WithStackTrace err))
      | Some None => Some (inr stack)
      end
  end.

End construction.

(** ** The plan-error summary *)

(** [strings.Contains(s, substr)] *)
Fixpoint Contains (s substr : string) : bool :=
  String.prefix substr s
  || match s with
     | EmptyString => false
     | String _ rest => Contains rest substr
     end.

(** [fmt.Sprintf("%v", paths)] for a slice of strings. *)
Definition sprintfV (l : list string) : string :=
  "[" +:+ String.concat " " l +:+ "]".

Definition lineFeed : string := String (Ascii.ascii_of_nat 10) "".

(** What the logger is asked to write: one entry per call. *)
Inductive logEntry :=
| Infoln (output : string)
| Infof (message : string).

#[global] Instance logEntry_eq_dec : EqDecision logEntry.
Proof. solve_decision. Defined.

Definition planErrorSignature : string := "Error running plan:".
Definition remoteStateSignature : string :=
  ": Resource 'data.terraform_remote_state.".

(** The message of the hint for a module. *)
Definition remoteStateHint (m : TerraformModule) : string :=
  let dependenciesMsg :=
    if decide (0 < length (Dependencies m))
    then " contains dependencies to " +:+ sprintfV (ConfigDependenciesPaths m)
         +:+ " and"
    else "" in
  Path m +:+ dependenciesMsg
  +:+ " refers to remote state you may have to apply your changes in the dependencies prior running terragrunt run-all plan."
  +:+ lineFeed.

(** The body of the loop of [summarizePlanAllErrors] for the stream at index
    [i]: the entries it logs, or [None] where [stack.Modules[i]] is out of
    range. *)
Definition summarizeStream (stack : Stack) (i : nat) (output : string)
  : option (list logEntry) :=
  if decide (String.length output = 0) then Some []
  else if Contains output planErrorSignature then
    if Contains output remoteStateSignature then
      match Modules stack !! i with
      | Some m => Some [Infoln output; Infof (remoteStateHint m)]
      | None => None
      end
    else Some [Infoln output]
  else Some [Infoln output].

Fixpoint summarizeFrom (stack : Stack) (i : nat) (errorStreams : list string)
  : option (list (list logEntry)) :=
  match errorStreams with
  | [] => Some []
  | output :: rest =>
      match summarizeStream stack i output with
      | None => None
      | Some entries =>
          match summarizeFrom stack (S i) rest with
          | None => None
          | Some more => Some (entries :: more)
          end
      end
  end.

(** [summarizePlanAllErrors]: the log it writes, stream by stream. *)
Definition summarizePlanAllErrors (stack : Stack) (errorStreams : list string)
  : option (list logEntry) :=
  (λ logs, concat logs) <$> summarizeFrom stack 0 errorStreams.

(** ** [Run] *)

Record TerragruntOptions := mkOptions {
  TerraformCommand : string;
  TerraformCliArgs : list string;
  RunAllAutoApprove : bool;
  NonInteractive : bool;
  IgnoreDependencyOrder : bool;
  Parallelism : nat
}.

(** What an engine hands back: the error it returns and what the run of each
    module (by index in [stack.Modules]) wrote to its error writer. *)
Record runOutcome := mkOutcome {
  runError : option error;
  errorWritten : nat → string
}.

(** What [Run] leaves behind: the error it returns, the arguments it leaves
    in the options, and what the deferred summary logged ([None] where it
    panicked). *)
Record runResult := mkResult {
  returned : option error;
  finalCliArgs : list string;
  summaryLog : option (list logEntry)
}.

Inductive engine := IgnoreOrderEngine | ReverseOrderEngine | NormalOrderEngine.

(** The final [switch] of [Run]. *)
Definition selectEngine (terragruntOptions : TerragruntOptions)
    (stackCmd : string) : engine :=
  if IgnoreDependencyOrder terragruntOptions then IgnoreOrderEngine
  else if decide (stackCmd = CommandNameDestroy) then ReverseOrderEngine
  else NormalOrderEngine.

Section run.

(** Code of other files, taken as given: the table of commands that need
    input, [util.StringListInsert], and the three engines. *)
Variable TERRAFORM_COMMANDS_NEED_INPUT : list string.
Variable StringListInsert : list string → string → nat → list string.
Variable RunModulesIgnoreOrder : TerragruntOptions → list TerraformModule → nat → runOutcome.
Variable RunModulesReverseOrder : TerragruntOptions → list TerraformModule → nat → runOutcome.
Variable RunModules : TerragruntOptions → list TerraformModule → nat → runOutcome.

Definition withCliArgs (o : TerragruntOptions) (args : list string)
  : TerragruntOptions :=
  mkOptions (TerraformCommand o) args (RunAllAutoApprove o) (NonInteractive o)
            (IgnoreDependencyOrder o) (Parallelism o).

(** The first part of [Run]: the arguments added before the engines start.
    [syncTerraformCliArgs], which copies the arguments into the options of
    every module, is left out: it touches neither the command nor the
    ordering option. *)
Definition prepareOptions (terragruntOptions : TerragruntOptions)
  : TerragruntOptions :=
  let stackCmd := TerraformCommand terragruntOptions in
  let opts1 :=
    if decide (stackCmd ∈ TERRAFORM_COMMANDS_NEED_INPUT)
    then withCliArgs terragruntOptions
           (StringListInsert (TerraformCliArgs terragruntOptions) "-input=false" 1)
    else terragruntOptions in
  if decide (stackCmd = CommandNameApply ∨ stackCmd = CommandNameDestroy) then
    if RunAllAutoApprove opts1
    then withCliArgs opts1
           (StringListInsert (TerraformCliArgs opts1) "-auto-approve" 1)
    else opts1
  else opts1.

(** The last part of [Run]: the engine that the final [switch] starts. *)
Definition runEngine (stack : Stack) (stackCmd : string)
    (opts : TerragruntOptions) : runOutcome :=
  match selectEngine opts stackCmd with
  | IgnoreOrderEngine =>
      RunModulesIgnoreOrder opts (Modules stack) (Parallelism opts)
  | ReverseOrderEngine =>
      RunModulesReverseOrder opts (Modules stack) (Parallelism opts)
  | NormalOrderEngine =>
      RunModules opts (Modules stack) (Parallelism opts)
  end.

(** [Run]: for plan, every module gets an error stream of its own and the
    summary of the streams is deferred to the return. *)
Definition Run (stack : Stack) (terragruntOptions : TerragruntOptions)
  : runResult :=
  let stackCmd := TerraformCommand terragruntOptions in
  let opts2 := prepareOptions terragruntOptions in
  let outcome := runEngine stack stackCmd opts2 in
  let log :=
    if decide (stackCmd = CommandNamePlan) then
      let errorStreams :=
        errorWritten outcome <$> seq 0 (length (Modules stack)) in
      summarizePlanAllErrors stack errorStreams
    else Some [] in
  mkResult (runError outcome) (TerraformCliArgs opts2) log.

End run.

(** ** The text report: [LogModuleDeployOrder] *)

(** One pass of the outer loop of [LogModuleDeployOrder]: the header of the
    group, one line per module, and an empty line, appended to [outStr]. *)
Definition logGroup (outStr : string) (ig : nat * list TerraformModule)
  : string :=
  let outStr := outStr +:+ ("Group " +:+ sprintfD (ig.1 + 1) +:+ lineFeed) in
  let outStr :=
    foldl (λ out m, out +:+ ("- Module " +:+ Path m +:+ lineFeed)) outStr ig.2 in
  outStr +:+ lineFeed.

(** The text that [LogModuleDeployOrder] builds for a run graph. *)
Definition deployOrderText (stack : Stack) (terraformCommand : string)
    (runGraph : list (list TerraformModule)) : string :=
  foldl logGroup
    ("The stack at " +:+ StackPath stack
     +:+ " will be processed in the following order for command "
     +:+ terraformCommand +:+ ":" +:+ lineFeed)
    (imap (λ i group, (i, group)) runGraph).

(** [LogModuleDeployOrder]: the error it returns, or the text it hands to
    the logger before it returns without error. *)
Definition LogModuleDeployOrder (fuel : nat) (stack : Stack)
    (terraformCommand : string) : option (error + string) :=
  match getModuleRunGraph fuel stack terraformCommand with
  | None => None
  | Some (inl err) => Some (inl err)
  | Some (inr runGraph) =>
      Some (inr (deployOrderText stack terraformCommand runGraph))
  end.

(** ** [Stack.String] *)

(** [sort.Strings]: the ascending bytewise arrangement. *)
Definition sortStrings (l : list string) : list string :=
  merge_sort String.le l.

Section stack_string.

(** The rendering of a module is the work of another file. *)
Variable moduleString : TerraformModule → string.

(** The method [String] of [Stack]. *)
Definition Stack_String (stack : Stack) : string :=
  let modules :=
    foldl (λ modules module, modules ++ ["  => " +:+ moduleString module])
      [] (Modules stack) in
  "Stack at " +:+ StackPath stack +:+ ":" +:+ lineFeed
  +:+ String.concat lineFeed (sortStrings modules).

End stack_string.

(** ** [DependencyCycle.Error] *)

(** The method [Error] of [DependencyCycle]. *)
Definition DependencyCycle_Error (err : list string) : string :=
  "Found a dependency cycle between modules: " +:+ String.concat " -> " err.

(** ** [FindStackInSubfolders] *)

Section find.

(** The search for configuration files and the resolution of the modules are
    the work of other files. *)
Variable FindConfigFilesInPath : string → error + list string.
Variable ResolveTerraformModules : list string → error + list TerraformModule.

(** [FindStackInSubfolders], for the [WorkingDir] of the options. *)
Definition FindStackInSubfolders (fuel : nat) (workingDir : string)
  : option (error + Stack) :=
  let found :=
    Telemetry "find_files_in_path" (λ _, FindConfigFilesInPath workingDir) in
  match found with
  | inl err => Some (inl err)
  | inr terragruntConfigFiles =>
      createStackForTerragruntConfigPaths ResolveTerraformModules fuel
        workingDir terragruntConfigFiles
  end.

End find.

(** ** [syncTerraformCliArgs] *)

(** The options of a module that [syncTerraformCliArgs] reads and writes:
    [TerraformCliArgs], [OutputFolder] and [TerraformCommand] of
    [module.TerragruntOptions]. *)
Record ModuleOptions := mkModuleOptions {
  ModuleCliArgs : list string;
  OutputFolder : string;
  ModuleCommand : string
}.

Section sync.

(** Code of other files, taken as given: the table of commands that need
    input, [util.StringListInsert], and the path of the plan file of a module
    in its output folder ([filepath.Join] of the folder and
    [util.FolderPathAsFile] of the path, with the extension of plan files). *)
Variable TERRAFORM_COMMANDS_NEED_INPUT : list string.
Variable StringListInsert : list string → string → nat → list string.
Variable planFileIn : string → string → string.

(** The body of the loop of [syncTerraformCliArgs] for one module. *)
Definition syncModule (terragruntOptions : TerragruntOptions)
    (module : TerraformModule) (o : ModuleOptions) : ModuleOptions :=
  let args := TerraformCliArgs terragruntOptions in
  let args' :=
    if decide (OutputFolder o ≠ "") then
      let planFile := planFileIn (OutputFolder o) (Path module) in
      if decide (ModuleCommand o = CommandNamePlan)
      then StringListInsert args ("-out=" +:+ planFile) (length args)
      else StringListInsert args planFile (length args)
    else args in
  mkModuleOptions args' (OutputFolder o) (ModuleCommand o).

(** [syncTerraformCliArgs], on the options of the modules, kept by the index
    of the module in [stack.Modules]. *)
Definition syncTerraformCliArgs (stack : Stack)
    (terragruntOptions : TerragruntOptions)
    (moduleOptions : nat → ModuleOptions) : nat → ModuleOptions :=
  λ i, match Modules stack !! i with
       | Some module => syncModule terragruntOptions module (moduleOptions i)
       | None => moduleOptions i
       end.

(** The options of the modules when [Run] starts an engine: the first part
    of [Run], with the calls of [syncTerraformCliArgs] that [prepareOptions]
    leaves out. *)
Definition prepareModuleOptions (stack : Stack)
    (terragruntOptions : TerragruntOptions)
    (moduleOptions : nat → ModuleOptions) : nat → ModuleOptions :=
  let stackCmd := TerraformCommand terragruntOptions in
  let opts1 :=
    if decide (stackCmd ∈ TERRAFORM_COMMANDS_NEED_INPUT)
    then withCliArgs terragruntOptions
           (StringListInsert (TerraformCliArgs terragruntOptions) "-input=false" 1)
    else terragruntOptions in
  let moduleOptions1 :=
    if decide (stackCmd ∈ TERRAFORM_COMMANDS_NEED_INPUT)
    then syncTerraformCliArgs stack opts1 moduleOptions
    else moduleOptions in
  if decide (stackCmd = CommandNameApply ∨ stackCmd = CommandNameDestroy) then
    let opts2 :=
      if RunAllAutoApprove opts1
      then withCliArgs opts1
             (StringListInsert (TerraformCliArgs opts1) "-auto-approve" 1)
      else opts1 in
    syncTerraformCliArgs stack opts2 moduleOptions1
  else moduleOptions1.

End sync.

(** ** Sample stacks *)

Definition plainModule (path : string) (deps : list string) : TerraformModule :=
  mkModule path deps deps false.

Definition appliedModule (path : string) (deps : list string)
  : TerraformModule :=
  mkModule path deps deps true.

(** [A] without dependencies and [B] depending on [A]. *)
Definition moduleA : TerraformModule := plainModule "A" [].
Definition moduleB : TerraformModule := plainModule "B" ["A"].
Definition stackAB : Stack := mkStack "/stack" [moduleA; moduleB].

(** The diamond [A], [B -> A], [C -> A], [D -> B, C]. *)
Definition moduleC : TerraformModule := plainModule "C" ["A"].
Definition moduleD : TerraformModule := plainModule "D" ["B"; "C"].
Definition stackDiamond : Stack :=
  mkStack "/stack" [moduleA; moduleB; moduleC; moduleD].

(** [vpc] is assumed applied, [app] depends on it alone and [dns] depends on
    nothing. *)
Definition moduleVpc : TerraformModule := appliedModule "vpc" [].
Definition moduleApp : TerraformModule := plainModule "app" ["vpc"].
Definition moduleDns : TerraformModule := plainModule "dns" [].
Definition stackApplied : Stack :=
  mkStack "/stack" [moduleVpc; moduleApp; moduleDns].
Definition stackAppliedOnly : Stack :=
  mkStack "/stack" [moduleVpc; moduleApp].

(** Two modules that depend on each other. *)
Definition moduleX : TerraformModule := plainModule "X" ["Y"].
Definition moduleY : TerraformModule := plainModule "Y" ["X"].
Definition stackCycle : Stack := mkStack "/stack" [moduleX; moduleY].

Definition chainName (i : nat) : string := "m" +:+ pretty (N.of_nat i).

(** A strictly linear chain: module [i + 1] depends on module [i]. *)
Definition chainModule (i : nat) : TerraformModule :=
  plainModule (chainName i)
    (match i with O => [] | S j => [chainName j] end).

Definition chain (n : nat) : Stack := mkStack "/stack" (chainModule <$> seq 0 n).

(** ** Sample collaborators of [Run] and of stack construction *)

(** A resolver that finds the modules of the diamond. *)
Definition resolveDiamond (terragruntConfigPaths : list string)
  : error + list TerraformModule :=
  inr (Modules stackDiamond).

(** [util.StringListInsert] on an index within the list. *)
Definition sampleInsert (items : list string) (element : string) (index : nat)
  : list string :=
  take index items ++ element :: drop index items.

Definition sampleNeedInput : list string :=
  ["apply"; "import"; "init"; "plan"; "refresh"].

(** Engines that tell each other apart by the error they return; every
    module writes [output]. *)
Definition sampleEngine (name : string) (output : string)
    (o : TerragruntOptions) (modules : list TerraformModule) (parallelism : nat)
  : runOutcome :=
  mkOutcome (Some (ResolveError name)) (λ _, output).

Definition destroyIgnoringOrder : TerragruntOptions :=
  mkOptions "destroy" ["destroy"] true true true 4.

Definition remoteStateFailure : string :=
  "Error running plan: 1 error occurred: Resource 'data.terraform_remote_state.vpc' not found".

(** A stack whose only module is assumed applied, and the stack of [A] and
    [B] listed the other way round. *)
Definition stackAllApplied : Stack := mkStack "/stack" [moduleVpc].
Definition stackBA : Stack := mkStack "/stack" [moduleB; moduleA].

(** A resolver that fails. *)
Definition resolveFailing (terragruntConfigPaths : list string)
  : error + list TerraformModule :=
  inl (ResolveError "cannot parse").

(** Options for a destroy that respects the order, and for a plan. *)
Definition destroyInOrder : TerragruntOptions :=
  mkOptions "destroy" ["destroy"] true true false 4.

Definition planInOrder : TerragruntOptions :=
  mkOptions "plan" ["plan"; "-input=false"] false true false 4.

(** Modules that hold stale arguments and have no output folder, and a plan
    file named after the folder and the path. *)
Definition staleOptions (i : nat) : ModuleOptions :=
  mkModuleOptions ["stale"] "" "plan".

Definition samplePlanFile (folder path : string) : string :=
  folder +:+ "/" +:+ path +:+ ".tfplan".

(** A resolver that finds configuration files but no module in them. *)
Definition resolveNone (terragruntConfigPaths : list string)
  : error + list TerraformModule :=
  inr [].

(** A module list that holds the path [X] twice: the first module under it
    declares nothing, the second one closes a cycle with [Y]. *)
Definition moduleXPlain : TerraformModule := plainModule "X" [].
Definition stackShadowed : Stack :=
  mkStack "/stack" [moduleXPlain; moduleY; moduleX].

Definition resolveShadowed (terragruntConfigPaths : list string)
  : error + list TerraformModule :=
  inr (Modules stackShadowed).

(** ** Specification vocabulary *)

(** [pathLe a b]: the path of [a] is not after the path of [b]. *)
Definition pathLe (a b : TerraformModule) : Prop := less b a = false.

(** A group is in ascending order of module path. *)
Definition sortedByPath (group : list TerraformModule) : Prop :=
  StronglySorted (λ a b, less a b = true) group.

(** A node is ready when its module is assumed applied or nothing it waits
    for remains; a ready node that is not assumed applied is deployed, a node
    that is not ready is deferred. *)
Definition isReady (n : runningModule) : bool :=
  AssumeAlreadyApplied (rmModule n) || bool_decide (rmDependencies n = ∅).

Definition isDeployed (n : runningModule) : bool :=
  negb (AssumeAlreadyApplied (rmModule n)) && bool_decide (rmDependencies n = ∅).

Definition isDeferred (n : runningModule) : bool :=
  negb (AssumeAlreadyApplied (rmModule n))
  && negb (bool_decide (rmDependencies n = ∅)).

Definition readyKeys (graph : gmap string runningModule) : gset string :=
  dom (filter (λ kv, isReady kv.2) graph).

(** What one iteration leaves in the graph and what it deploys, told without
    the order of the pass. *)
Definition nextGraph (graph : gmap string runningModule)
  : gmap string runningModule :=
  (λ n, mkRunning (rmModule n) (rmDependencies n ∖ readyKeys graph))
    <$> filter (λ kv, isDeferred kv.2) graph.

Definition deployedOf (entries : list (string * runningModule))
  : list TerraformModule :=
  (λ e, rmModule e.2) <$> filter (λ e, isDeployed e.2) entries.

Definition deployed (graph : gmap string runningModule) : list TerraformModule :=
  deployedOf (map_to_list graph).

Definition appendGroup (groups : list (list TerraformModule))
    (group : list TerraformModule) : list (list TerraformModule) :=
  if decide (0 < length group) then groups ++ [group] else groups.

(** Every node is filed under the path of its module. *)
Definition keyIsPath (graph : gmap string runningModule) : Prop :=
  ∀ k n, graph !! k = Some n → Path (rmModule n) = k.

(** The remaining-dependency relation of a graph: [k] still waits for [d]. *)
Definition edge (graph : gmap string runningModule) (k d : string) : Prop :=
  ∃ n, graph !! k = Some n ∧ d ∈ rmDependencies n.

(** Every remaining dependency names a node of the graph. *)
Definition closed (graph : gmap string runningModule) : Prop :=
  ∀ k n, graph !! k = Some n → rmDependencies n ⊆ dom graph.

Definition graphAcyclic (graph : gmap string runningModule) : Prop :=
  ∀ k, ¬ tc (edge graph) k k.

(** [placedBefore groups i m]: [m] is a member of a group of [groups] at a
    position before [i]. *)
Definition placedBefore (groups : list (list TerraformModule)) (i : nat)
    (m : TerraformModule) : Prop :=
  ∃ j g, j < i ∧ groups !! j = Some g ∧ m ∈ g.

(** The invariant of the loop, for the graph [G0] it started from: what is
    left in [G] are nodes of [G0] whose dependencies have lost exactly the
    removed nodes; every removed node is assumed applied or placed in a
    group; every placed module comes after the placed modules it waits for. *)
Record loopInv (G0 G : gmap string runningModule)
    (groups : list (list TerraformModule)) : Prop := mkLoopInv {
  inv_key : keyIsPath G;
  inv_node : ∀ k n, G !! k = Some n →
    ∃ n0, G0 !! k = Some n0 ∧ (rmModule n = rmModule n0)
          ∧ (rmDependencies n = rmDependencies n0 ∩ dom G);
  inv_done : ∀ k n0, G0 !! k = Some n0 → k ∉ dom G →
    AssumeAlreadyApplied (rmModule n0) = false →
    placedBefore groups (length groups) (rmModule n0);
  inv_group : ∀ i g m, groups !! i = Some g → m ∈ g →
    ∃ n0, G0 !! Path m = Some n0 ∧ rmModule n0 = m
          ∧ AssumeAlreadyApplied m = false ∧ (Path m ∉ dom G)
          ∧ ∀ d nd, d ∈ rmDependencies n0 → G0 !! d = Some nd →
              AssumeAlreadyApplied (rmModule nd) = false →
              placedBefore groups i (rmModule nd);
  inv_nodup : NoDup (Path <$> concat groups);
  inv_sorted : Forall sortedByPath groups;
  inv_nonempty : Forall (λ g, g ≠ []) groups
}.

(** The direction in which a command schedules. *)
Definition orderFor (terraformCommand : string) : DependencyOrder :=
  if decide (terraformCommand = CommandNameDestroy) then ReverseOrder
  else NormalOrder.

(** The declared dependency relation of a module list, by path. *)
Definition dependsOn (modules : list TerraformModule) (p d : string) : Prop :=
  ∃ m, m ∈ modules ∧ Path m = p ∧ d ∈ Dependencies m.

(** No module reaches itself along declared dependencies. *)
Definition acyclic (modules : list TerraformModule) : Prop :=
  ∀ p, ¬ tc (dependsOn modules) p p.

(** Every declared dependency names a module of the list. *)
Definition resolved (modules : list TerraformModule) : Prop :=
  ∀ m d, m ∈ modules → d ∈ Dependencies m → d ∈ paths modules.

(** [d] is a prerequisite of [m] in the given direction: forward, [m]
    declares [d]; reverse, [d] declares [m]. *)
Definition prerequisiteOf (order : DependencyOrder) (m d : TerraformModule)
  : Prop :=
  match order with
  | NormalOrder => Path d ∈ Dependencies m
  | ReverseOrder => Path m ∈ Dependencies d
  end.

(** The graph that [toRunningModules] returns when it returns one. *)
Definition graphOf (order : DependencyOrder) (modules : list TerraformModule)
  : gmap string runningModule :=
  list_to_map
    ((λ m, (Path m, mkRunning m (remainingDependencies order modules m)))
       <$> modules).

(** [m] is a member of exactly one group of the plan. *)
Definition inExactlyOneGroup (plan : list (list TerraformModule))
    (m : TerraformModule) : Prop :=
  ∃ i g, plan !! i = Some g ∧ m ∈ g
         ∧ ∀ j g', plan !! j = Some g' → m ∈ g' → j = i.

(** [m] is a member of no group of the plan. *)
Definition inNoGroup (plan : list (list TerraformModule))
    (m : TerraformModule) : Prop :=
  ∀ i g, plan !! i = Some g → m ∉ g.

(** A check that a module list is written in dependency order: every module
    declares only paths listed before it, and no path is listed twice. *)
Fixpoint inDependencyOrder (seen : list string)
    (modules : list TerraformModule) : bool :=
  match modules with
  | [] => true
  | m :: rest =>
      forallb (λ d, bool_decide (d ∈ seen)) (Dependencies m)
      && bool_decide (Path m ∉ seen)
      && inDependencyOrder (Path m :: seen) rest
  end.

(** The loop when every pass may visit the map in any order: the big-step
    relation between the state at the loop head and the returned groups. *)
Inductive runsTo : gmap string runningModule → list (list TerraformModule)
                   → list (list TerraformModule) → Prop :=
| runs_exit G groups :
    loopCond G groups = false → runsTo G groups groups
| runs_iter G groups entries G' groups' plan :
    loopCond G groups = true →
    entries ≡ₚ map_to_list G →
    iteration entries groups = (G', groups') →
    runsTo G' groups' plan →
    runsTo G groups plan.

(** [getModuleRunGraph] over that loop: the results that some choice of
    visiting orders can return. *)
Definition computesRunGraph (stack : Stack) (terraformCommand : string)
    (result : error + list (list TerraformModule)) : Prop :=
  let built :=
    if decide (terraformCommand = CommandNameDestroy)
    then toRunningModules (Modules stack) ReverseOrder
    else toRunningModules (Modules stack) NormalOrder in
  match built with
  | inl graphErr => result = inl graphErr
  | inr moduleRunGraph => ∃ plan, result = inr plan ∧ runsTo moduleRunGraph [] plan
  end.

(** The forward graph of the two-module cycle. *)
Definition cycleGraph : gmap string runningModule :=
  graphOf NormalOrder (Modules stackCycle).

(** A module that the first iteration deploys: it is not assumed applied and
    has no prerequisite in the stack. *)
Definition startsReady (order : DependencyOrder)
    (modules : list TerraformModule) (c : TerraformModule) : Prop :=
  c ∈ modules ∧ AssumeAlreadyApplied c = false
  ∧ ∀ d, d ∈ modules → ¬ prerequisiteOf order c d.

(** The node of module [i] of a chain once the modules before [k] have been
    removed. *)
Definition chainNode (k i : nat) : runningModule :=
  mkRunning (chainModule i)
    (if decide (i ≤ k) then ∅ else {[chainName (i - 1)]}).

(** [G] is the graph of the modules [k], ..., [n - 1] of a chain. *)
Definition isChainGraph (k n : nat) (G : gmap string runningModule) : Prop :=
  ∀ p node, G !! p = Some node ↔
    ∃ i, k ≤ i < n ∧ p = chainName i ∧ node = chainNode k i.

Definition chainGroups (k count : nat) : list (list TerraformModule) :=
  (λ i, [chainModule i]) <$> seq k count.

(** The loop without the cap on the number of groups: it peels the graph
    until no node remains. *)
Fixpoint peelAll (fuel : nat) (graph : gmap string runningModule)
    (groups : list (list TerraformModule))
  : option (list (list TerraformModule)) :=
  if bool_decide (0 < size graph) then
    match fuel with
    | O => None
    | S fuel' =>
        let '(graph', groups') := iteration (map_to_list graph) groups in
        peelAll fuel' graph' groups'
    end
  else Some groups.

(** The finished ids are closed under declared dependencies, and no cycle
    passes through them. *)
Definition settled (modules : list TerraformModule) (finished : list string)
  : Prop :=
  (∀ p d, p ∈ finished → dependsOn modules p d → d ∈ finished)
  ∧ (∀ p, p ∈ finished → ¬ tc (dependsOn modules) p p).

(** The modules that are not on the current traversal. *)
Definition offTraversal (modules : list TerraformModule)
    (inProgress : list string) : gset string :=
  list_to_set (paths modules) ∖ list_to_set inProgress.

(** The entries that the stream of module [m] adds to the log. *)
Definition entriesFor (m : TerraformModule) (output : string)
  : list logEntry :=
  if decide (output = "") then []
  else if Contains output planErrorSignature
          && Contains output remoteStateSignature
       then [Infoln output; Infof (remoteStateHint m)]
       else [Infoln output].

(** The section of the text report for the group at position [i]: its
    header, one line per module, and an empty line. *)
Definition groupSection (i : nat) (group : list TerraformModule) : string :=
  "Group " +:+ sprintfD (i + 1) +:+ lineFeed
  +:+ String.concat "" ((λ m, "- Module " +:+ Path m +:+ lineFeed) <$> group)
  +:+ lineFeed.

(** The member of the JSON report for the group at position [i]. *)
Definition groupMember (i : nat) (group : list TerraformModule)
  : string * list string :=
  (groupNum i, Path <$> group).

(** The outputs among the entries of a log. *)
Definition loggedOutputs (log : list logEntry) : list string :=
  omap (λ e, match e with Infoln output => Some output | Infof _ => None end)
    log.

(** An output that calls for the hint: it is not empty and contains both
    signatures. *)
Definition tripsHint (output : string) : Prop :=
  output ≠ "" ∧ Contains output planErrorSignature = true
  ∧ Contains output remoteStateSignature = true.

(** [waitingIn S G]: every path of [S] names a node of [G] that is not assumed
    applied and still waits for a path of [S]. *)
Definition waitingIn (S : gset string) (G : gmap string runningModule)
  : Prop :=
  ∀ p : string, p ∈ S →
    ∃ n, G !! p = Some n ∧ AssumeAlreadyApplied (rmModule n) = false
         ∧ ∃ q : string, q ∈ S ∧ q ∈ rmDependencies n.




(** * Properties *)

(** ** The bytewise order on strings *)

Section string_order.

Lemma ascii_compare_refl (c : Ascii.ascii) : Ascii.compare c c = Eq.
Proof. unfold Ascii.compare. apply N.compare_refl. Qed.

Lemma string_compare_refl (s : string) : String.compare s s = Eq.
Proof. induction s as [|c s IH]; simpl; [done|]. by rewrite ascii_compare_refl. Qed.

Lemma string_compare_lt_trans (a b c : string) :
  String.compare a b = Lt → String.compare b c = Lt → String.compare a c = Lt.
Proof.
  revert b c. induction a as [|x a IH]; intros [|y b] [|z c]; simpl; try done.
  unfold Ascii.compare.
  destruct (N.compare_spec (Ascii.N_of_ascii x) (Ascii.N_of_ascii y)) as [Hxy|Hxy|Hxy];
    destruct (N.compare_spec (Ascii.N_of_ascii y) (Ascii.N_of_ascii z)) as [Hyz|Hyz|Hyz];
    try done; intros Hab Hbc.
  - rewrite Hxy, Hyz, N.compare_refl. eauto.
- assert (Ascii.N_of_ascii x < Ascii.N_of_ascii z)%N as Hxz by lia.
  apply N.compare_lt_iff in Hxz. by rewrite Hxz.
- assert (Ascii.N_of_ascii x < Ascii.N_of_ascii z)%N as Hxz by lia.
  apply N.compare_lt_iff in Hxz. by rewrite Hxz.
- assert (Ascii.N_of_ascii x < Ascii.N_of_ascii z)%N as Hxz by lia.
  apply N.compare_lt_iff in Hxz. by rewrite Hxz.
Qed.

Lemma ltb_irrefl (s : string) : String.ltb s s = false.
Proof. unfold String.ltb. by rewrite string_compare_refl. Qed.

Lemma ltb_trans (a b c : string) :
  String.ltb a b = true → String.ltb b c = true → String.ltb a c = true.
Proof.
  unfold String.ltb. intros Hab Hbc.
  destruct (String.compare a b) eqn:E1; try done.
  destruct (String.compare b c) eqn:E2; try done.
  by rewrite (string_compare_lt_trans a b c).
Qed.

Lemma ltb_asym (a b : string) : String.ltb a b = true → String.ltb b a = false.
Proof.
  intros Hab. destruct (String.ltb b a) eqn:Hba; [|done].
  by rewrite <-(ltb_irrefl a), <-(ltb_trans a b a Hab Hba).
Qed.

Lemma ltb_total (a b : string) :
  String.ltb a b = false → String.ltb b a = false → a = b.
Proof.
  unfold String.ltb. rewrite (String.compare_antisym b a).
  destruct (String.compare a b) eqn:E; simpl; try done.
  intros _ _. by apply String.compare_eq_iff.
Qed.

End string_order.

(** ** Sorting a group by path *)

Section sorting.

Implicit Types (m : TerraformModule) (l : list TerraformModule).

Lemma pathLe_trans m1 m2 m3 : pathLe m1 m2 → pathLe m2 m3 → pathLe m1 m3.
Proof.
  unfold pathLe, less. intros H12 H23.
  destruct (String.ltb (Path m3) (Path m1)) eqn:H31; [|done].
  destruct (String.ltb (Path m2) (Path m1)) eqn:H21; [done|].
  destruct (String.ltb (Path m1) (Path m2)) eqn:H12'.
  - by rewrite (ltb_trans _ _ _ H31 H12') in H23.
  - rewrite (ltb_total _ _ H12' H21) in H31. congruence.
Qed.

Lemma less_pathLe m1 m2 : less m1 m2 = true → pathLe m1 m2.
Proof. apply ltb_asym. Qed.

Lemma insertByPath_Permutation m l : insertByPath m l ≡ₚ m :: l.
Proof.
  induction l as [|x l IH]; simpl; [done|].
  destruct (less m x); [done|]. rewrite IH. apply Permutation_swap.
Qed.

Lemma sortByPath_snoc l m : sortByPath (l ++ [m]) = insertByPath m (sortByPath l).
Proof. unfold sortByPath. by rewrite foldl_app. Qed.

Lemma sortByPath_Permutation l : sortByPath l ≡ₚ l.
Proof.
  induction l as [|m l IH] using rev_ind; [done|].
  rewrite sortByPath_snoc, insertByPath_Permutation, IH.
  by rewrite Permutation_app_comm.
Qed.

Lemma insertByPath_sorted m l :
  StronglySorted pathLe l → StronglySorted pathLe (insertByPath m l).
Proof.
  induction 1 as [|x l Hl IH Hx]; simpl.
  { repeat constructor. }
  destruct (less m x) eqn:Hmx.
  - constructor; [by constructor|]. constructor; [by apply less_pathLe|].
    eapply Forall_impl; [exact Hx|]. intros y Hy.
    eapply pathLe_trans; [|exact Hy]. by apply less_pathLe.
  - constructor; [done|]. rewrite insertByPath_Permutation. by constructor.
Qed.

Lemma sortByPath_sorted l : StronglySorted pathLe (sortByPath l).
Proof.
  induction l as [|m l IH] using rev_ind; [constructor|].
  rewrite sortByPath_snoc. by apply insertByPath_sorted.
Qed.

Lemma NoDup_paths_inj l m1 m2 :
  NoDup (Path <$> l) → m1 ∈ l → m2 ∈ l → Path m1 = Path m2 → m1 = m2.
Proof.
  induction l as [|x l IH]; simpl; [by intros _ ?%elem_of_nil|].
  rewrite NoDup_cons, !elem_of_cons. intros [Hx Hl] [->|H1] [->|H2] Hp; auto.
  - destruct Hx. rewrite Hp. by apply list_elem_of_fmap_2.
  - destruct Hx. rewrite <-Hp. by apply list_elem_of_fmap_2.
Qed.

Lemma NoDup_paths_NoDup l : NoDup (Path <$> l) → NoDup l.
Proof. apply NoDup_fmap_1. Qed.

(** With pairwise distinct paths the ascending order is strict. *)
Lemma sorted_strict l :
  NoDup (Path <$> l) → StronglySorted pathLe l → sortedByPath l.
Proof.
  intros Hnd Hs. induction Hs as [|x l Hl IH Hx]; [constructor|].
  simpl in Hnd. apply NoDup_cons in Hnd as [Hxl Hnd].
  constructor; [by apply IH|].
  rewrite Forall_forall in Hx |- *. intros y Hy.
  specialize (Hx y Hy). unfold pathLe, less in *.
  destruct (String.ltb (Path x) (Path y)) eqn:Hxy; [done|].
  destruct Hxl. rewrite (ltb_total _ _ Hxy Hx). by apply list_elem_of_fmap_2.
Qed.

(** Any two ascending arrangements of a group with distinct paths coincide:
    the result of [sort.Slice] does not depend on the algorithm it runs. *)
Lemma sorted_unique l1 l2 :
  NoDup (Path <$> l1) → StronglySorted pathLe l1 → StronglySorted pathLe l2 →
  l1 ≡ₚ l2 → l1 = l2.
Proof.
  intros Hnd H1 H2 Hp. apply (StronglySorted_unique_strong pathLe); [|done..].
  intros x1 x2 Hx1 Hx2 H12 H21. rewrite <-Hp in Hx2.
  apply (NoDup_paths_inj l1); [done..|]. by apply ltb_total.
Qed.

Lemma sortByPath_perm l1 l2 :
  NoDup (Path <$> l1) → l1 ≡ₚ l2 → sortByPath l1 = sortByPath l2.
Proof.
  intros Hnd Hp. apply sorted_unique; auto using sortByPath_sorted.
  - by rewrite sortByPath_Permutation.
  - by rewrite !sortByPath_Permutation.
Qed.

Lemma sortByPath_strict l : NoDup (Path <$> l) → sortedByPath (sortByPath l).
Proof.
  intros Hnd. apply sorted_strict; [|apply sortByPath_sorted].
  by rewrite sortByPath_Permutation.
Qed.

End sorting.

(** ** One pass over the graph *)

Section pass.

Implicit Types (l : list (string * runningModule)) (e : string * runningModule).
Implicit Types (G : gmap string runningModule) (n : runningModule).

Lemma size_deps_0 n : size (rmDependencies n) = 0 ↔ rmDependencies n = ∅.
Proof. rewrite size_empty_iff. by unfold_leibniz. Qed.

Lemma scan_snoc l e : scan (l ++ [e]) = scanEntry (scan l) e.
Proof. unfold scan. by rewrite foldl_app. Qed.

Lemma scanEntry_cases st k n :
  scanEntry st (k, n) =
    if AssumeAlreadyApplied (rmModule n) then
      mkScan (currentIterationDeploy st) (next st) (removeDep st ++ [k])
    else if bool_decide (rmDependencies n = ∅) then
      mkScan (currentIterationDeploy st ++ [rmModule n]) (next st)
             (removeDep st ++ [k])
    else mkScan (currentIterationDeploy st) (<[k := n]> (next st)) (removeDep st).
Proof.
  unfold scanEntry. destruct (AssumeAlreadyApplied _); [done|].
  destruct (decide _) as [H|H]; rewrite size_deps_0 in H.
  - by rewrite bool_decide_eq_true_2.
  - by rewrite bool_decide_eq_false_2.
Qed.

Lemma scan_currentIterationDeploy l :
  currentIterationDeploy (scan l) = deployedOf l.
Proof.
  unfold deployedOf. induction l as [|[k n] l IH] using rev_ind; [done|].
  rewrite scan_snoc, scanEntry_cases, filter_app, fmap_app, <-IH.
  rewrite filter_cons, filter_nil. unfold isDeployed. simpl.
  destruct (AssumeAlreadyApplied _); simpl; [by rewrite app_nil_r|].
  destruct (bool_decide _); simpl; [done|by rewrite app_nil_r].
Qed.

Lemma scan_removeDep l :
  removeDep (scan l) = (filter (λ e, isReady e.2) l).*1.
Proof.
  induction l as [|[k n] l IH] using rev_ind; [done|].
  rewrite scan_snoc, scanEntry_cases, filter_app, fmap_app, <-IH.
  rewrite filter_cons, filter_nil. unfold isReady. simpl.
  destruct (AssumeAlreadyApplied _); simpl; [done|].
  destruct (bool_decide _); simpl; [done|by rewrite app_nil_r].
Qed.

Lemma scan_next_lookup l k n :
  NoDup l.*1 →
  next (scan l) !! k = Some n ↔ (k, n) ∈ l ∧ isDeferred n.
Proof.
  induction l as [|[k' n'] l IH] using rev_ind.
  { intros _. unfold scan. simpl. rewrite lookup_empty, elem_of_nil. naive_solver. }
  rewrite fmap_app, NoDup_app. simpl. intros (Hl & Hk' & _).
  specialize (IH Hl). rewrite scan_snoc, scanEntry_cases, elem_of_app, list_elem_of_singleton.
  assert (isDeferred n' ↔
          AssumeAlreadyApplied (rmModule n') = false
          ∧ bool_decide (rmDependencies n' = ∅) = false) as Hdef.
  { unfold isDeferred. destruct (AssumeAlreadyApplied _), (bool_decide _); naive_solver. }
  assert ((k, n) ∈ l → k ≠ k') as Hne.
  { intros Hin ->. apply (Hk' k'); [|by left].
    apply list_elem_of_fmap. by exists (k', n). }
  destruct (AssumeAlreadyApplied (rmModule n')) eqn:Ha; simpl.
  { rewrite IH. naive_solver. }
  destruct (bool_decide (rmDependencies n' = ∅)) eqn:Hd; simpl.
  { rewrite IH. naive_solver. }
  destruct (decide (k = k')) as [->|Hkk].
  - rewrite lookup_insert_eq. naive_solver.
  - rewrite lookup_insert_ne by done. rewrite IH. naive_solver.
Qed.

Lemma scan_next l G :
  l ≡ₚ map_to_list G → next (scan l) = filter (λ kv, isDeferred kv.2) G.
Proof.
  intros Hl. apply map_eq. intros k. apply option_eq. intros n.
  rewrite scan_next_lookup, map_lookup_filter_Some, Hl, elem_of_map_to_list.
  - done.
  - rewrite Hl. apply NoDup_fst_map_to_list.
Qed.

Lemma removeDependencies_spec removed n :
  removeDependencies removed n =
    mkRunning (rmModule n) (rmDependencies n ∖ list_to_set removed).
Proof.
  unfold removeDependencies. f_equal. generalize (rmDependencies n).
  induction removed as [|p removed IH]; intros deps; simpl.
  { set_solver. }
  rewrite IH. destruct (decide (p ∈ deps)); set_solver.
Qed.

Lemma removeDep_readyKeys l G :
  l ≡ₚ map_to_list G → list_to_set (removeDep (scan l)) = readyKeys G.
Proof.
  intros Hl. rewrite scan_removeDep. unfold readyKeys. apply set_eq. intros k.
  rewrite elem_of_list_to_set, elem_of_dom, list_elem_of_fmap. split.
  - intros ([k' n] & -> & Hin). apply list_elem_of_filter in Hin as [Hr Hin].
    rewrite Hl, elem_of_map_to_list in Hin. exists n.
    by apply map_lookup_filter_Some.
  - intros [n Hn]. apply map_lookup_filter_Some in Hn as [Hn Hr].
    exists (k, n). split; [done|]. apply list_elem_of_filter. split; [done|].
    by rewrite Hl, elem_of_map_to_list.
Qed.

Lemma deployedOf_perm l1 l2 : l1 ≡ₚ l2 → deployedOf l1 ≡ₚ deployedOf l2.
Proof. intros H. unfold deployedOf. by rewrite H. Qed.

Lemma deployedOf_paths l G :
  keyIsPath G → l ≡ₚ map_to_list G →
  Path <$> deployedOf l = (filter (λ e, isDeployed e.2) l).*1.
Proof.
  intros Hkey Hl. unfold deployedOf. rewrite <-list_fmap_compose.
  apply Forall_fmap_ext_1, Forall_forall. intros [k n] Hin. simpl.
  apply list_elem_of_filter in Hin as [_ Hin].
  rewrite Hl, elem_of_map_to_list in Hin. by apply Hkey.
Qed.

Lemma deployedOf_NoDup l G :
  keyIsPath G → l ≡ₚ map_to_list G → NoDup (Path <$> deployedOf l).
Proof.
  intros Hkey Hl. rewrite (deployedOf_paths l G) by done.
  apply NoDup_fmap_fst.
  - intros k n1 n2 [_ H1]%list_elem_of_filter [_ H2]%list_elem_of_filter.
    rewrite Hl, elem_of_map_to_list in H1, H2. congruence.
  - apply NoDup_filter. rewrite Hl. apply NoDup_map_to_list.
Qed.

(** The outcome of an iteration does not depend on the order in which the
    pass visits the map. *)
Lemma iteration_spec l G groups :
  keyIsPath G → l ≡ₚ map_to_list G →
  iteration l groups = (nextGraph G, appendGroup groups (sortByPath (deployed G))).
Proof.
  intros Hkey Hl. unfold iteration, nextGraph, appendGroup, deployed.
  rewrite (scan_next l G) by done.
  rewrite scan_currentIterationDeploy.
  rewrite (sortByPath_perm (deployedOf l) (deployedOf (map_to_list G)))
    by eauto using deployedOf_NoDup, deployedOf_perm.
  f_equal. apply map_fmap_ext. intros k n _.
  by rewrite removeDependencies_spec, (removeDep_readyKeys l G).
Qed.

End pass.

(** ** The graph left by an iteration *)

Section next_graph.

Implicit Types (G : gmap string runningModule) (n : runningModule).

Lemma isDeferred_not_ready n : isDeferred n = negb (isReady n).
Proof.
  unfold isDeferred, isReady.
  by destruct (AssumeAlreadyApplied _), (bool_decide _).
Qed.

Lemma isDeployed_ready n :
  isDeployed n ↔ isReady n ∧ AssumeAlreadyApplied (rmModule n) = false.
Proof.
  unfold isDeployed, isReady.
  destruct (AssumeAlreadyApplied _), (bool_decide _); naive_solver.
Qed.

Lemma isDeployed_spec n :
  isDeployed n ↔
    AssumeAlreadyApplied (rmModule n) = false ∧ rmDependencies n = ∅.
Proof.
  unfold isDeployed. rewrite andb_True, bool_decide_spec.
  destruct (AssumeAlreadyApplied _); naive_solver.
Qed.

Lemma elem_of_readyKeys G k :
  k ∈ readyKeys G ↔ ∃ n, G !! k = Some n ∧ isReady n.
Proof.
  unfold readyKeys. rewrite elem_of_dom. unfold is_Some.
  setoid_rewrite map_lookup_filter_Some. naive_solver.
Qed.

Lemma nextGraph_lookup G k n' :
  nextGraph G !! k = Some n' ↔
    ∃ n, G !! k = Some n ∧ isReady n = false
         ∧ n' = mkRunning (rmModule n) (rmDependencies n ∖ readyKeys G).
Proof.
  unfold nextGraph. rewrite lookup_fmap_Some.
  setoid_rewrite map_lookup_filter_Some. simpl.
  setoid_rewrite isDeferred_not_ready.
  split.
  - intros (n & <- & Hn & Hr). exists n. by destruct (isReady n).
  - intros (n & Hn & Hr & ->). exists n. by rewrite Hr.
Qed.

Lemma dom_nextGraph G : dom (nextGraph G) = dom G ∖ readyKeys G.
Proof.
  apply set_eq. intros k.
  rewrite elem_of_difference, !elem_of_dom, elem_of_readyKeys. unfold is_Some.
  setoid_rewrite nextGraph_lookup. split.
  - intros (n' & n & Hn & Hr & _). split; [eauto|].
    intros (n2 & Hn2 & Hr2). simplify_eq. by rewrite Hr in Hr2.
  - intros [[n Hn] Hnr]. eexists _, n. split_and!; [done| |done].
    destruct (isReady n) eqn:Hr; [|done]. destruct Hnr. exists n. by rewrite Hr.
Qed.

Lemma nextGraph_keyIsPath G : keyIsPath G → keyIsPath (nextGraph G).
Proof.
  intros Hkey k n' (n & Hn & _ & ->)%nextGraph_lookup. simpl. by eapply Hkey.
Qed.

Lemma nextGraph_closed G : closed G → closed (nextGraph G).
Proof.
  intros Hc k n' (n & Hn & _ & ->)%nextGraph_lookup. simpl.
  rewrite dom_nextGraph. specialize (Hc k n Hn). set_solver.
Qed.

Lemma nextGraph_edge G k d : edge (nextGraph G) k d → edge G k d.
Proof.
  intros (n' & (n & Hn & _ & ->)%nextGraph_lookup & Hd). simpl in Hd.
  exists n. set_solver.
Qed.

Lemma nextGraph_acyclic G : graphAcyclic G → graphAcyclic (nextGraph G).
Proof.
  intros Hac k Hk. apply (Hac k).
  apply (tc_congruence id (edge G)) in Hk; [done|]. apply nextGraph_edge.
Qed.

Lemma nextGraph_size G : size (nextGraph G) ≤ size G.
Proof.
  rewrite <-!size_dom, dom_nextGraph. apply subseteq_size. set_solver.
Qed.

Lemma nextGraph_size_lt G k n :
  G !! k = Some n → isReady n → size (nextGraph G) < size G.
Proof.
  intros Hn Hr. rewrite <-!size_dom, dom_nextGraph. apply subset_size.
  assert (k ∈ readyKeys G) by (apply elem_of_readyKeys; eauto).
  assert (k ∈ dom G) by (apply elem_of_dom; eauto).
  set_solver.
Qed.

End next_graph.

(** ** Progress and termination of the loop *)

Section progress.

Implicit Types (G : gmap string runningModule) (n : runningModule).
Implicit Types (groups plan : list (list TerraformModule)).

(** From every node of a finite set of nodes, an acyclic graph leads to a
    node of the set that waits for nothing inside the set. *)
Lemma minimal_in G (S : gset string) :
  graphAcyclic G → S ⊆ dom G →
  ∀ x, x ∈ S →
    ∃ m, m ∈ S ∧ rtc (edge G) x m ∧ ∀ d, edge G m d → d ∉ S.
Proof.
  intros Hac. induction (set_wf S) as [S _ IH]. intros HS x Hx.
  assert (is_Some (G !! x)) as [n Hn] by (apply elem_of_dom; set_solver).
  destruct (set_choose_or_empty (rmDependencies n ∩ S)) as [[y Hy]|Hempty].
  - assert (edge G x y) as Hxy by (exists n; set_solver).
    assert (y ≠ x) as Hne by (intros ->; apply (Hac x); by apply tc_once).
    assert (S ∖ {[x]} ⊂ S) as Hsub.
    { apply subset_difference_elem_of. done. }
    assert (y ∈ S ∖ {[x]}) as HyS by set_solver.
    assert (S ∖ {[x]} ⊆ dom G) as Hdom by set_solver.
    destruct (IH (S ∖ {[x]}) Hsub Hdom y HyS) as (m & Hm & Hym & Hmin).
    exists m. split_and!; [set_solver|by eapply rtc_l|].
    intros d Hmd Hd. destruct (decide (d = x)) as [->|Hdx].
    + apply (Hac x). eapply tc_rtc_r; [by apply tc_once|].
      eapply rtc_r; [exact Hym|exact Hmd].
    + apply (Hmin d Hmd). set_solver.
  - exists x. split_and!; [done..|].
    intros d (n' & Hn' & Hd) HdS. simplify_eq. set_solver.
Qed.

Lemma acyclic_ready G :
  closed G → graphAcyclic G → 0 < size G →
  ∃ k n, G !! k = Some n ∧ rmDependencies n = ∅.
Proof.
  intros Hc Hac Hsize.
  assert (size G ≠ 0) as [x [nx Hx]]%map_size_ne_0_lookup by lia.
  destruct (minimal_in G (dom G) Hac) with (x := x) as (m & Hm & _ & Hmin);
    [done|by apply elem_of_dom|].
  apply elem_of_dom in Hm as [n Hn]. exists m, n. split; [done|].
  apply set_eq. intros d. split; [|set_solver]. intros Hd.
  destruct (Hmin d); [by exists n|]. by apply (Hc m n).
Qed.

Lemma loopCond_true G groups :
  loopCond G groups = true ↔ 0 < size G ∧ length groups < maxDepth.
Proof. unfold loopCond. by rewrite andb_true_iff, !bool_decide_eq_true. Qed.

Lemma loopCond_false G groups :
  loopCond G groups = false ↔ size G = 0 ∨ maxDepth ≤ length groups.
Proof.
  unfold loopCond. rewrite andb_false_iff, !bool_decide_eq_false. lia.
Qed.

Lemma groupLoop_unfold fuel G groups :
  keyIsPath G →
  groupLoop fuel G groups =
    if loopCond G groups then
      match fuel with
      | O => None
      | S fuel' =>
          groupLoop fuel' (nextGraph G)
            (appendGroup groups (sortByPath (deployed G)))
      end
    else Some groups.
Proof.
  intros Hkey. destruct fuel as [|fuel]; [done|].
  change (groupLoop (S fuel) G groups) with
    (if loopCond G groups then
       let '(graph', groups') := iteration (map_to_list G) groups in
       groupLoop fuel graph' groups'
     else Some groups).
  by rewrite (iteration_spec _ G).
Qed.

(** On an acyclic graph every iteration removes a node, so the loop returns
    within as many iterations as the graph has nodes. *)
Lemma groupLoop_terminates fuel G groups :
  keyIsPath G → closed G → graphAcyclic G → size G ≤ fuel →
  is_Some (groupLoop fuel G groups).
Proof.
  revert G groups. induction fuel as [|fuel IH]; intros G groups Hkey Hc Hac Hsz;
    rewrite groupLoop_unfold by done;
    destruct (loopCond G groups) eqn:Hcond; try done.
  - apply loopCond_true in Hcond. lia.
  - apply loopCond_true in Hcond as [Hpos _].
    destruct (acyclic_ready G) as (k & n & Hn & Hd); [done..|].
    apply IH; auto using nextGraph_keyIsPath, nextGraph_closed, nextGraph_acyclic.
    assert (size (nextGraph G) < size G); [|lia].
    apply (nextGraph_size_lt G k n); [done|].
    unfold isReady. rewrite (bool_decide_eq_true_2 _ Hd). by rewrite orb_true_r.
Qed.

(** More iterations allowed do not change a result. *)
Lemma groupLoop_fuel_mono fuel fuel' G groups plan :
  groupLoop fuel G groups = Some plan → fuel ≤ fuel' →
  groupLoop fuel' G groups = Some plan.
Proof.
  revert fuel' G groups.
  induction fuel as [|fuel IH]; intros fuel' G groups Hrun Hle.
  - destruct fuel'; cbn [groupLoop] in *; by destruct (loopCond G groups).
  - destruct fuel' as [|fuel']; [lia|]. cbn [groupLoop] in *.
    destruct (loopCond G groups); [|done].
    destruct (iteration _ _) as [G' groups']. apply IH; [done|lia].
Qed.

(** The invariant rule of the loop. *)
Lemma groupLoop_invariant (P : gmap string runningModule →
                               list (list TerraformModule) → Prop) :
  (∀ G groups, P G groups → keyIsPath G) →
  (∀ G groups, P G groups → loopCond G groups = true →
     P (nextGraph G) (appendGroup groups (sortByPath (deployed G)))) →
  ∀ fuel G groups plan,
    P G groups → groupLoop fuel G groups = Some plan →
    ∃ G', P G' plan ∧ loopCond G' plan = false.
Proof.
  intros Hkey Hstep fuel. induction fuel as [|fuel IH]; intros G groups plan HP;
    rewrite groupLoop_unfold by eauto;
    destruct (loopCond G groups) eqn:Hcond; try done.
  - intros [= <-]. eauto.
  - intros Hrun. eapply IH; [|exact Hrun]. eauto.
  - intros [= <-]. eauto.
Qed.

End progress.

(** ** The loop invariant *)

Section invariant.

Implicit Types (G : gmap string runningModule) (n : runningModule).
Implicit Types (groups plan : list (list TerraformModule)).
Implicit Types (g : list TerraformModule) (m : TerraformModule).

Lemma elem_of_concat m groups :
  m ∈ concat groups ↔ ∃ i g, groups !! i = Some g ∧ m ∈ g.
Proof.
  induction groups as [|g0 groups IH]; simpl.
  { rewrite elem_of_nil. naive_solver. }
  rewrite elem_of_app, IH. split.
  - intros [Hm|(i & g & Hg & Hm)]; [by exists 0, g0|by exists (S i), g].
  - intros ([|i] & g & Hg & Hm); simplify_eq/=; eauto.
Qed.

Lemma elem_of_deployed G m :
  m ∈ deployed G ↔ ∃ k n, G !! k = Some n ∧ isDeployed n ∧ m = rmModule n.
Proof.
  unfold deployed, deployedOf. rewrite list_elem_of_fmap. split.
  - intros ([k n] & -> & [Hd Hin]%list_elem_of_filter).
    apply elem_of_map_to_list in Hin. by exists k, n.
  - intros (k & n & Hn & Hd & ->). exists (k, n). split; [done|].
    apply list_elem_of_filter. split; [done|]. by apply elem_of_map_to_list.
Qed.

Lemma elem_of_sortByPath m g : m ∈ sortByPath g ↔ m ∈ g.
Proof. by rewrite sortByPath_Permutation. Qed.

Lemma deployed_NoDup G : keyIsPath G → NoDup (Path <$> deployed G).
Proof. intros. by apply (deployedOf_NoDup _ G). Qed.

Lemma appendGroup_cases groups g :
  (g = [] ∧ appendGroup groups g = groups)
  ∨ (g ≠ [] ∧ appendGroup groups g = groups ++ [g]).
Proof.
  unfold appendGroup. destruct g as [|m g]; [left|right].
  - split; [done|]. case_decide; [simpl in *; lia|done].
  - split; [done|]. case_decide; [done|simpl in *; lia].
Qed.

Lemma appendGroup_lookup_old groups g j x :
  groups !! j = Some x → appendGroup groups g !! j = Some x.
Proof.
  intros Hj. destruct (appendGroup_cases groups g) as [[_ ->]|[_ ->]]; [done|].
  by apply lookup_app_l_Some.
Qed.

Lemma appendGroup_length groups g :
  length groups ≤ length (appendGroup groups g).
Proof.
  destruct (appendGroup_cases groups g) as [[_ ->]|[_ ->]]; [done|].
  rewrite length_app. lia.
Qed.

Lemma appendGroup_lookup_new groups g m :
  m ∈ g →
  appendGroup groups g !! length groups = Some g
  ∧ length (appendGroup groups g) = S (length groups).
Proof.
  intros Hm. destruct (appendGroup_cases groups g) as [[-> _]|[_ ->]].
  { by apply elem_of_nil in Hm. }
  rewrite length_app. simpl. split; [|lia]. by apply list_lookup_middle.
Qed.

Lemma appendGroup_lookup_inv groups g i x :
  appendGroup groups g !! i = Some x →
  groups !! i = Some x ∨ (i = length groups ∧ x = g ∧ g ≠ []).
Proof.
  destruct (appendGroup_cases groups g) as [[_ ->]|[Hne ->]]; [by left|].
  rewrite lookup_snoc_Some. naive_solver.
Qed.

Lemma placedBefore_append groups g i i' m :
  placedBefore groups i m → i ≤ i' → placedBefore (appendGroup groups g) i' m.
Proof.
  intros (j & x & Hj & Hx & Hm) Hle. exists j, x.
  split_and!; [lia| |done]. by apply appendGroup_lookup_old.
Qed.

Lemma loopInv_start G0 : keyIsPath G0 → closed G0 → loopInv G0 G0 [].
Proof.
  intros Hkey Hc. split; try done.
  - intros k n Hn. exists n. split_and!; [done..|].
    specialize (Hc k n Hn). set_solver.
  - intros k n0 Hn0 Hk. destruct Hk. by apply elem_of_dom.
  - constructor.
Qed.

Lemma loopInv_step G0 G groups :
  loopInv G0 G groups →
  loopInv G0 (nextGraph G) (appendGroup groups (sortByPath (deployed G))).
Proof.
  intros [Hkey Hnode Hdone Hgroup Hnodup Hsorted Hnonempty].
  set (g := sortByPath (deployed G)).
  assert (∀ m, m ∈ g →
            ∃ k n n0, G !! k = Some n ∧ G0 !! k = Some n0 ∧ Path m = k
              ∧ m = rmModule n0 ∧ AssumeAlreadyApplied m = false
              ∧ rmDependencies n0 ∩ dom G = ∅ ∧ k ∈ readyKeys G) as Hnew.
  { intros m Hm. apply elem_of_sortByPath, elem_of_deployed in Hm
      as (k & n & Hn & Hd & ->).
    destruct (Hnode k n Hn) as (n0 & Hn0 & Hmod & Hdeps).
    pose proof Hd as [Hready _]%isDeployed_ready.
    apply isDeployed_spec in Hd as [Ha He].
    exists k, n, n0. split_and!; try done.
    - by apply (Hkey k n).
    - by rewrite <-Hdeps.
    - apply elem_of_readyKeys. eauto. }
  split.
  - by apply nextGraph_keyIsPath.
  - intros k n' (n & Hn & _ & ->)%nextGraph_lookup. simpl.
    destruct (Hnode k n Hn) as (n0 & Hn0 & Hmod & Hdeps).
    exists n0. split_and!; [done..|]. rewrite dom_nextGraph, Hdeps. set_solver.
  - intros k n0 Hn0 Hk Ha. destruct (decide (k ∈ dom G)) as [Hin|Hout].
    + apply elem_of_dom in Hin as [n Hn].
      destruct (Hnode k n Hn) as (n0' & Hn0' & Hmod & _). simplify_eq.
      assert (isReady n) as Hready.
      { destruct (isReady n) eqn:Hr; [done|]. destruct Hk.
        apply elem_of_dom. eexists. apply nextGraph_lookup. eauto. }
      assert (rmModule n0 ∈ g) as Hm.
      { apply elem_of_sortByPath, elem_of_deployed. exists k, n.
        split_and!; [done| |done]. apply isDeployed_ready. by rewrite Hmod. }
      destruct (appendGroup_lookup_new groups g _ Hm) as [Hlast Hlen].
      exists (length groups), g. split_and!; [lia|done..].
    + eapply placedBefore_append; [by eapply Hdone|]. apply appendGroup_length.
  - intros i x m [Hold|(-> & -> & _)]%appendGroup_lookup_inv Hm.
    + destruct (Hgroup i x m Hold Hm) as (n0 & Hn0 & Hmod & Ha & Hout & Hord).
      exists n0. split_and!; [done..| |].
      * rewrite dom_nextGraph. set_solver.
      * intros d nd Hd Hnd Had. eapply placedBefore_append; [eauto|done].
    + destruct (Hnew m Hm) as (k & n & n0 & Hn & Hn0 & Hp & Hmod & Ha & He & Hr).
      exists n0. rewrite Hp. split_and!; [done..| |].
      * rewrite dom_nextGraph. set_solver.
      * intros d nd Hd Hnd Had. eapply placedBefore_append; [|done].
        eapply Hdone; [done| |done]. set_solver.
  - destruct (appendGroup_cases groups g) as [[_ ->]|[_ ->]]; [done|].
    rewrite concat_app. simpl. rewrite app_nil_r, fmap_app.
    apply NoDup_app. split_and!; [done| |].
    + intros p (m & -> & (i & x & Hx & Hm)%elem_of_concat)%list_elem_of_fmap.
      intros (m' & Hp & Hm')%list_elem_of_fmap.
      destruct (Hgroup i x m Hx Hm) as (_ & _ & _ & _ & Hout & _).
      destruct (Hnew m' Hm') as (k & n & _ & Hn & _ & Hk & _).
      apply Hout. rewrite Hp, Hk. apply elem_of_dom. eauto.
    + unfold g. rewrite sortByPath_Permutation. by apply deployed_NoDup.
  - destruct (appendGroup_cases groups g) as [[_ ->]|[_ ->]]; [done|].
    apply Forall_app. split; [done|]. constructor; [|done].
    by apply sortByPath_strict, deployed_NoDup.
  - destruct (appendGroup_cases groups g) as [[_ ->]|[Hne ->]]; [done|].
    apply Forall_app. split; [done|]. by constructor.
Qed.

(** Whatever the loop returns satisfies the invariant, with a graph on which
    the loop condition fails. *)
Lemma groupLoop_loopInv fuel G0 plan :
  keyIsPath G0 → closed G0 → groupLoop fuel G0 [] = Some plan →
  ∃ G, loopInv G0 G plan ∧ (size G = 0 ∨ maxDepth ≤ length plan).
Proof.
  intros Hkey Hc Hrun.
  destruct (groupLoop_invariant (loopInv G0)) with fuel G0 ([] : list (list TerraformModule)) plan
    as (G & Hinv & Hcond); auto using loopInv_start, loopInv_step.
  - intros ?? []; done.
  - exists G. split; [done|]. by apply loopCond_false.
Qed.

End invariant.

(** ** The graph of a module list *)

Section graph_builder.

Implicit Types (modules : list TerraformModule) (m d : TerraformModule).
Implicit Types (order : DependencyOrder).

Lemma danglingDependency_None modules m :
  danglingDependency modules m = None ↔
    ∀ p, p ∈ Dependencies m → p ∈ paths modules.
Proof.
  unfold danglingDependency. rewrite head_None. split.
  - intros Hnil p Hp. destruct (decide (p ∈ paths modules)) as [|Hout]; [done|].
    assert (p ∈ filter (λ q : string, q ∉ paths modules) (Dependencies m)) as Hin
      by by apply list_elem_of_filter.
    rewrite Hnil in Hin. by apply elem_of_nil in Hin.
  - intros Hall. apply elem_of_nil_inv. intros p [Hout Hp]%list_elem_of_filter.
    by apply Hout, Hall.
Qed.

Lemma firstDangling_None modules todo :
  firstDangling modules todo = None ↔
    ∀ m p, m ∈ todo → p ∈ Dependencies m → p ∈ paths modules.
Proof.
  induction todo as [|m0 todo IH]; simpl.
  { split; [|done]. by intros _ m p ?%elem_of_nil. }
  destruct (danglingDependency modules m0) as [p0|] eqn:Hd.
  - split; [done|]. intros Hall.
    assert (danglingDependency modules m0 = None) as Hnone.
    { apply danglingDependency_None. intros p. apply Hall. by left. }
    congruence.
  - rewrite IH. rewrite danglingDependency_None in Hd. split.
    + intros Hall m p [->|Hm]%elem_of_cons; eauto.
    + intros Hall m p Hm. apply Hall. by right.
Qed.

Lemma toRunningModules_resolved modules order :
  resolved modules → toRunningModules modules order = inr (graphOf order modules).
Proof.
  intros Hres. unfold toRunningModules.
  by rewrite (proj2 (firstDangling_None modules modules) Hres).
Qed.

Lemma toRunningModules_inr modules order G :
  toRunningModules modules order = inr G →
  resolved modules ∧ G = graphOf order modules.
Proof.
  unfold toRunningModules.
  destruct (firstDangling modules modules) as [[??]|] eqn:Hd; [done|].
  intros [= <-]. split; [|done]. unfold resolved. by apply firstDangling_None.
Qed.

Lemma toRunningModules_dangling modules order :
  ¬ resolved modules → ∃ e, toRunningModules modules order = inl e.
Proof.
  intros Hres. unfold toRunningModules.
  destruct (firstDangling modules modules) as [[??]|] eqn:Hd; [by eexists|].
  destruct Hres. unfold resolved. by apply firstDangling_None.
Qed.

Lemma graphOf_lookup order modules k n :
  graphOf order modules !! k = Some n →
  ∃ m, m ∈ modules ∧ Path m = k
       ∧ n = mkRunning m (remainingDependencies order modules m).
Proof.
  intros Hk. apply elem_of_list_to_map_2, list_elem_of_fmap in Hk
    as (m & [= -> ->] & Hm). eauto.
Qed.

Lemma graphOf_lookup_module order modules m :
  NoDup (paths modules) → m ∈ modules →
  graphOf order modules !! Path m
  = Some (mkRunning m (remainingDependencies order modules m)).
Proof.
  intros Hnd Hm. apply elem_of_list_to_map_1.
  - by rewrite <-list_fmap_compose.
  - apply list_elem_of_fmap. eauto.
Qed.

Lemma dom_graphOf order modules :
  dom (graphOf order modules) = list_to_set (paths modules).
Proof.
  unfold graphOf, paths. by rewrite dom_list_to_map_L, <-list_fmap_compose.
Qed.

Lemma size_list_to_map {A} (l : list (string * A)) :
  size (list_to_map l : gmap string A) ≤ length l.
Proof.
  induction l as [|[k a] l IH]; simpl; [by rewrite map_size_empty|].
  rewrite map_size_insert. destruct (_ !! k); simpl; lia.
Qed.

Lemma size_graphOf order modules :
  size (graphOf order modules) ≤ length modules.
Proof.
  unfold graphOf. etransitivity; [apply size_list_to_map|].
  by rewrite length_fmap.
Qed.

Lemma graphOf_keyIsPath order modules : keyIsPath (graphOf order modules).
Proof. intros k n (m & _ & <- & ->)%graphOf_lookup. done. Qed.

Lemma elem_of_dependents modules m d :
  d ∈ dependents modules m ↔ d ∈ modules ∧ Path m ∈ Dependencies d.
Proof. unfold dependents. rewrite list_elem_of_filter. naive_solver. Qed.

Lemma graphOf_closed order modules :
  resolved modules → closed (graphOf order modules).
Proof.
  intros Hres k n (m & Hm & <- & ->)%graphOf_lookup p. simpl.
  rewrite dom_graphOf, elem_of_list_to_set. destruct order; simpl.
  - rewrite elem_of_list_to_set. by apply Hres.
  - rewrite elem_of_list_to_set. unfold paths.
    rewrite !list_elem_of_fmap. intros (d & -> & [Hd _]%elem_of_dependents).
    eauto.
Qed.

(** The edges of the graph are declared dependencies, inverted in reverse
    order. *)
Lemma graphOf_edge order modules k p :
  edge (graphOf order modules) k p →
  match order with
  | NormalOrder => dependsOn modules k p
  | ReverseOrder => dependsOn modules p k
  end.
Proof.
  intros (n & (m & Hm & <- & ->)%graphOf_lookup & Hp). simpl in Hp.
  destruct order; simpl in Hp.
  - apply elem_of_list_to_set in Hp. by exists m.
  - apply elem_of_list_to_set, list_elem_of_fmap in Hp
      as (d & -> & [Hd Hdep]%elem_of_dependents). by exists d.
Qed.

Lemma tc_flip {A} (R : relation A) x y : tc (flip R) x y → tc R y x.
Proof.
  induction 1 as [x y Hxy|x y z Hxy _ IH]; [by apply tc_once|].
  by eapply tc_r.
Qed.

Lemma graphOf_acyclic order modules :
  acyclic modules → graphAcyclic (graphOf order modules).
Proof.
  intros Hac k Hk. apply (Hac k). destruct order.
  - eapply (tc_congruence id); [|exact Hk].
    intros x y. apply (graphOf_edge NormalOrder).
  - apply tc_flip. eapply (tc_congruence id); [|exact Hk].
    intros x y. apply (graphOf_edge ReverseOrder).
Qed.

(** In a list with distinct paths the remaining dependencies of a module are
    its prerequisites in the direction of the graph. *)
Lemma remainingDependencies_prerequisite order modules m d :
  d ∈ modules → prerequisiteOf order m d →
  Path d ∈ remainingDependencies order modules m.
Proof.
  intros Hd Hpre. destruct order; simpl in *.
  - by apply elem_of_list_to_set.
  - apply elem_of_list_to_set, list_elem_of_fmap. exists d. split; [done|].
    by apply elem_of_dependents.
Qed.

Lemma getModuleRunGraph_orderFor fuel stack cmd :
  getModuleRunGraph fuel stack cmd =
    match toRunningModules (Modules stack) (orderFor cmd) with
    | inl graphErr => Some (inl graphErr)
    | inr moduleRunGraph => inr <$> groupLoop fuel moduleRunGraph []
    end.
Proof. unfold getModuleRunGraph, orderFor. by case_decide. Qed.

Lemma getModuleRunGraph_fuel_mono fuel fuel' stack cmd result :
  getModuleRunGraph fuel stack cmd = Some result → fuel ≤ fuel' →
  getModuleRunGraph fuel' stack cmd = Some result.
Proof.
  rewrite !getModuleRunGraph_orderFor.
  destruct (toRunningModules _ _) as [e|G]; [done|].
  destruct (groupLoop fuel G []) as [plan|] eqn:Hrun; [|done].
  intros [= <-] Hle. by rewrite (groupLoop_fuel_mono _ fuel' _ _ _ Hrun Hle).
Qed.

End graph_builder.

(** ** Module lists in dependency order *)

Section dependency_order.

Implicit Types (modules : list TerraformModule) (m : TerraformModule).

Lemma acyclic_of_rank modules (rank : string → nat) :
  (∀ p d, dependsOn modules p d → rank d < rank p) → acyclic modules.
Proof.
  intros Hrank p Hp.
  assert (∀ x y, tc (dependsOn modules) x y → rank y < rank x) as Htc.
  { induction 1 as [x y Hxy|x y z Hxy _ IH]; [by apply Hrank|].
    specialize (Hrank x y Hxy). lia. }
  specialize (Htc p p Hp). lia.
Qed.

Lemma dependsOn_cons m modules p d :
  dependsOn (m :: modules) p d ↔
    (Path m = p ∧ d ∈ Dependencies m) ∨ dependsOn modules p d.
Proof.
  unfold dependsOn. setoid_rewrite elem_of_cons. naive_solver.
Qed.

Lemma inDependencyOrder_cons seen m modules :
  inDependencyOrder seen (m :: modules) = true ↔
    (∀ d, d ∈ Dependencies m → d ∈ seen) ∧ (Path m ∉ seen)
    ∧ inDependencyOrder (Path m :: seen) modules = true.
Proof.
  simpl. rewrite !andb_true_iff, bool_decide_eq_true, forallb_forall.
  setoid_rewrite bool_decide_eq_true. setoid_rewrite <-list_elem_of_In.
  naive_solver.
Qed.

Lemma inDependencyOrder_fresh seen modules m :
  inDependencyOrder seen modules = true → m ∈ modules → Path m ∉ seen.
Proof.
  revert seen. induction modules as [|m0 modules IH]; intros seen.
  { by intros _ ?%elem_of_nil. }
  rewrite inDependencyOrder_cons. intros (_ & Hfresh & Hrest).
  intros [->|Hm]%elem_of_cons; [done|].
  specialize (IH _ Hrest Hm). set_solver.
Qed.

Lemma inDependencyOrder_rank seen modules :
  inDependencyOrder seen modules = true →
  ∃ rank : string → nat, ∀ p d, dependsOn modules p d → rank d < rank p.
Proof.
  revert seen. induction modules as [|m modules IH]; intros seen.
  { intros _. exists (λ _, 0). by intros p d (? & ?%elem_of_nil & _). }
  intros Hord. pose proof Hord as Hall.
  apply inDependencyOrder_cons in Hord as (Hdeps & Hfresh & Hrest).
  destruct (IH _ Hrest) as [rank Hrank].
  exists (λ p, if decide (p ∈ seen) then 0
               else if decide (p = Path m) then 1 else rank p + 2).
  intros p d [[<- Hd]|Hpd]%dependsOn_cons.
  - rewrite (decide_True _ _ (Hdeps d Hd)), (decide_False _ _ Hfresh).
    rewrite decide_True by done. lia.
  - pose proof Hpd as (m' & Hm' & <- & _).
    pose proof (inDependencyOrder_fresh _ _ _ Hrest Hm') as Hout.
    rewrite (decide_False (P := Path m' ∈ seen)) by set_solver.
    rewrite (decide_False (P := Path m' = Path m)) by set_solver.
    specialize (Hrank _ _ Hpd). repeat case_decide; lia.
Qed.

Lemma inDependencyOrder_NoDup seen modules :
  inDependencyOrder seen modules = true → NoDup (paths modules).
Proof.
  revert seen. induction modules as [|m modules IH]; intros seen; simpl.
  { constructor. }
  intros Hord. pose proof Hord as (_ & _ & Hrest)%inDependencyOrder_cons.
  constructor; [|by eapply IH].
  intros (m' & Hp & Hm')%list_elem_of_fmap.
  apply (inDependencyOrder_fresh _ _ _ Hrest Hm'). rewrite <-Hp. by left.
Qed.

Lemma inDependencyOrder_resolved seen modules m d :
  inDependencyOrder seen modules = true →
  m ∈ modules → d ∈ Dependencies m → d ∈ seen ∨ d ∈ paths modules.
Proof.
  revert seen. induction modules as [|m0 modules IH]; intros seen.
  { by intros _ ?%elem_of_nil. }
  rewrite inDependencyOrder_cons. intros (Hdeps & _ & Hrest).
  intros [->|Hm]%elem_of_cons Hd; [left; by apply Hdeps|].
  destruct (IH _ Hrest Hm Hd) as [Hin|Hin].
  - apply elem_of_cons in Hin as [->|Hin]; [right; by left|by left].
  - right. by right.
Qed.

(** A module list written in dependency order has distinct paths, resolves
    all its dependencies and is acyclic. *)
Lemma inDependencyOrder_sound modules :
  inDependencyOrder [] modules = true →
  NoDup (paths modules) ∧ resolved modules ∧ acyclic modules.
Proof.
  intros Hord. split_and!.
  - by eapply inDependencyOrder_NoDup.
  - intros m d Hm Hd.
    destruct (inDependencyOrder_resolved _ _ _ _ Hord Hm Hd) as [Hin|Hin];
      [by apply elem_of_nil in Hin|done].
  - destruct (inDependencyOrder_rank _ _ Hord) as [rank Hrank].
    by eapply acyclic_of_rank.
Qed.

End dependency_order.

(** ** The run plan of a stack *)

Section run_plan.

Implicit Types (stack : Stack) (cmd : string) (m d : TerraformModule).
Implicit Types (plan : list (list TerraformModule)).

Lemma NoDup_concat_unique plan i j g g' m :
  NoDup (concat plan) → plan !! i = Some g → plan !! j = Some g' →
  m ∈ g → m ∈ g' → i = j.
Proof.
  revert i j. induction plan as [|g0 plan IH]; intros i j; [done|].
  simpl. rewrite NoDup_app. intros (_ & Hdisj & Hnd) Hi Hj Hm Hm'.
  destruct i as [|i], j as [|j]; simplify_eq/=; [done| | |f_equal; eauto].
  - destruct (Hdisj m Hm). apply elem_of_concat. eauto.
  - destruct (Hdisj m Hm'). apply elem_of_concat. eauto.
Qed.

(** A returned plan satisfies the loop invariant for the graph of the
    stack. *)
Lemma getModuleRunGraph_loopInv fuel stack cmd plan :
  getModuleRunGraph fuel stack cmd = Some (inr plan) →
  resolved (Modules stack)
  ∧ ∃ G, loopInv (graphOf (orderFor cmd) (Modules stack)) G plan
         ∧ (size G = 0 ∨ maxDepth ≤ length plan).
Proof.
  rewrite getModuleRunGraph_orderFor.
  destruct (toRunningModules _ _) as [e|G0] eqn:Hbuild; [done|].
  apply toRunningModules_inr in Hbuild as [Hres ->].
  destruct (groupLoop _ _ _) as [plan'|] eqn:Hrun; [|done].
  intros [= <-]. split; [done|].
  eapply groupLoop_loopInv; eauto using graphOf_keyIsPath, graphOf_closed.
Qed.

(** On an acyclic stack whose dependencies all resolve the computation
    returns a plan, within as many iterations as the stack has modules. *)
Lemma getModuleRunGraph_returns stack cmd :
  resolved (Modules stack) → acyclic (Modules stack) →
  ∃ plan, ∀ fuel, length (Modules stack) ≤ fuel →
    getModuleRunGraph fuel stack cmd = Some (inr plan).
Proof.
  intros Hres Hac.
  assert (is_Some (groupLoop (length (Modules stack))
                     (graphOf (orderFor cmd) (Modules stack)) []))
    as [plan Hplan].
  { apply groupLoop_terminates;
      auto using graphOf_keyIsPath, graphOf_closed, graphOf_acyclic,
        size_graphOf. }
  exists plan. intros fuel Hfuel.
  rewrite getModuleRunGraph_orderFor, toRunningModules_resolved by done.
  by rewrite (groupLoop_fuel_mono _ fuel _ _ _ Hplan Hfuel).
Qed.

Lemma loopInv_member G0 G plan i g m :
  loopInv G0 G plan → plan !! i = Some g → m ∈ g →
  AssumeAlreadyApplied m = false
  ∧ ∃ n0, G0 !! Path m = Some n0 ∧ rmModule n0 = m.
Proof.
  intros Hinv Hg Hm.
  destruct (inv_group _ _ _ Hinv i g m Hg Hm) as (n0 & ? & ? & ? & _). eauto.
Qed.

Lemma plan_members stack cmd G plan i g m :
  loopInv (graphOf (orderFor cmd) (Modules stack)) G plan →
  plan !! i = Some g → m ∈ g →
  m ∈ Modules stack ∧ AssumeAlreadyApplied m = false.
Proof.
  intros Hinv Hg Hm.
  destruct (loopInv_member _ _ _ _ _ _ Hinv Hg Hm) as (Ha & n0 & Hn0 & Hmod).
  apply graphOf_lookup in Hn0 as (m' & Hm' & _ & ->). by simplify_eq/=.
Qed.

Lemma plan_order stack cmd G plan i g m d :
  NoDup (paths (Modules stack)) →
  loopInv (graphOf (orderFor cmd) (Modules stack)) G plan →
  plan !! i = Some g → m ∈ g →
  d ∈ Modules stack → prerequisiteOf (orderFor cmd) m d →
  AssumeAlreadyApplied d = false → placedBefore plan i d.
Proof.
  intros Hnd Hinv Hg Hm Hd Hpre Ha.
  destruct (inv_group _ _ _ Hinv i g m Hg Hm) as (n0 & Hn0 & Hmod & _ & _ & Hord).
  apply graphOf_lookup in Hn0 as (m' & Hm' & _ & ->). simpl in *. subst m'.
  apply (Hord (Path d) (mkRunning d
           (remainingDependencies (orderFor cmd) (Modules stack) d)));
    [|by apply graphOf_lookup_module|done].
  by apply remainingDependencies_prerequisite.
Qed.

Lemma plan_complete stack cmd G plan m :
  NoDup (paths (Modules stack)) →
  loopInv (graphOf (orderFor cmd) (Modules stack)) G plan →
  size G = 0 → m ∈ Modules stack → AssumeAlreadyApplied m = false →
  inExactlyOneGroup plan m.
Proof.
  intros Hnd Hinv Hsize Hm Ha.
  apply map_size_empty_inv in Hsize. subst G.
  destruct (inv_done _ _ _ Hinv (Path m) _
              (graphOf_lookup_module (orderFor cmd) _ m Hnd Hm))
    as (i & g & _ & Hg & Hin); [set_solver|done|].
  exists i, g. split_and!; [done..|]. intros j g' Hg' Hin'.
  eapply (NoDup_concat_unique plan j i); eauto.
  eapply NoDup_fmap_1, inv_nodup, Hinv.
Qed.

End run_plan.

Section small_stack.

Implicit Types (stack : Stack) (cmd : string) (m : TerraformModule).
Implicit Types (plan : list (list TerraformModule)).

Lemma length_concat_nonempty plan :
  Forall (λ g, g ≠ []) plan → length plan ≤ length (concat plan).
Proof.
  induction 1 as [|g plan Hg _ IH]; simpl; [done|].
  rewrite length_app. destruct g; [done|]. simpl. lia.
Qed.

(** In a stack of at most [maxDepth] modules a plan that stopped at the cap
    already holds every module. *)
Lemma plan_full stack cmd G plan m :
  NoDup (paths (Modules stack)) →
  loopInv (graphOf (orderFor cmd) (Modules stack)) G plan →
  maxDepth ≤ length plan → length (Modules stack) ≤ maxDepth →
  m ∈ Modules stack → inExactlyOneGroup plan m.
Proof.
  intros Hnd Hinv Hcap Hsmall Hm.
  assert (NoDup (concat plan)) as Hplan
    by (eapply NoDup_fmap_1, inv_nodup, Hinv).
  assert (concat plan ⊆+ Modules stack) as Hsub.
  { apply NoDup_submseteq; [done|].
    intros m' (i & g & Hg & Hm')%elem_of_concat.
    by eapply plan_members. }
  assert (length plan ≤ length (concat plan)) as Hlen
    by (eapply length_concat_nonempty, inv_nonempty, Hinv).
  apply submseteq_length_Permutation in Hsub; [|lia].
  rewrite <-Hsub in Hm. apply elem_of_concat in Hm as (i & g & Hg & Hin).
  exists i, g. split_and!; [done..|]. intros j g' Hg' Hin'.
  by eapply (NoDup_concat_unique plan j i).
Qed.

End small_stack.

(** ** The loop under any visiting order *)

Section any_order.

Implicit Types (G : gmap string runningModule).
Implicit Types (groups plan : list (list TerraformModule)).

Lemma runsTo_groupLoop G groups plan :
  keyIsPath G → runsTo G groups plan → ∃ fuel, groupLoop fuel G groups = Some plan.
Proof.
  intros Hkey Hrun. induction Hrun as [G groups Hc|G groups l G' groups' plan Hc Hl Hit _ IH].
  - exists 0. simpl. by rewrite Hc.
  - rewrite (iteration_spec l G) in Hit by done. simplify_eq.
    destruct IH as [fuel Hfuel]; [by apply nextGraph_keyIsPath|].
    exists (S fuel). by rewrite groupLoop_unfold, Hc.
Qed.

Lemma groupLoop_runsTo fuel G groups plan :
  groupLoop fuel G groups = Some plan → runsTo G groups plan.
Proof.
  revert G groups. induction fuel as [|fuel IH]; intros G groups;
    cbn [groupLoop]; destruct (loopCond G groups) eqn:Hc; try done.
  - intros [= <-]. by constructor.
  - destruct (iteration _ _) as [G' groups'] eqn:Hit. intros Hrun.
    eapply runs_iter; eauto.
  - intros [= <-]. by constructor.
Qed.

Lemma runsTo_deterministic G groups plan1 plan2 :
  keyIsPath G → runsTo G groups plan1 → runsTo G groups plan2 → plan1 = plan2.
Proof.
  intros Hkey H1 H2.
  apply runsTo_groupLoop in H1 as [f1 H1]; [|done].
  apply runsTo_groupLoop in H2 as [f2 H2]; [|done].
  apply (groupLoop_fuel_mono _ (f1 `max` f2)) in H1; [|lia].
  apply (groupLoop_fuel_mono _ (f1 `max` f2)) in H2; [|lia].
  congruence.
Qed.

Lemma computesRunGraph_orderFor stack cmd result :
  computesRunGraph stack cmd result ↔
    match toRunningModules (Modules stack) (orderFor cmd) with
    | inl graphErr => result = inl graphErr
    | inr G => ∃ plan, result = inr plan ∧ runsTo G [] plan
    end.
Proof. unfold computesRunGraph, orderFor. by case_decide. Qed.

Lemma getModuleRunGraph_computes fuel stack cmd result :
  getModuleRunGraph fuel stack cmd = Some result →
  computesRunGraph stack cmd result.
Proof.
  rewrite getModuleRunGraph_orderFor, computesRunGraph_orderFor.
  destruct (toRunningModules _ _) as [e|G]; [by intros [= <-]|].
  destruct (groupLoop fuel G []) as [plan|] eqn:Hrun; [|done].
  intros [= <-]. exists plan. split; [done|]. by eapply groupLoop_runsTo.
Qed.

Lemma computes_getModuleRunGraph stack cmd result :
  computesRunGraph stack cmd result →
  ∃ fuel, getModuleRunGraph fuel stack cmd = Some result.
Proof.
  rewrite computesRunGraph_orderFor.
  destruct (toRunningModules _ _) as [e|G] eqn:Hbuild.
  - intros ->. exists 0. by rewrite getModuleRunGraph_orderFor, Hbuild.
  - intros (plan & -> & Hrun).
    apply toRunningModules_inr in Hbuild as Hb. destruct Hb as [_ ->].
    apply runsTo_groupLoop in Hrun as [fuel Hfuel]; [|apply graphOf_keyIsPath].
    exists fuel. by rewrite getModuleRunGraph_orderFor, Hbuild, Hfuel.
Qed.

End any_order.

(** ** Modules assumed applied *)

Section applied.

Implicit Types (G : gmap string runningModule).
Implicit Types (groups plan : list (list TerraformModule)).
Implicit Types (modules : list TerraformModule) (m d a c : TerraformModule).

Lemma groupLoop_prefix fuel G groups plan :
  keyIsPath G → groupLoop fuel G groups = Some plan → groups `prefix_of` plan.
Proof.
  revert G groups. induction fuel as [|fuel IH]; intros G groups Hkey;
    rewrite groupLoop_unfold by done;
    destruct (loopCond G groups); try done; try by intros [= <-].
  intros Hrun. apply IH in Hrun; [|by apply nextGraph_keyIsPath].
  etransitivity; [|exact Hrun].
  destruct (appendGroup_cases groups (sortByPath (deployed G)))
    as [[_ ->]|[_ ->]]; [done|]. by apply prefix_app_r.
Qed.

Lemma remainingDependencies_spec order modules m p :
  resolved modules → m ∈ modules →
  p ∈ remainingDependencies order modules m ↔
    ∃ d, d ∈ modules ∧ Path d = p ∧ prerequisiteOf order m d.
Proof.
  intros Hres Hm. split.
  - destruct order; simpl; rewrite elem_of_list_to_set.
    + intros Hp. pose proof (Hres m p Hm Hp) as Hin.
      apply list_elem_of_fmap in Hin as (d & -> & Hd). eauto.
    + intros (d & -> & [Hd Hdep]%elem_of_dependents)%list_elem_of_fmap. eauto.
  - intros (d & Hd & <- & Hpre). by apply remainingDependencies_prerequisite.
Qed.

Lemma deployed_graphOf order modules c :
  NoDup (paths modules) → resolved modules →
  c ∈ deployed (graphOf order modules) ↔ startsReady order modules c.
Proof.
  intros Hnd Hres. rewrite elem_of_deployed. unfold startsReady. split.
  - intros (k & n & Hn & Hd & ->).
    apply graphOf_lookup in Hn as (c & Hc & _ & ->).
    apply isDeployed_spec in Hd as [Ha He]. simpl in *.
    split_and!; [done..|]. intros d Hd Hpre.
    apply (remainingDependencies_prerequisite order modules) in Hpre; [|done].
    set_solver.
  - intros (Hc & Ha & Hno). eexists _, _. split_and!.
    + by apply graphOf_lookup_module.
    + apply isDeployed_spec. split; [done|]. simpl.
      apply set_eq. intros p. split; [|set_solver].
      intros (d & Hd & _ & Hpre)%remainingDependencies_spec; [|done..].
      by destruct (Hno d).
    + done.
Qed.

(** A module that waits only for one module assumed applied is deployed by
    the second iteration. *)
Lemma second_iteration_deploys order modules m a :
  NoDup (paths modules) → resolved modules →
  m ∈ modules → AssumeAlreadyApplied m = false →
  a ∈ modules → AssumeAlreadyApplied a = true →
  prerequisiteOf order m a →
  (∀ d, d ∈ modules → prerequisiteOf order m d → d = a) →
  isReady (mkRunning m (remainingDependencies order modules m)) = false
  ∧ m ∈ deployed (nextGraph (graphOf order modules)).
Proof.
  intros Hnd Hres Hm Hma Ha Haa Hpre Honly.
  assert (remainingDependencies order modules m = {[Path a]}) as Hdeps.
  { apply set_eq. intros p. rewrite remainingDependencies_spec by done.
    rewrite elem_of_singleton. split.
    - intros (d & Hd & <- & Hp). by rewrite (Honly d Hd Hp).
    - intros ->. eauto. }
  assert (isReady (mkRunning m (remainingDependencies order modules m)) = false)
    as Hnot.
  { unfold isReady. simpl. rewrite Hma, Hdeps. simpl.
    apply bool_decide_eq_false. set_solver. }
  split; [done|]. apply elem_of_deployed.
  exists (Path m), (mkRunning m ({[Path a]} ∖ readyKeys (graphOf order modules))).
  split_and!; [|apply isDeployed_spec; split; [done|]; simpl|done].
  - apply nextGraph_lookup. eexists. split_and!;
      [by apply graphOf_lookup_module|done|]. simpl. by rewrite Hdeps.
  - assert (Path a ∈ readyKeys (graphOf order modules)); [|set_solver].
    apply elem_of_readyKeys. eexists. split; [by apply graphOf_lookup_module|].
    unfold isReady. simpl. by rewrite Haa.
Qed.

End applied.

(** ** The cap on the number of groups, and chains *)

Section cap.

Implicit Types (G : gmap string runningModule).
Implicit Types (groups full : list (list TerraformModule)).

Lemma peelAll_unfold fuel G groups :
  keyIsPath G →
  peelAll fuel G groups =
    if bool_decide (0 < size G) then
      match fuel with
      | O => None
      | S fuel' =>
          peelAll fuel' (nextGraph G)
            (appendGroup groups (sortByPath (deployed G)))
      end
    else Some groups.
Proof.
  intros Hkey. destruct fuel as [|fuel]; [done|].
  change (peelAll (S fuel) G groups) with
    (if bool_decide (0 < size G) then
       let '(graph', groups') := iteration (map_to_list G) groups in
       peelAll fuel graph' groups'
     else Some groups).
  by rewrite (iteration_spec _ G).
Qed.

Lemma appendGroup_prefix groups g : groups `prefix_of` appendGroup groups g.
Proof.
  destruct (appendGroup_cases groups g) as [[_ ->]|[_ ->]]; [done|].
  by apply prefix_app_r.
Qed.

Lemma peelAll_prefix fuel G groups full :
  keyIsPath G → peelAll fuel G groups = Some full → groups `prefix_of` full.
Proof.
  revert G groups. induction fuel as [|fuel IH]; intros G groups Hkey;
    rewrite peelAll_unfold by done;
    destruct (bool_decide (0 < size G)); try done; try by intros [= <-].
  intros Hrun. apply IH in Hrun; [|by apply nextGraph_keyIsPath].
  etransitivity; [apply appendGroup_prefix|exact Hrun].
Qed.

(** The capped loop returns the first [maxDepth] groups of the complete
    peeling. *)
Lemma groupLoop_take fuel G groups full :
  keyIsPath G → length groups ≤ maxDepth →
  peelAll fuel G groups = Some full →
  groupLoop fuel G groups = Some (take maxDepth full).
Proof.
  revert G groups. induction fuel as [|fuel IH]; intros G groups Hkey Hlen Hfull;
    pose proof (peelAll_prefix _ _ _ _ Hkey Hfull) as [rest Hrest];
    rewrite peelAll_unfold in Hfull by done;
    rewrite groupLoop_unfold by done; unfold loopCond;
    destruct (bool_decide (0 < size G)); simpl; try done.
  - injection Hfull as <-. by rewrite take_ge.
  - case_bool_decide as Hcap.
    + apply IH; [by apply nextGraph_keyIsPath| |done].
      destruct (appendGroup_cases groups (sortByPath (deployed G)))
        as [[_ ->]|[_ ->]]; [done|]. rewrite length_app. simpl. lia.
    + f_equal. rewrite Hrest. assert (length groups = maxDepth) as <- by lia.
      by rewrite take_app_length.
  - injection Hfull as <-. by rewrite take_ge.
Qed.

End cap.

Section chains.

Implicit Types (G : gmap string runningModule).

Lemma chainName_inj i j : chainName i = chainName j → i = j.
Proof.
  unfold chainName. intros [= H]. apply pretty_N_inj in H. lia.
Qed.

Lemma chainModule_inj i j : chainModule i = chainModule j → i = j.
Proof. intros H. apply chainName_inj. exact (f_equal Path H). Qed.

Lemma chain_ordered_from n k seen :
  (∀ p, p ∈ seen ↔ ∃ i, i < k ∧ p = chainName i) →
  inDependencyOrder seen (chainModule <$> seq k n) = true.
Proof.
  revert k seen. induction n as [|n IH]; intros k seen Hseen; [done|].
  rewrite <-cons_seq, fmap_cons. apply inDependencyOrder_cons. split_and!.
  - intros d Hd. apply Hseen. destruct k as [|k]; simpl in Hd.
    + by apply elem_of_nil in Hd.
    + apply list_elem_of_singleton in Hd. exists k. split; [lia|done].
  - rewrite Hseen. intros (i & Hi & Heq). apply chainName_inj in Heq. lia.
  - apply IH. intros p. rewrite elem_of_cons, Hseen. split.
    + intros [->|(i & Hi & ->)]; [exists k|exists i]; split; (lia || done).
    + intros (i & Hi & ->). destruct (decide (i = k)) as [->|]; [by left|].
      right. exists i. split; [lia|done].
Qed.

Lemma chain_ordered n : inDependencyOrder [] (Modules (chain n)) = true.
Proof.
  apply chain_ordered_from. intros p. rewrite elem_of_nil.
  split; [done|]. intros (i & Hi & _). lia.
Qed.

Lemma chain_member n i : i < n → chainModule i ∈ Modules (chain n).
Proof.
  intros Hi. apply list_elem_of_fmap. exists i. split; [done|].
  apply elem_of_seq. lia.
Qed.

Lemma chain_graph n :
  isChainGraph 0 n (graphOf NormalOrder (Modules (chain n))).
Proof.
  destruct (inDependencyOrder_sound _ (chain_ordered n)) as (Hnd & _ & _).
  intros p node. split.
  - intros (m & (i & -> & Hi%elem_of_seq)%list_elem_of_fmap & <- & ->)%graphOf_lookup.
    exists i. split; [lia|]. split; [done|]. unfold chainNode. f_equal.
    destruct i as [|i]; simpl; [done|].
    rewrite Nat.sub_0_r. set_solver.
  - intros (i & Hi & -> & ->).
    etransitivity;
      [apply (graphOf_lookup_module NormalOrder _ (chainModule i) Hnd),
         chain_member; lia|].
    unfold chainNode. do 2 f_equal. destruct i as [|i]; simpl; [done|].
    rewrite Nat.sub_0_r. set_solver.
Qed.

Lemma chainNode_ready k i : k ≤ i → isReady (chainNode k i) = bool_decide (i = k).
Proof.
  intros Hi. unfold isReady, chainNode. simpl. case_decide.
  - rewrite !bool_decide_eq_true_2; [done|lia|done].
  - rewrite !bool_decide_eq_false_2; [done|lia|set_solver].
Qed.

Lemma chain_readyKeys k n G :
  isChainGraph k n G → k < n → readyKeys G = {[chainName k]}.
Proof.
  intros HG Hk. apply set_eq. intros p.
  rewrite elem_of_readyKeys, elem_of_singleton. split.
  - intros (node & (i & Hi & -> & ->)%HG & Hr).
    rewrite chainNode_ready in Hr by lia. apply bool_decide_unpack in Hr.
    by subst.
  - intros ->. exists (chainNode k k). split.
    + apply HG. exists k. split; [lia|done].
    + rewrite chainNode_ready by lia. by apply bool_decide_pack.
Qed.

Lemma chainNode_next k i :
  k < i →
  mkRunning (rmModule (chainNode k i))
    (rmDependencies (chainNode k i) ∖ {[chainName k]})
  = chainNode (S k) i.
Proof.
  intros Hi. unfold chainNode. simpl. f_equal.
  destruct (decide (i ≤ k)); [lia|]. destruct (decide (i ≤ S k)).
  - assert (i - 1 = k) as -> by lia. set_solver.
  - assert (chainName (i - 1) ≠ chainName k)
      by (intros ?%chainName_inj; lia).
    set_solver.
Qed.

Lemma chain_nextGraph k n G :
  isChainGraph k n G → k < n → isChainGraph (S k) n (nextGraph G).
Proof.
  intros HG Hk p node. rewrite nextGraph_lookup. split.
  - intros (node0 & (i & Hi & -> & ->)%HG & Hr & ->).
    rewrite chainNode_ready in Hr by lia. apply bool_decide_eq_false in Hr.
    exists i. split; [lia|]. split; [done|].
    rewrite (chain_readyKeys k n) by done. apply chainNode_next. lia.
  - intros (i & Hi & -> & ->). exists (chainNode k i). split_and!.
    + apply HG. exists i. split; [lia|done].
    + rewrite chainNode_ready by lia. apply bool_decide_eq_false. lia.
    + rewrite (chain_readyKeys k n) by done. symmetry. apply chainNode_next. lia.
Qed.

Lemma chain_keyIsPath k n G : isChainGraph k n G → keyIsPath G.
Proof. intros HG p node (i & _ & -> & ->)%HG. done. Qed.

Lemma chain_deployed k n G :
  isChainGraph k n G → k < n → sortByPath (deployed G) = [chainModule k].
Proof.
  intros HG Hk.
  assert (∀ m, m ∈ deployed G ↔ m = chainModule k) as Hin.
  { intros m. rewrite elem_of_deployed. split.
    - intros (p & node & (i & Hi & -> & ->)%HG & [Hr _]%isDeployed_ready & ->).
      apply Is_true_true in Hr.
      rewrite chainNode_ready in Hr by lia. apply bool_decide_eq_true in Hr.
      by subst.
    - intros ->. exists (chainName k), (chainNode k k). split_and!; [|apply isDeployed_ready|done].
      + apply HG. exists k. split; [lia|done].
      + split; [|done]. rewrite chainNode_ready by lia. by apply bool_decide_pack. }
  assert (NoDup (deployed G)) as Hnd
    by (eapply NoDup_fmap_1, deployed_NoDup, chain_keyIsPath; done).
  assert (deployed G ≡ₚ [chainModule k]) as Hperm.
  { apply NoDup_Permutation; [done|apply NoDup_singleton|].
    intros m. rewrite Hin, list_elem_of_singleton. done. }
  apply Permutation_singleton_r in Hperm. by rewrite Hperm.
Qed.

Lemma chain_size k n G : isChainGraph k n G → 0 < size G ↔ k < n.
Proof.
  intros HG. split.
  - intros Hsz. assert (size G ≠ 0) as [p [node Hp]]%map_size_ne_0_lookup by lia.
    apply HG in Hp as (i & Hi & _). lia.
  - intros Hk. assert (size G ≠ 0); [|lia]. apply map_size_ne_0_lookup.
    exists (chainName k), (chainNode k k). apply HG. exists k. split; [lia|done].
Qed.

(** The complete peeling of a chain deploys one module per iteration, in
    order. *)
Lemma chain_peelAll n fuel k G groups :
  isChainGraph k n G → k ≤ n → n - k ≤ fuel →
  peelAll fuel G groups = Some (groups ++ chainGroups k (n - k)).
Proof.
  revert k G groups. induction fuel as [|fuel IH]; intros k G groups HG Hk Hfuel;
    rewrite peelAll_unfold by (by eapply chain_keyIsPath);
    pose proof (chain_size k n G HG) as Hsize;
    case_bool_decide as Hpos.
  - lia.
  - replace (n - k) with 0 by lia. by rewrite app_nil_r.
  - rewrite (chain_deployed k n) by (done || lia).
    unfold appendGroup. rewrite decide_True by (simpl; lia).
    rewrite (IH (S k)); [|apply (chain_nextGraph k n); (done || lia)|lia..].
    replace (n - k) with (S (n - S k)) by lia.
    unfold chainGroups. rewrite <-cons_seq, fmap_cons.
    by rewrite <-app_assoc.
  - replace (n - k) with 0 by lia. by rewrite app_nil_r.
Qed.

Lemma take_chainGroups c k count :
  take c (chainGroups k count) = chainGroups k (c `min` count).
Proof. unfold chainGroups. by rewrite <-fmap_take, take_seq. Qed.

Lemma chain_plan n fuel :
  n ≤ fuel →
  getModuleRunGraph fuel (chain n) "apply"
  = Some (inr (chainGroups 0 (maxDepth `min` n))).
Proof.
  intros Hfuel.
  destruct (inDependencyOrder_sound _ (chain_ordered n)) as (_ & Hres & _).
  rewrite getModuleRunGraph_orderFor. change (orderFor "apply") with NormalOrder.
  rewrite toRunningModules_resolved by done.
  rewrite (groupLoop_take _ _ _ (chainGroups 0 n));
    [by rewrite take_chainGroups|apply graphOf_keyIsPath|simpl; lia|].
  rewrite (chain_peelAll n fuel 0 _ []); [|apply chain_graph|lia..].
  by rewrite Nat.sub_0_r.
Qed.

Lemma chainGroups_member k count i g m :
  chainGroups k count !! i = Some g → m ∈ g → m = chainModule (k + i) ∧ i < count.
Proof.
  unfold chainGroups. rewrite list_lookup_fmap.
  destruct (seq k count !! i) as [j|] eqn:Hj; [|done].
  apply lookup_seq in Hj as [-> Hi]. intros [= <-] Hm.
  by apply list_elem_of_singleton in Hm.
Qed.

End chains.

(** ** Sample stacks *)

Lemma stackDiamond_ordered : inDependencyOrder [] (Modules stackDiamond) = true.
Proof. reflexivity. Qed.

Lemma chain1001_last_omitted : inNoGroup (chainGroups 0 1000) (chainModule 1000).
Proof.
  intros i g Hg Hm. apply (chainGroups_member 0 1000 i g _ Hg) in Hm as [Hm Hi].
  apply chainModule_inj in Hm. lia.
Qed.

(** ** C1: the run plan partitions the modules *)

(** C1, as amended.  For every acyclic stack with distinct module paths whose
    dependencies all resolve, [getModuleRunGraph] returns a plan and a nil
    error; in the plan every module comes strictly after each of its
    prerequisites (in the direction of the command) that is not assumed
    applied; the groups hold modules of the stack, none of them assumed
    applied, and no module more than once; and when the plan has fewer than
    1000 groups, or the stack at most 1000 modules, every module not assumed
    applied is in exactly one group. *)
Theorem getModuleRunGraph_partition stack cmd :
  NoDup (paths (Modules stack)) → resolved (Modules stack) →
  acyclic (Modules stack) →
  ∃ plan,
    (∀ fuel, length (Modules stack) ≤ fuel →
       getModuleRunGraph fuel stack cmd = Some (inr plan))
    ∧ (∀ i g m d, plan !! i = Some g → m ∈ g → d ∈ Modules stack →
         prerequisiteOf (orderFor cmd) m d → AssumeAlreadyApplied d = false →
         placedBefore plan i d)
    ∧ (∀ i g m, plan !! i = Some g → m ∈ g → m ∈ Modules stack)
    ∧ (∀ m, AssumeAlreadyApplied m = true → inNoGroup plan m)
    ∧ NoDup (concat plan)
    ∧ (length plan < maxDepth ∨ length (Modules stack) ≤ maxDepth →
       ∀ m, m ∈ Modules stack → AssumeAlreadyApplied m = false →
         inExactlyOneGroup plan m).
Proof.
  intros Hnd Hres Hac.
  destruct (getModuleRunGraph_returns stack cmd Hres Hac) as [plan Hplan].
  destruct (getModuleRunGraph_loopInv _ stack cmd plan (Hplan _ (le_n _)))
    as (_ & G & Hinv & Hexit).
  exists plan. split_and!; [done| | | | |].
  - intros i g m d. by apply (plan_order stack cmd G).
  - intros i g m Hg Hm. by eapply plan_members.
  - intros m Ha i g Hg Hm.
    destruct (plan_members _ _ _ _ _ _ _ Hinv Hg Hm). congruence.
  - eapply NoDup_fmap_1, inv_nodup, Hinv.
  - intros Hsmall m Hm Ha. destruct Hexit as [Hempty|Hcap].
    + by eapply plan_complete.
    + destruct Hsmall as [Hlen|Hsmall]; [lia|]. by eapply plan_full.
Qed.

Lemma getModuleRunGraph_partition_witness :
  ∃ plan,
    (∀ fuel, length (Modules stackDiamond) ≤ fuel →
       getModuleRunGraph fuel stackDiamond "apply" = Some (inr plan))
    ∧ (∀ i g m d, plan !! i = Some g → m ∈ g → d ∈ Modules stackDiamond →
         prerequisiteOf (orderFor "apply") m d →
         AssumeAlreadyApplied d = false → placedBefore plan i d)
    ∧ (∀ i g m, plan !! i = Some g → m ∈ g → m ∈ Modules stackDiamond)
    ∧ (∀ m, AssumeAlreadyApplied m = true → inNoGroup plan m)
    ∧ NoDup (concat plan)
    ∧ (length plan < maxDepth ∨ length (Modules stackDiamond) ≤ maxDepth →
       ∀ m, m ∈ Modules stackDiamond → AssumeAlreadyApplied m = false →
         inExactlyOneGroup plan m).
Proof.
  destruct (inDependencyOrder_sound _ stackDiamond_ordered) as (Hnd & Hres & Hac).
  exact (getModuleRunGraph_partition stackDiamond "apply" Hnd Hres Hac).
Defined.

(** C1, as stated, fails on the chain of 1001 modules: the stack is acyclic,
    its paths are distinct and its dependencies resolve, the computation
    returns a plan, and the last module, which is not assumed applied, is in
    no group of it. *)
Lemma getModuleRunGraph_partition_counterexample :
  NoDup (paths (Modules (chain 1001))) ∧ resolved (Modules (chain 1001))
  ∧ acyclic (Modules (chain 1001))
  ∧ ∃ plan,
      (∀ fuel, 1001 ≤ fuel →
         getModuleRunGraph fuel (chain 1001) "apply" = Some (inr plan))
      ∧ chainModule 1000 ∈ Modules (chain 1001)
      ∧ AssumeAlreadyApplied (chainModule 1000) = false
      ∧ inNoGroup plan (chainModule 1000)
      ∧ ¬ inExactlyOneGroup plan (chainModule 1000).
Proof.
  destruct (inDependencyOrder_sound _ (chain_ordered 1001)) as (Hnd & Hres & Hac).
  split_and!; [done..|].
  pose proof chain1001_last_omitted as Hno.
  exists (chainGroups 0 1000). split_and!; [|apply chain_member; lia|done|done|].
  - intros fuel Hfuel. by rewrite chain_plan.
  - intros (i & g & Hg & Hm & _). by apply (Hno i g).
Qed.

(** ** C2: the loop on a cyclic graph *)

Lemma stackCycle_graph :
  toRunningModules (Modules stackCycle) NormalOrder = inr cycleGraph.
Proof.
  apply toRunningModules_resolved. intros m d Hm Hd.
  repeat (apply elem_of_cons in Hm as [->|Hm]; [set_solver|]).
  by apply elem_of_nil in Hm.
Qed.

Lemma stackCycle_cyclic : ¬ acyclic (Modules stackCycle).
Proof.
  intros Hac. apply (Hac "X"). apply (tc_l _ "X" "Y" "X"); [|apply tc_once].
  - exists moduleX. split_and!; [by left|done|by left].
  - exists moduleY. split_and!; [by right; left|done|by left].
Qed.

Lemma cycleGraph_stuck :
  loopCond cycleGraph [] = true
  ∧ nextGraph cycleGraph = cycleGraph
  ∧ appendGroup [] (sortByPath (deployed cycleGraph)) = [].
Proof.
  assert (iteration (map_to_list cycleGraph) [] = (cycleGraph, [])) as Hit
    by (vm_compute; reflexivity).
  rewrite (iteration_spec _ cycleGraph) in Hit;
    [|apply graphOf_keyIsPath|done].
  split; [by vm_compute|]. by simplify_eq.
Qed.

Lemma cycleGraph_diverges fuel : groupLoop fuel cycleGraph [] = None.
Proof.
  destruct cycleGraph_stuck as (Hc & Hn & Hg).
  induction fuel as [|fuel IH];
    rewrite groupLoop_unfold by apply graphOf_keyIsPath; rewrite Hc; [done|].
  by rewrite Hn, Hg.
Qed.

(** C2 fails on the code.  On the two modules [X] and [Y] that depend on each
    other, every iteration leaves the graph as it was and appends no group, so
    the number of groups never reaches the cap: whatever number of iterations
    is allowed, [getModuleRunGraph] has not returned, and no choice of
    visiting orders lets it return. *)
Theorem getModuleRunGraph_cycle_diverges :
  ¬ acyclic (Modules stackCycle)
  ∧ (∀ fuel, getModuleRunGraph fuel stackCycle "apply" = None)
  ∧ (∀ result, ¬ computesRunGraph stackCycle "apply" result).
Proof.
  assert (∀ fuel, getModuleRunGraph fuel stackCycle "apply" = None) as Hnone.
  { intros fuel. rewrite getModuleRunGraph_orderFor.
    change (orderFor "apply") with NormalOrder.
    by rewrite stackCycle_graph, cycleGraph_diverges. }
  split_and!; [apply stackCycle_cyclic|done|].
  intros result [fuel Hfuel]%computes_getModuleRunGraph.
  by rewrite Hnone in Hfuel.
Qed.

(** ** C3: modules assumed applied *)

(** C3, as amended.  In every plan that [getModuleRunGraph] returns, no
    module assumed applied is in any group; and, in a stack with distinct
    paths, a module not assumed applied whose only prerequisite is a module
    assumed applied is deployed by the second iteration: it is in the second
    group when some module starts ready, and in the first group when none
    does. *)
Theorem assumeAlreadyApplied_schedule fuel stack cmd plan :
  getModuleRunGraph fuel stack cmd = Some (inr plan) →
  (∀ m, AssumeAlreadyApplied m = true → inNoGroup plan m)
  ∧ ∀ m a,
      NoDup (paths (Modules stack)) →
      m ∈ Modules stack → AssumeAlreadyApplied m = false →
      a ∈ Modules stack → AssumeAlreadyApplied a = true →
      prerequisiteOf (orderFor cmd) m a →
      (∀ d, d ∈ Modules stack → prerequisiteOf (orderFor cmd) m d → d = a) →
      ((∃ c, startsReady (orderFor cmd) (Modules stack) c) →
         ∃ g, plan !! 1 = Some g ∧ m ∈ g)
      ∧ ((∀ c, ¬ startsReady (orderFor cmd) (Modules stack) c) →
         ∃ g, plan !! 0 = Some g ∧ m ∈ g).
Proof.
  intros Hrun. split.
  { intros m Ha i g Hg Hm.
    apply getModuleRunGraph_loopInv in Hrun as (_ & G & Hinv & _).
    destruct (plan_members _ _ _ _ _ _ _ Hinv Hg Hm). congruence. }
  intros m a Hnd Hm Hma Ha Haa Hpre Honly.
  pose proof Hrun as [Hres _]%getModuleRunGraph_loopInv.
  rewrite getModuleRunGraph_orderFor, toRunningModules_resolved in Hrun by done.
  set (order := orderFor cmd) in *. set (modules := Modules stack) in *.
  set (G0 := graphOf order modules) in *.
  destruct (groupLoop fuel G0 []) as [plan'|] eqn:Hloop; [|done].
  injection Hrun as ->.
  destruct (second_iteration_deploys order modules m a) as [Hnot Hdep]; [done..|].
  pose proof (graphOf_lookup_module order modules m Hnd Hm) as Hm0.
  fold G0 in Hm0, Hdep.
  set (gs1 := appendGroup [] (sortByPath (deployed G0))).
  assert (∃ g, plan !! length gs1 = Some g ∧ m ∈ g) as Hplaced.
  { assert (keyIsPath G0) as Hkey0 by apply graphOf_keyIsPath.
    assert (length gs1 ≤ 1) as Hlen1.
    { unfold gs1. destruct (appendGroup_cases [] (sortByPath (deployed G0)))
        as [[_ ->]|[_ ->]]; simpl; lia. }
    rewrite groupLoop_unfold in Hloop by done.
    assert (loopCond G0 [] = true) as Hc0.
    { apply loopCond_true. split; [|unfold maxDepth; simpl; lia].
      assert (size G0 ≠ 0); [|lia]. apply map_size_ne_0_lookup. eauto. }
    rewrite Hc0 in Hloop. destruct fuel as [|fuel]; [done|]. fold gs1 in Hloop.
    rewrite groupLoop_unfold in Hloop by by apply nextGraph_keyIsPath.
    assert (loopCond (nextGraph G0) gs1 = true) as Hc1.
    { apply loopCond_true. split; [|unfold maxDepth; lia].
      assert (size (nextGraph G0) ≠ 0); [|lia]. apply map_size_ne_0_lookup.
      exists (Path m). eexists. apply nextGraph_lookup. eauto. }
    rewrite Hc1 in Hloop. destruct fuel as [|fuel]; [done|].
    apply groupLoop_prefix in Hloop as [rest ->];
      [|by do 2 apply nextGraph_keyIsPath].
    assert (m ∈ sortByPath (deployed (nextGraph G0))) as Hin
      by by apply elem_of_sortByPath.
    destruct (appendGroup_lookup_new gs1 _ m Hin) as [Hnew _].
    eexists. split; [|exact Hin]. by apply lookup_app_l_Some. }
  split.
  - intros [c Hc]. apply deployed_graphOf in Hc; [|done..]. fold G0 in Hc.
    assert (length gs1 = 1) as Hlen; [|by rewrite Hlen in Hplaced].
    unfold gs1. destruct (appendGroup_cases [] (sortByPath (deployed G0)))
      as [[Hnil _]|[_ ->]]; [|done].
    apply elem_of_sortByPath in Hc. rewrite Hnil in Hc. by apply elem_of_nil in Hc.
  - intros Hnone.
    assert (length gs1 = 0) as Hlen; [|by rewrite Hlen in Hplaced].
    unfold gs1. destruct (appendGroup_cases [] (sortByPath (deployed G0)))
      as [[_ ->]|[Hne _]]; [done|].
    destruct (sortByPath (deployed G0)) as [|c l] eqn:Hs; [done|].
    destruct (Hnone c). apply deployed_graphOf; [done..|]. fold G0.
    apply elem_of_sortByPath. rewrite Hs. by left.
Qed.

Lemma stackApplied_plan :
  getModuleRunGraph 3 stackApplied "apply"
  = Some (inr [[moduleDns]; [moduleApp]]).
Proof. vm_compute. reflexivity. Qed.

(** Without [dns] nothing starts ready, and [app] is in the first group. *)
Lemma stackAppliedOnly_plan :
  getModuleRunGraph 2 stackAppliedOnly "apply" = Some (inr [[moduleApp]]).
Proof. vm_compute. reflexivity. Qed.

Lemma assumeAlreadyApplied_schedule_witness :
  ∃ g, [[moduleDns]; [moduleApp]] !! 1 = Some g ∧ moduleApp ∈ g.
Proof.
  refine (proj1 (proj2 (assumeAlreadyApplied_schedule 3 stackApplied "apply"
            [[moduleDns]; [moduleApp]] stackApplied_plan)
            moduleApp moduleVpc _ _ _ _ _ _ _) _).
  - apply (bool_decide_unpack _). vm_compute. exact I.
  - apply (bool_decide_unpack _). vm_compute. exact I.
  - reflexivity.
  - apply (bool_decide_unpack _). vm_compute. exact I.
  - reflexivity.
  - change (orderFor "apply") with NormalOrder. by left.
  - change (orderFor "apply") with NormalOrder. intros d Hd Hpre.
    simpl in Hpre. apply list_elem_of_singleton in Hpre.
    repeat (apply elem_of_cons in Hd as [->|Hd]; [done|]).
    by apply elem_of_nil in Hd.
  - change (orderFor "apply") with NormalOrder.
    exists moduleDns. split_and!; [|reflexivity|].
    + apply (bool_decide_unpack _). vm_compute. exact I.
    + intros d Hd Hpre. simpl in Hpre. by apply elem_of_nil in Hpre.
Defined.

(** C3, as stated, fails on the stack of [vpc] (assumed applied), [app]
    (depending on [vpc] alone) and [dns] (no dependencies): [app] is not in
    the first group but in the second. *)
Lemma assumeAlreadyApplied_first_group_counterexample :
  AssumeAlreadyApplied moduleVpc = true
  ∧ AssumeAlreadyApplied moduleApp = false
  ∧ Dependencies moduleApp = [Path moduleVpc]
  ∧ ∃ plan,
      getModuleRunGraph 3 stackApplied "apply" = Some (inr plan)
      ∧ ¬ (∃ g, plan !! 0 = Some g ∧ moduleApp ∈ g).
Proof.
  split_and!; [done..|]. eexists. split; [apply stackApplied_plan|].
  intros (g & [= <-] & Hin). apply list_elem_of_singleton in Hin. done.
Qed.

(** ** C4: determinism *)

(** C4.  Whatever orders the passes visit the map in, two computations of the
    run plan for the same stack and command return the same result, and every
    group of a returned plan is in ascending order of module path. *)
Theorem getModuleRunGraph_deterministic stack cmd result1 result2 :
  computesRunGraph stack cmd result1 → computesRunGraph stack cmd result2 →
  result1 = result2
  ∧ ∀ plan, result1 = inr plan → Forall sortedByPath plan.
Proof.
  intros H1 H2. split.
  - rewrite computesRunGraph_orderFor in H1, H2.
    destruct (toRunningModules _ _) as [e|G] eqn:Hbuild; [congruence|].
    destruct H1 as (plan1 & -> & Hrun1), H2 as (plan2 & -> & Hrun2).
    apply toRunningModules_inr in Hbuild as [_ ->].
    f_equal. eapply runsTo_deterministic; eauto using graphOf_keyIsPath.
  - intros plan ->. apply computes_getModuleRunGraph in H1 as [fuel Hfuel].
    apply getModuleRunGraph_loopInv in Hfuel as (_ & G & Hinv & _).
    by destruct Hinv.
Qed.

(** The diamond, computed once with the map visited in its own order and once
    with every pass visiting it in the reverse order. *)
Lemma stackDiamond_computes :
  computesRunGraph stackDiamond "apply"
    (inr [[moduleA]; [moduleB; moduleC]; [moduleD]]).
Proof. apply (getModuleRunGraph_computes 4). vm_compute. reflexivity. Defined.

Lemma stackDiamond_computes_reversed :
  computesRunGraph stackDiamond "apply"
    (inr [[moduleA]; [moduleB; moduleC]; [moduleD]]).
Proof.
  apply computesRunGraph_orderFor.
  rewrite toRunningModules_resolved
    by apply (inDependencyOrder_sound _ stackDiamond_ordered).
  eexists. split; [reflexivity|].
  eapply (runs_iter _ _ (reverse (map_to_list _)));
    [vm_compute; reflexivity|apply reverse_Permutation
    |vm_compute; reflexivity|].
  eapply (runs_iter _ _ (reverse (map_to_list _)));
    [vm_compute; reflexivity|apply reverse_Permutation
    |vm_compute; reflexivity|].
  eapply (runs_iter _ _ (reverse (map_to_list _)));
    [vm_compute; reflexivity|apply reverse_Permutation
    |vm_compute; reflexivity|].
  apply runs_exit. vm_compute. reflexivity.
Defined.

Lemma getModuleRunGraph_deterministic_witness :
  (inr [[moduleA]; [moduleB; moduleC]; [moduleD]]
     : error + list (list TerraformModule))
  = inr [[moduleA]; [moduleB; moduleC]; [moduleD]]
  ∧ ∀ plan,
      (inr [[moduleA]; [moduleB; moduleC]; [moduleD]]
         : error + list (list TerraformModule)) = inr plan →
      Forall sortedByPath plan.
Proof.
  exact (getModuleRunGraph_deterministic stackDiamond "apply" _ _
           stackDiamond_computes stackDiamond_computes_reversed).
Defined.

(** ** C5: the direction of scheduling *)

(** C5.  The graph is built in reverse order exactly for the destroy command
    and in normal order for every other command; for [A] without
    dependencies and [B] depending on [A] the forward plan is [[A], [B]] and
    the plan for destroy is [[B], [A]]; for the diamond the two plans are
    [[A], [B, C], [D]] and [[D], [B, C], [A]]. *)
Theorem getModuleRunGraph_direction :
  (∀ fuel stack cmd,
     getModuleRunGraph fuel stack cmd =
       match toRunningModules (Modules stack)
               (if decide (cmd = "destroy") then ReverseOrder else NormalOrder)
       with
       | inl graphErr => Some (inl graphErr)
       | inr G => inr <$> groupLoop fuel G []
       end)
  ∧ (∀ fuel, 2 ≤ fuel →
       getModuleRunGraph fuel stackAB "apply"
       = Some (inr [[moduleA]; [moduleB]]))
  ∧ (∀ fuel, 2 ≤ fuel →
       getModuleRunGraph fuel stackAB "destroy"
       = Some (inr [[moduleB]; [moduleA]]))
  ∧ getModuleRunGraph 3 stackDiamond "apply"
    = Some (inr [[moduleA]; [moduleB; moduleC]; [moduleD]])
  ∧ getModuleRunGraph 3 stackDiamond "destroy"
    = Some (inr [[moduleD]; [moduleB; moduleC]; [moduleA]]).
Proof.
  split_and!; [| | |vm_compute; reflexivity..].
  - intros fuel stack cmd. apply getModuleRunGraph_orderFor.
  - intros fuel Hfuel.
    apply (getModuleRunGraph_fuel_mono 2); [|done]. vm_compute. reflexivity.
  - intros fuel Hfuel.
    apply (getModuleRunGraph_fuel_mono 2); [|done]. vm_compute. reflexivity.
Qed.

(** ** The cycle check *)

Section dfs.

Variable modules : list TerraformModule.
Hypothesis modules_NoDup : NoDup (paths modules).

Implicit Types (finished inProgress : list string) (p d : string).

Lemma findModule_Some m :
  m ∈ modules → findModule modules (Path m) = Some m.
Proof.
  unfold findModule. intros Hm.
  destruct (filter _ modules) as [|m' l] eqn:Hf.
  - assert (m ∈ filter (λ m0, Path m0 = Path m) modules) as Hin
      by by apply list_elem_of_filter.
    rewrite Hf in Hin. by apply elem_of_nil in Hin.
  - simpl. f_equal.
    assert (m' ∈ filter (λ m0, Path m0 = Path m) modules) as Hin
      by (rewrite Hf; by left).
    apply list_elem_of_filter in Hin as [Hp Hin].
    by apply (NoDup_paths_inj modules).
Qed.

Lemma dependsOn_declared p d : dependsOn modules p d ↔ d ∈ declared modules p.
Proof.
  unfold declared. split.
  - intros (m & Hm & <- & Hd). by rewrite findModule_Some.
  - destruct (findModule modules p) as [m|] eqn:Hf; [|by intros ?%elem_of_nil].
    intros Hd. unfold findModule in Hf. apply head_Some_elem_of in Hf.
    apply list_elem_of_filter in Hf as [Hp Hm]. by exists m.
Qed.

Lemma settled_reach finished p q :
  settled modules finished → p ∈ finished → tc (dependsOn modules) p q → q ∈ finished.
Proof.
  intros [Hclosed _] Hp Hpq. induction Hpq as [p q Hpq|p d q Hpd _ IH]; eauto.
Qed.

Lemma settled_snoc finished p :
  settled modules finished → (∀ d, d ∈ declared modules p → d ∈ finished) →
  settled modules (finished ++ [p]).
Proof.
  intros Hs Hdeps. pose proof Hs as [Hclosed Hacyc]. split.
  - intros q d [Hq|Hq]%elem_of_app Hqd;
      apply elem_of_app; left; [by eapply Hclosed|].
    apply list_elem_of_singleton in Hq as ->.
    by apply Hdeps, dependsOn_declared.
  - intros q [Hq|Hq]%elem_of_app; [by apply Hacyc|].
    apply list_elem_of_singleton in Hq as ->.
    destruct (decide (p ∈ finished)) as [Hin|Hout]; [by apply Hacyc|].
    intros Hcyc. apply Hout. inversion Hcyc as [? ? Hpd|? d ? Hpd Hdp]; subst.
    + by apply Hdeps, dependsOn_declared.
    + apply (settled_reach finished d); [done| |done].
      by apply Hdeps, dependsOn_declared.
Qed.

Lemma visitEach_settled visit finished todo finished' :
  (∀ fin p fin', settled modules fin → visit fin p = Some (inr fin') →
     settled modules fin' ∧ p ∈ fin' ∧ fin ⊆ fin') →
  settled modules finished →
  visitEach visit finished todo = Some (inr finished') →
  settled modules finished' ∧ (∀ p, p ∈ todo → p ∈ finished')
  ∧ finished ⊆ finished'.
Proof.
  intros Hvisit. revert finished. induction todo as [|p todo IH];
    intros finished Hs; simpl.
  { intros [= <-]. split_and!; [done| |done]. by intros p ?%elem_of_nil. }
  destruct (visit finished p) as [[err|fin1]|] eqn:Hp; [done| |done].
  intros Hrest. destruct (Hvisit _ _ _ Hs Hp) as (Hs1 & Hp1 & Hsub1).
  destruct (IH _ Hs1 Hrest) as (Hs' & Htodo & Hsub).
  split_and!; [done| |set_solver].
  intros q [->|Hq]%elem_of_cons; [set_solver|by apply Htodo].
Qed.

Lemma visitModule_settled fuel inProgress finished p finished' :
  settled modules finished →
  visitModule fuel modules inProgress finished p = Some (inr finished') →
  settled modules finished' ∧ p ∈ finished' ∧ finished ⊆ finished'.
Proof.
  revert inProgress finished p finished'.
  induction fuel as [|fuel IH]; intros inProgress finished p finished' Hs;
    [done|]. simpl.
  destruct (decide (p ∈ finished)) as [Hin|Hout]; [by intros [= <-]|].
  destruct (decide (p ∈ inProgress)); [done|].
  destruct (visitEach _ _ _) as [[err|fin1]|] eqn:Hdeps; [done| |done].
  intros [= <-].
  apply visitEach_settled in Hdeps as (Hs1 & Hall & Hsub); [|by eauto|done].
  split_and!; [by apply settled_snoc|set_solver|set_solver].
Qed.

(** A traversal that reports no cycle has finished every module, and the
    declared dependencies are acyclic. *)
Lemma CheckForCycles_sound fuel :
  CheckForCycles fuel modules = Some None → acyclic modules.
Proof.
  unfold CheckForCycles.
  destruct (visitEach _ _ _) as [[err|fin]|] eqn:Hrun; [done| |done].
  intros _. apply visitEach_settled in Hrun as ([_ Hacyc] & Hall & _).
  - intros p Hcyc. apply (Hacyc p); [|done]. apply Hall.
    assert (∃ d, dependsOn modules p d) as [d (m & Hm & <- & _)].
    { inversion Hcyc; eauto. }
    by apply list_elem_of_fmap_2.
  - intros fin0 p fin'. apply visitModule_settled.
  - split; [intros p d|intros p]; by intros ?%elem_of_nil.
Qed.

End dfs.

Section dfs_returns.

Variable modules : list TerraformModule.

Implicit Types (finished inProgress : list string) (p d : string).

Lemma declared_nil p : p ∉ paths modules → declared modules p = [].
Proof.
  intros Hp. unfold declared, findModule.
  destruct (filter _ modules) as [|m l] eqn:Hf; [done|]. destruct Hp.
  assert (m ∈ filter (λ m0, Path m0 = p) modules) as Hin by (rewrite Hf; by left).
  apply list_elem_of_filter in Hin as [<- Hin]. by apply list_elem_of_fmap_2.
Qed.

Lemma visitEach_returns visit finished todo :
  (∀ fin p, is_Some (visit fin p)) → is_Some (visitEach visit finished todo).
Proof.
  intros Hvisit. revert finished. induction todo as [|p todo IH];
    intros finished; simpl; [done|].
  destruct (Hvisit finished p) as [[err|fin1] ->]; [done|apply IH].
Qed.

(** The traversal is never deeper than the number of modules off it. *)
Lemma visitModule_returns fuel inProgress finished p :
  size (offTraversal modules inProgress) < fuel →
  is_Some (visitModule fuel modules inProgress finished p).
Proof.
  revert inProgress finished p.
  induction fuel as [|fuel IH]; intros inProgress finished p Hfuel; [lia|].
  simpl. destruct (decide (p ∈ finished)); [done|].
  destruct (decide (p ∈ inProgress)) as [|Hout]; [done|].
  destruct (decide (p ∈ paths modules)) as [Hin|Hnot].
  - destruct (visitEach_returns
                (visitModule fuel modules (inProgress ++ [p])) finished
                (declared modules p)) as [[err|fin1] ->]; [|done..].
    intros fin d. apply IH.
    assert (offTraversal modules (inProgress ++ [p]) ⊂ offTraversal modules inProgress);
      [|by apply subset_size in H; lia].
    unfold offTraversal. rewrite list_to_set_app_L. simpl.
    assert (p ∈ (list_to_set (paths modules) : gset string)) by set_solver.
    assert (p ∉ (list_to_set inProgress : gset string)) by set_solver.
    set_solver.
  - by rewrite declared_nil.
Qed.

Lemma size_list_to_set_le (l : list string) :
  size (list_to_set l : gset string) ≤ length l.
Proof.
  induction l as [|q l IH]; [done|].
  rewrite list_to_set_cons, size_union_alt, size_singleton. simpl.
  assert (size (list_to_set l ∖ {[q]} : gset string)
          ≤ size (list_to_set l : gset string))
    by (apply subseteq_size; set_solver).
  lia.
Qed.

Lemma CheckForCycles_returns fuel :
  length modules < fuel → is_Some (CheckForCycles fuel modules).
Proof.
  intros Hfuel. unfold CheckForCycles.
  destruct (visitEach_returns (visitModule fuel modules []) [] (paths modules))
    as [[err|fin] ->]; [|done..].
  intros fin p. apply visitModule_returns.
  assert (size (offTraversal modules []) ≤ length (paths modules)) as Hsize.
  { etransitivity; [|apply size_list_to_set_le].
    apply subseteq_size. unfold offTraversal. set_solver. }
  unfold paths in Hsize. rewrite length_fmap in Hsize. lia.
Qed.

End dfs_returns.

(** ** The plan-error summary *)

Section summary.

Implicit Types (stack : Stack) (m : TerraformModule) (output : string).

Lemma prefix_spec (s1 s2 : string) :
  String.prefix s1 s2 = true ↔ ∃ rest, s2 = s1 +:+ rest.
Proof.
  revert s2. induction s1 as [|c s1 IH]; intros [|c2 s2]; simpl.
  - split; [by exists ""|done].
  - split; [by eexists|done].
  - split; [done|]. by intros [? ?].
  - destruct (Ascii.ascii_dec c c2) as [->|Hne].
    + rewrite IH. split; intros [rest Hrest]; exists rest.
      * subst s2. reflexivity.
      * injection Hrest as ->. reflexivity.
    + split; [done|]. intros [rest [= ? ?]]. done.
Qed.

Lemma Contains_empty (substr : string) :
  Contains "" substr = String.prefix substr "".
Proof. simpl. by rewrite orb_false_r. Qed.

Lemma Contains_String c (s substr : string) :
  Contains (String c s) substr
  = String.prefix substr (String c s) || Contains s substr.
Proof. reflexivity. Qed.

(** [Contains] finds exactly the substrings. *)
Lemma Contains_spec (s substr : string) :
  Contains s substr = true ↔ ∃ before after, s = before +:+ substr +:+ after.
Proof.
  induction s as [|c s IH].
  - rewrite Contains_empty, prefix_spec. split.
    + intros [rest Hrest]. by exists "", rest.
    + intros ([|??] & after & Heq); [by exists after|done].
  - rewrite Contains_String, orb_true_iff, prefix_spec, IH. split.
    + intros [[rest Hrest]|(before & after & ->)].
      * by exists "", rest.
      * by exists (String c before), after.
    + intros ([|c' before] & after & Heq).
      * left. by exists after.
      * right. injection Heq as -> ->. by exists before, after.
Qed.

Lemma length_0_empty output : String.length output = 0 ↔ output = "".
Proof. by destruct output. Qed.

Lemma summarizeStream_spec stack i m output :
  Modules stack !! i = Some m →
  summarizeStream stack i output = Some (entriesFor m output).
Proof.
  intros Hm. unfold summarizeStream, entriesFor.
  destruct (decide (String.length output = 0)) as [He|Hne].
  - by rewrite decide_True by by apply length_0_empty.
  - rewrite decide_False by by rewrite <-length_0_empty.
    rewrite Hm. by destruct (Contains _ planErrorSignature), (Contains _ remoteStateSignature).
Qed.

Lemma summarizeFrom_spec stack errorStreams k :
  k + length errorStreams ≤ length (Modules stack) →
  ∃ logs, summarizeFrom stack k errorStreams = Some logs
    ∧ length logs = length errorStreams
    ∧ ∀ i output, errorStreams !! i = Some output →
        ∃ m, Modules stack !! (k + i) = Some m
             ∧ logs !! i = Some (entriesFor m output).
Proof.
  revert k. induction errorStreams as [|output rest IH]; intros k Hlen; simpl in *.
  { exists []. split_and!; [done..|]. by intros i output ?. }
  destruct (lookup_lt_is_Some_2 (Modules stack) k) as [m Hm]; [lia|].
  rewrite (summarizeStream_spec stack k m) by done.
  destruct (IH (S k)) as (logs & -> & Hlogs & Hall); [lia|].
  eexists. split_and!; [done|simpl; lia|].
  intros [|i] out Hout; simpl in *.
  - injection Hout as <-. exists m. by rewrite Nat.add_0_r.
  - destruct (Hall i out Hout) as (m' & Hm' & Hl). exists m'.
    by rewrite <-Nat.add_succ_comm.
Qed.

Lemma entriesFor_hint m output message :
  Infof message ∈ entriesFor m output ↔
    message = remoteStateHint m ∧ output ≠ ""
    ∧ Contains output planErrorSignature = true
    ∧ Contains output remoteStateSignature = true.
Proof.
  unfold entriesFor. destruct (decide (output = "")) as [->|Hne].
  { rewrite elem_of_nil. naive_solver. }
  destruct (Contains output planErrorSignature),
    (Contains output remoteStateSignature); simpl;
    rewrite ?elem_of_cons, ?elem_of_nil; naive_solver.
Qed.

End summary.

(** ** The JSON object of the report *)

Section json_object.

Context {A : Type}.
Implicit Types (member : string * A) (l : list (string * A)).

Lemma insertMember_Permutation member l : insertMember member l ≡ₚ member :: l.
Proof.
  induction l as [|x l IH]; simpl; [done|].
  destruct (String.ltb member.1 x.1); [done|]. rewrite IH. apply Permutation_swap.
Qed.

Lemma insertMember_sorted member l :
  StronglySorted (λ a b, String.ltb b.1 a.1 = false) l →
  StronglySorted (λ a b, String.ltb b.1 a.1 = false) (insertMember member l).
Proof.
  induction 1 as [|x l Hl IH Hx]; simpl.
  { repeat constructor. }
  destruct (String.ltb member.1 x.1) eqn:Hmx.
  - constructor; [by constructor|]. constructor; [by apply ltb_asym|].
    eapply Forall_impl; [exact Hx|]. intros y Hy. simpl in *.
    destruct (String.ltb y.1 member.1) eqn:Hym; [|done].
    by rewrite (ltb_trans _ _ _ Hym Hmx) in Hy.
  - constructor; [done|]. rewrite insertMember_Permutation. by constructor.
Qed.

(** The members that are written are the entries of the map, each once, in
    ascending bytewise order of their keys. *)
Lemma marshalMap_Permutation (m : gmap string A) : marshalMap m ≡ₚ map_to_list m.
Proof.
  unfold marshalMap. induction (map_to_list m) as [|x l IH] using rev_ind; [done|].
  rewrite foldl_app. simpl. rewrite insertMember_Permutation, IH.
  by rewrite Permutation_app_comm.
Qed.

Lemma marshalMap_sorted (m : gmap string A) :
  StronglySorted (λ a b, String.ltb a.1 b.1 = true) (marshalMap m).
Proof.
  assert (StronglySorted (λ a b, String.ltb b.1 a.1 = false) (marshalMap m)) as Hs.
  { unfold marshalMap.
    induction (map_to_list m) as [|x l IH] using rev_ind; [constructor|].
    rewrite foldl_app. simpl. by apply insertMember_sorted. }
  assert (NoDup (marshalMap m).*1) as Hnd.
  { rewrite marshalMap_Permutation. apply NoDup_fst_map_to_list. }
  induction Hs as [|x l Hl IH Hx]; [constructor|].
  simpl in Hnd. apply NoDup_cons in Hnd as [Hxl Hnd].
  constructor; [by apply IH|].
  rewrite Forall_forall in Hx |- *. intros y Hy. specialize (Hx y Hy).
  destruct (String.ltb x.1 y.1) eqn:Hxy; [done|].
  destruct Hxl. rewrite (ltb_total _ _ Hxy Hx). by apply list_elem_of_fmap_2.
Qed.

End json_object.

Section json_graph.

Implicit Types (groups : list (list TerraformModule)).

Lemma groupNum_inj i j : groupNum i = groupNum j → i = j.
Proof.
  unfold groupNum, sprintfD. intros H. simplify_eq/=. lia.
Qed.

Lemma fillJsonGraph_snoc groups g :
  fillJsonGraph (groups ++ [g])
  = <[groupNum (length groups) := Path <$> g]> (fillJsonGraph groups).
Proof.
  unfold fillJsonGraph. rewrite imap_app, foldl_app. simpl.
  by rewrite Nat.add_0_r.
Qed.

(** Every group is filed under its label, with the paths of its modules in
    the order of the group. *)
Lemma fillJsonGraph_lookup groups i g :
  groups !! i = Some g → fillJsonGraph groups !! groupNum i = Some (Path <$> g).
Proof.
  induction groups as [|g0 groups IH] using rev_ind; [done|].
  rewrite fillJsonGraph_snoc. intros [[Hi Hg]|[-> ->]]%lookup_snoc_Some.
  - rewrite lookup_insert_ne; [by apply IH|].
    intros ?%groupNum_inj. lia.
  - by rewrite lookup_insert_eq.
Qed.

End json_graph.

(** ** C6: the order of the members of the JSON report *)

(** C6 fails on the code.  For the chain of ten modules the report has the
    member of the tenth group right after the member of the first: the keys
    of the map are written in bytewise order, and the label of group 10
    sorts before the label of group 2. *)
Theorem JsonModuleDeployOrder_ten_groups :
  (∀ fuel, 10 ≤ fuel →
     JsonModuleDeployOrder fuel (chain 10) "apply"
     = Some (inr [("Group 1", ["m0"]); ("Group 10", ["m9"]);
                  ("Group 2", ["m1"]); ("Group 3", ["m2"]);
                  ("Group 4", ["m3"]); ("Group 5", ["m4"]);
                  ("Group 6", ["m5"]); ("Group 7", ["m6"]);
                  ("Group 8", ["m7"]); ("Group 9", ["m8"])]))
  ∧ String.ltb (groupNum 9) (groupNum 1) = true.
Proof.
  split; [|vm_compute; reflexivity].
  intros fuel Hfuel. unfold JsonModuleDeployOrder.
  rewrite chain_plan by done. vm_compute. reflexivity.
Qed.

(** ** C7: stack construction *)

Section construction_facts.

Variable ResolveTerraformModules : list string → error + list TerraformModule.

Lemma Cause_WithStackTrace err : Cause (WithStackTrace err) = Cause err.
Proof. by destruct err. Qed.

(** C7, as amended.  Stack construction returns the sentinel
    [NoTerraformModulesFound] (under its stack trace) when no configuration
    path was found; it returns the error of the cycle check, and no stack,
    when the check finds a cycle; a stack that it returns comes from a
    non-empty list of configuration paths, holds the modules resolved from
    them, passed the cycle check, and, its paths being distinct, has an
    acyclic dependency relation; and it returns once the traversal may be as
    deep as the stack has modules. *)
Theorem createStack_validates fuel path configPaths :
  (configPaths = [] →
     ∃ err, createStackForTerragruntConfigPaths ResolveTerraformModules
              fuel path configPaths = Some (inl err)
            ∧ Cause err = NoTerraformModulesFound)
  ∧ (∀ modules err,
       configPaths ≠ [] →
       ResolveTerraformModules configPaths = inr modules →
       CheckForCycles fuel modules = Some (Some err) →
       ∃ err', createStackForTerragruntConfigPaths ResolveTerraformModules
                 fuel path configPaths = Some (inl err')
               ∧ Cause err' = Cause err)
  ∧ (∀ stack,
       createStackForTerragruntConfigPaths ResolveTerraformModules
         fuel path configPaths = Some (inr stack) →
       configPaths ≠ []
       ∧ ResolveTerraformModules configPaths = inr (Modules stack)
       ∧ CheckForCycles fuel (Modules stack) = Some None
       ∧ (NoDup (paths (Modules stack)) → acyclic (Modules stack)))
  ∧ (∀ modules,
       ResolveTerraformModules configPaths = inr modules →
       length modules < fuel →
       is_Some (createStackForTerragruntConfigPaths ResolveTerraformModules
                  fuel path configPaths)).
Proof.
  unfold createStackForTerragruntConfigPaths, Telemetry. split_and!.
  - intros ->. simpl. eexists. split; [done|]. done.
  - intros modules err Hne Hres Hcheck.
    rewrite decide_False by (by destruct configPaths).
    rewrite Hres. simpl. rewrite Hcheck. eexists. split; [done|].
    by rewrite !Cause_WithStackTrace.
  - intros stack. case_decide as Hlen; [done|].
    destruct (ResolveTerraformModules configPaths) as [err|modules]; [done|].
    simpl. destruct (CheckForCycles fuel modules) as [[err|]|] eqn:Hcheck;
      [done| |done].
    intros [= <-]. simpl. split_and!; [by intros ->|done..|].
    intros Hnd. by eapply CheckForCycles_sound.
  - intros modules Hres Hfuel. case_decide; [done|]. rewrite Hres. simpl.
    destruct (CheckForCycles_returns modules fuel Hfuel) as [[err|] ->]; done.
Qed.

End construction_facts.

Lemma createStack_diamond :
  createStackForTerragruntConfigPaths resolveDiamond 5 "/stack" ["/stack/A"]
  = Some (inr stackDiamond).
Proof. vm_compute. reflexivity. Qed.

Lemma createStack_validates_witness :
  ["/stack/A"] ≠ []
  ∧ resolveDiamond ["/stack/A"] = inr (Modules stackDiamond)
  ∧ CheckForCycles 5 (Modules stackDiamond) = Some None
  ∧ (NoDup (paths (Modules stackDiamond)) → acyclic (Modules stackDiamond)).
Proof.
  exact (proj1 (proj2 (proj2
           (createStack_validates resolveDiamond 5 "/stack" ["/stack/A"])))
           stackDiamond createStack_diamond).
Defined.

Lemma stackShadowed_cyclic : ¬ acyclic (Modules stackShadowed).
Proof.
  intros Hac. apply (Hac "X"). apply (tc_l _ "X" "Y" "X"); [|apply tc_once].
  - exists moduleX. split_and!; [by right; right; left|done|by left].
  - exists moduleY. split_and!; [by right; left|done|by left].
Qed.

(** C7, as stated, fails on the code.  Construction tests the list of
    configuration paths, not the modules resolved from them: when resolution
    finds no module under the paths, a stack without modules is returned.
    And the check looks modules up by path: of two modules under one path it
    follows the first, so a stack is returned whose declared dependencies
    close a cycle through the second. *)
Lemma createStack_validates_counterexample :
  createStackForTerragruntConfigPaths resolveNone 1 "/stack" ["/stack/A"]
  = Some (inr (mkStack "/stack" []))
  ∧ createStackForTerragruntConfigPaths resolveShadowed 4 "/stack"
      ["/stack/X"; "/stack/Y"]
    = Some (inr stackShadowed)
  ∧ ¬ acyclic (Modules stackShadowed).
Proof.
  split_and!; [vm_compute; reflexivity..|apply stackShadowed_cyclic].
Qed.

(** ** C8: the remote-state hint *)

Section hint.

Variable TERRAFORM_COMMANDS_NEED_INPUT : list string.
Variable StringListInsert : list string → string → nat → list string.
Variable RunModulesIgnoreOrder : TerragruntOptions → list TerraformModule → nat → runOutcome.
Variable RunModulesReverseOrder : TerragruntOptions → list TerraformModule → nat → runOutcome.
Variable RunModules : TerragruntOptions → list TerraformModule → nat → runOutcome.

(** C8.  With one error stream per module, the summary logs for the stream of
    a module the hint for that module exactly when the stream is not empty
    and contains both signatures, and no other hint.  [Run] returns the error
    of the engine it started, whatever the streams hold; after a plan run its
    log is the summary of what the run of each module wrote to its error
    stream, so the hint for a module is logged exactly when the output of
    that module is not empty and contains both signatures; for any other
    command nothing is logged. *)
Theorem summarizePlanAllErrors_hint stack errorStreams :
  length errorStreams = length (Modules stack) →
  (∃ logs,
     summarizePlanAllErrors stack errorStreams = Some (concat logs)
     ∧ length logs = length errorStreams
     ∧ ∀ i m output,
         Modules stack !! i = Some m → errorStreams !! i = Some output →
         ∃ entries,
           logs !! i = Some entries
           ∧ (Infof (remoteStateHint m) ∈ entries ↔
                output ≠ ""
                ∧ Contains output planErrorSignature = true
                ∧ Contains output remoteStateSignature = true)
           ∧ (∀ message, Infof message ∈ entries →
                message = remoteStateHint m))
  ∧ (∀ terragruntOptions,
       let result :=
         Run TERRAFORM_COMMANDS_NEED_INPUT StringListInsert
           RunModulesIgnoreOrder RunModulesReverseOrder RunModules
           stack terragruntOptions in
       let outcome :=
         runEngine RunModulesIgnoreOrder RunModulesReverseOrder
           RunModules stack (TerraformCommand terragruntOptions)
           (prepareOptions TERRAFORM_COMMANDS_NEED_INPUT
              StringListInsert terragruntOptions) in
       returned result = runError outcome
       ∧ is_Some (summaryLog result)
       ∧ (TerraformCommand terragruntOptions ≠ CommandNamePlan →
          summaryLog result = Some [])
       ∧ (TerraformCommand terragruntOptions = CommandNamePlan →
          summaryLog result
          = summarizePlanAllErrors stack
              (errorWritten outcome <$> seq 0 (length (Modules stack)))
          ∧ ∃ logs,
              summaryLog result = Some (concat logs)
              ∧ length logs = length (Modules stack)
              ∧ ∀ i m,
                  Modules stack !! i = Some m →
                  ∃ entries,
                    logs !! i = Some entries
                    ∧ (Infof (remoteStateHint m) ∈ entries ↔
                         errorWritten outcome i ≠ ""
                         ∧ Contains (errorWritten outcome i)
                             planErrorSignature = true
                         ∧ Contains (errorWritten outcome i)
                             remoteStateSignature = true)
                    ∧ (∀ message, Infof message ∈ entries →
                         message = remoteStateHint m))).
Proof.
  assert (∀ streams, length streams = length (Modules stack) →
            ∃ logs,
              summarizePlanAllErrors stack streams = Some (concat logs)
              ∧ length logs = length streams
              ∧ ∀ i m output,
                  Modules stack !! i = Some m → streams !! i = Some output →
                  ∃ entries,
                    logs !! i = Some entries
                    ∧ (Infof (remoteStateHint m) ∈ entries ↔
                         output ≠ ""
                         ∧ Contains output planErrorSignature = true
                         ∧ Contains output remoteStateSignature = true)
                    ∧ (∀ message, Infof message ∈ entries →
                         message = remoteStateHint m)) as Hsummary.
  { intros streams Hlen.
    destruct (summarizeFrom_spec stack streams 0)
      as (logs & Hlogs & Hl & Hall); [simpl; lia|].
    exists logs. unfold summarizePlanAllErrors. rewrite Hlogs.
    split_and!; [done..|]. intros i m output Hm Hout.
    destruct (Hall i output Hout) as (m' & Hm' & Hentries).
    simpl in Hm'. simplify_eq. eexists. split; [done|]. split.
    + rewrite entriesFor_hint. naive_solver.
    + intros message Hin. by apply entriesFor_hint in Hin as [-> _]. }
  intros Hlen. split; [by apply Hsummary|].
  intros o result outcome.
  destruct (Hsummary (errorWritten outcome <$> seq 0 (length (Modules stack))))
    as (logs & Hlogs & Hl & Hall); [by rewrite length_fmap, length_seq|].
  rewrite length_fmap, length_seq in Hl.
  assert (TerraformCommand o = CommandNamePlan →
          summaryLog result
          = summarizePlanAllErrors stack
              (errorWritten outcome <$> seq 0 (length (Modules stack))))
    as Hplan.
  { intros Hcmd. unfold result, Run. simpl. by rewrite decide_True. }
  assert (TerraformCommand o ≠ CommandNamePlan → summaryLog result = Some [])
    as Hother.
  { intros Hcmd. unfold result, Run. simpl. by rewrite decide_False. }
  split_and!; [done| |done|].
  - destruct (decide (TerraformCommand o = CommandNamePlan)) as [Hcmd|Hcmd].
    + by rewrite (Hplan Hcmd), Hlogs.
    + by rewrite (Hother Hcmd).
  - intros Hcmd. split; [by apply Hplan|].
    exists logs. rewrite (Hplan Hcmd). split_and!; [done..|].
    intros i m Hm. apply (Hall i m (errorWritten outcome i) Hm).
    rewrite list_lookup_fmap, lookup_seq_lt; [done|].
    by eapply lookup_lt_Some.
Qed.

End hint.

(** The stream of [A] is empty and the stream of [B] holds the failure: the
    output of [B] is logged, followed by the hint for [B]. *)
Lemma stackAB_summary :
  summarizePlanAllErrors stackAB [""; remoteStateFailure]
  = Some [Infoln remoteStateFailure; Infof (remoteStateHint moduleB)].
Proof. vm_compute. reflexivity. Qed.

Lemma summarizePlanAllErrors_hint_witness :
  (∃ logs,
     summarizePlanAllErrors stackAB [""; remoteStateFailure] = Some (concat logs)
     ∧ length logs = 2
     ∧ ∀ i m output,
         Modules stackAB !! i = Some m →
         [""; remoteStateFailure] !! i = Some output →
         ∃ entries,
           logs !! i = Some entries
           ∧ (Infof (remoteStateHint m) ∈ entries ↔
                output ≠ ""
                ∧ Contains output planErrorSignature = true
                ∧ Contains output remoteStateSignature = true)
           ∧ (∀ message, Infof message ∈ entries →
                message = remoteStateHint m))
  ∧ ∃ logs,
      summaryLog
        (Run sampleNeedInput sampleInsert
           (sampleEngine "ignore" remoteStateFailure)
           (sampleEngine "reverse" remoteStateFailure)
           (sampleEngine "normal" remoteStateFailure) stackAB planInOrder)
      = Some (concat logs)
      ∧ length logs = 2
      ∧ ∀ i m,
          Modules stackAB !! i = Some m →
          ∃ entries,
            logs !! i = Some entries
            ∧ (Infof (remoteStateHint m) ∈ entries ↔
                 remoteStateFailure ≠ ""
                 ∧ Contains remoteStateFailure planErrorSignature = true
                 ∧ Contains remoteStateFailure remoteStateSignature = true)
            ∧ (∀ message, Infof message ∈ entries →
                 message = remoteStateHint m).
Proof.
  split.
  - exact (proj1 (summarizePlanAllErrors_hint sampleNeedInput sampleInsert
                    (sampleEngine "ignore" remoteStateFailure)
                    (sampleEngine "reverse" remoteStateFailure)
                    (sampleEngine "normal" remoteStateFailure) stackAB
                    [""; remoteStateFailure] eq_refl)).
  - exact (proj2
             (proj2 (proj2 (proj2
                (proj2 (summarizePlanAllErrors_hint sampleNeedInput
                          sampleInsert
                          (sampleEngine "ignore" remoteStateFailure)
                          (sampleEngine "reverse" remoteStateFailure)
                          (sampleEngine "normal" remoteStateFailure) stackAB
                          [""; remoteStateFailure] eq_refl)
                   planInOrder)))
                eq_refl)).
Defined.

(** ** C9: the cap on an acyclic stack *)

Lemma stackAB_graph :
  toRunningModules (Modules stackAB) (orderFor "apply")
  = inr (graphOf NormalOrder (Modules stackAB)).
Proof. reflexivity. Qed.

Lemma stackAB_peelAll :
  peelAll 2 (graphOf NormalOrder (Modules stackAB)) []
  = Some [[moduleA]; [moduleB]].
Proof. vm_compute. reflexivity. Qed.

(** C9.  [getModuleRunGraph] returns, with a nil error, the first 1000 groups
    of the complete peeling of the graph.  The chain of 1001 modules is
    acyclic and peels into 1001 groups; [getModuleRunGraph] returns its first
    1000 groups with a nil error, and the last module, which is not assumed
    applied, is in no group of the plan. *)
Theorem getModuleRunGraph_truncates :
  (∀ fuel stack cmd G full,
     toRunningModules (Modules stack) (orderFor cmd) = inr G →
     peelAll fuel G [] = Some full →
     getModuleRunGraph fuel stack cmd = Some (inr (take maxDepth full)))
  ∧ acyclic (Modules (chain 1001))
  ∧ (∀ fuel, 1001 ≤ fuel →
       peelAll fuel (graphOf NormalOrder (Modules (chain 1001))) []
       = Some (chainGroups 0 1001))
  ∧ (∀ fuel, 1001 ≤ fuel →
       getModuleRunGraph fuel (chain 1001) "apply"
       = Some (inr (chainGroups 0 1000)))
  ∧ length (chainGroups 0 1000) = maxDepth
  ∧ chainModule 1000 ∈ Modules (chain 1001)
  ∧ AssumeAlreadyApplied (chainModule 1000) = false
  ∧ inNoGroup (chainGroups 0 1000) (chainModule 1000).
Proof.
  split_and!.
  - intros fuel stack cmd G full Hbuild Hfull.
    rewrite getModuleRunGraph_orderFor, Hbuild.
    apply toRunningModules_inr in Hbuild as [_ ->].
    rewrite (groupLoop_take _ _ _ full); [done|apply graphOf_keyIsPath| |done].
    simpl. lia.
  - apply (inDependencyOrder_sound _ (chain_ordered 1001)).
  - intros fuel Hfuel.
    rewrite (chain_peelAll 1001 fuel 0 _ []); [done|apply chain_graph|lia..].
  - intros fuel Hfuel. by rewrite chain_plan.
  - unfold chainGroups. by rewrite length_fmap, length_seq.
  - apply chain_member. lia.
  - done.
  - apply chain1001_last_omitted.
Qed.

Lemma getModuleRunGraph_truncates_witness :
  getModuleRunGraph 2 stackAB "apply"
  = Some (inr (take maxDepth [[moduleA]; [moduleB]])).
Proof.
  exact (proj1 getModuleRunGraph_truncates 2 stackAB "apply" _ _
           stackAB_graph stackAB_peelAll).
Defined.

(** ** C10: the ordering option in [Run] *)

Section dispatch.

Variable TERRAFORM_COMMANDS_NEED_INPUT : list string.
Variable StringListInsert : list string → string → nat → list string.
Variable RunModulesIgnoreOrder : TerragruntOptions → list TerraformModule → nat → runOutcome.
Variable RunModulesReverseOrder : TerragruntOptions → list TerraformModule → nat → runOutcome.
Variable RunModules : TerragruntOptions → list TerraformModule → nat → runOutcome.

Lemma prepareOptions_keeps o :
  let o' := prepareOptions TERRAFORM_COMMANDS_NEED_INPUT StringListInsert o in
  TerraformCommand o' = TerraformCommand o
  ∧ IgnoreDependencyOrder o' = IgnoreDependencyOrder o
  ∧ Parallelism o' = Parallelism o.
Proof.
  unfold prepareOptions. repeat case_decide; simpl;
    repeat (destruct (RunAllAutoApprove _)); done.
Qed.

(** C10.  When [IgnoreDependencyOrder] is set, the final switch of [Run]
    starts the engine that ignores the order, whatever the command, destroy
    included, and [Run] returns what that engine returns; the engine for the
    reverse order is only started when the option is not set. *)
Theorem Run_ignoreDependencyOrder stack terragruntOptions :
  IgnoreDependencyOrder terragruntOptions = true →
  let prepared :=
    prepareOptions TERRAFORM_COMMANDS_NEED_INPUT StringListInsert
      terragruntOptions in
  selectEngine prepared (TerraformCommand terragruntOptions) = IgnoreOrderEngine
  ∧ selectEngine prepared CommandNameDestroy = IgnoreOrderEngine
  ∧ runEngine RunModulesIgnoreOrder RunModulesReverseOrder RunModules stack
      (TerraformCommand terragruntOptions) prepared
    = RunModulesIgnoreOrder prepared (Modules stack)
        (Parallelism terragruntOptions)
  ∧ returned (Run TERRAFORM_COMMANDS_NEED_INPUT StringListInsert
                RunModulesIgnoreOrder RunModulesReverseOrder RunModules
                stack terragruntOptions)
    = runError (RunModulesIgnoreOrder prepared (Modules stack)
                  (Parallelism terragruntOptions)).
Proof.
  intros Hignore prepared.
  destruct (prepareOptions_keeps terragruntOptions) as (Hcmd & Hign & Hpar).
  fold prepared in Hcmd, Hign, Hpar.
  assert (∀ cmd, selectEngine prepared cmd = IgnoreOrderEngine) as Hselect.
  { intros cmd. unfold selectEngine. by rewrite Hign, Hignore. }
  assert (runEngine RunModulesIgnoreOrder RunModulesReverseOrder RunModules
            stack (TerraformCommand terragruntOptions) prepared
          = RunModulesIgnoreOrder prepared (Modules stack)
              (Parallelism terragruntOptions)) as Hrun.
  { unfold runEngine. by rewrite Hselect, Hpar. }
  split_and!; [done..|]. unfold Run. simpl. fold prepared. by rewrite Hrun.
Qed.

End dispatch.

Lemma Run_ignoreDependencyOrder_witness :
  returned (Run sampleNeedInput sampleInsert (sampleEngine "ignore" "")
              (sampleEngine "reverse" "") (sampleEngine "normal" "")
              stackAB destroyIgnoringOrder)
  = Some (ResolveError "ignore").
Proof.
  exact (proj2 (proj2 (proj2
           (Run_ignoreDependencyOrder sampleNeedInput sampleInsert
              (sampleEngine "ignore" "") (sampleEngine "reverse" "")
              (sampleEngine "normal" "") stackAB destroyIgnoringOrder
              eq_refl)))).
Defined.

(** * Further properties of the facade *)

(** ** More on the loop of [getModuleRunGraph] *)

Section loop_facts.

Implicit Types (G : gmap string runningModule) (n : runningModule).
Implicit Types (groups plan : list (list TerraformModule)).
Implicit Types (stack : Stack) (cmd : string) (m d c : TerraformModule).

Lemma iteration_appends entries groups :
  ∃ g, (iteration entries groups).2 = appendGroup groups g.
Proof. unfold iteration, appendGroup. by eexists. Qed.

(** The loop only ever appends non-empty groups, and stops appending at
    [maxDepth] groups. *)
Lemma groupLoop_bounded fuel G groups plan :
  Forall (λ g, g ≠ []) groups → length groups ≤ maxDepth →
  groupLoop fuel G groups = Some plan →
  Forall (λ g, g ≠ []) plan ∧ length plan ≤ maxDepth.
Proof.
  revert G groups. induction fuel as [|fuel IH]; intros G groups Hne Hlen;
    cbn [groupLoop]; destruct (loopCond G groups) eqn:Hc; try done;
    try by intros [= <-].
  destruct (iteration (map_to_list G) groups) as [G' groups'] eqn:Hit.
  destruct (iteration_appends (map_to_list G) groups) as [g Hg].
  rewrite Hit in Hg. simpl in Hg. subst groups'.
  apply loopCond_true in Hc as [_ Hc]. apply IH.
  - destruct (appendGroup_cases groups g) as [[_ ->]|[Hg ->]]; [done|].
    apply Forall_app. split; [done|]. by constructor.
  - destruct (appendGroup_cases groups g) as [[_ ->]|[Hg ->]]; [lia|].
    rewrite length_app. simpl. lia.
Qed.

(** An iteration removes every node when all of them are ready. *)
Lemma nextGraph_all_ready G :
  (∀ k n, G !! k = Some n → isReady n = true) → nextGraph G = ∅.
Proof.
  intros Hready. apply map_eq. intros k. rewrite lookup_empty.
  apply eq_None_not_Some. intros [n' (n & Hn & Hr & _)%nextGraph_lookup].
  by rewrite (Hready k n Hn) in Hr.
Qed.

Lemma NoDup_length_le_size (l : list string) (X : gset string) :
  NoDup l → (∀ x, x ∈ l → x ∈ X) → length l ≤ size X.
Proof.
  intros Hnd Hsub. rewrite <-(size_list_to_set (C := gset string) l) by done.
  apply subseteq_size. intros x Hx%elem_of_list_to_set. by apply Hsub.
Qed.

Lemma size_paths_le modules :
  size (list_to_set (paths modules) : gset string) ≤ length modules.
Proof.
  rewrite <-(dom_graphOf NormalOrder), size_dom. apply size_graphOf.
Qed.


End loop_facts.

(** Nodes that wait for each other are never removed. *)

Section blocked.

Implicit Types (G : gmap string runningModule) (n : runningModule).
Implicit Types (groups plan : list (list TerraformModule)).
Implicit Types (stack : Stack) (cmd : string) (m d c : TerraformModule).
Implicit Types (S : gset string).

Lemma waitingIn_not_ready S G p :
  waitingIn S G → p ∈ S → p ∉ readyKeys G.
Proof.
  intros Hw Hp (n & Hn & Hr)%elem_of_readyKeys.
  destruct (Hw p Hp) as (n' & Hn' & Ha & q & _ & Hq). simplify_eq.
  unfold isReady in Hr. rewrite Ha in Hr. simpl in Hr.
  apply bool_decide_unpack in Hr. set_solver.
Qed.

Lemma waitingIn_nextGraph S G : waitingIn S G → waitingIn S (nextGraph G).
Proof.
  intros Hw p Hp. destruct (Hw p Hp) as (n & Hn & Ha & q & HqS & Hq).
  exists (mkRunning (rmModule n) (rmDependencies n ∖ readyKeys G)).
  split_and!; [|done|].
  - apply nextGraph_lookup. exists n. split_and!; [done| |done].
    unfold isReady. rewrite Ha. simpl. apply bool_decide_eq_false. set_solver.
  - exists q. split; [done|]. simpl. apply elem_of_difference. split; [done|].
    by apply (waitingIn_not_ready S).
Qed.

Lemma waitingIn_graphOf S order modules :
  (∀ p, p ∈ S → p ∈ paths modules) →
  (∀ m, m ∈ modules → Path m ∈ S →
     AssumeAlreadyApplied m = false
     ∧ ∃ d, d ∈ modules ∧ Path d ∈ S ∧ prerequisiteOf order m d) →
  waitingIn S (graphOf order modules).
Proof.
  intros Hsub Hwait p Hp.
  assert (p ∈ dom (graphOf order modules)) as [n Hn]%elem_of_dom.
  { rewrite dom_graphOf. apply elem_of_list_to_set. by apply Hsub. }
  exists n. split; [done|].
  apply graphOf_lookup in Hn as (m & Hm & <- & ->). simpl.
  destruct (Hwait m Hm Hp) as (Ha & d & Hd & HdS & Hpre).
  split; [done|]. exists (Path d). split; [done|].
  by apply remainingDependencies_prerequisite.
Qed.

End blocked.

(** What an iteration deploys waited for what the iteration before
    removed. *)

Section layers.

Implicit Types (G : gmap string runningModule) (n : runningModule).
Implicit Types (groups plan : list (list TerraformModule)).
Implicit Types (stack : Stack) (cmd : string) (m d c : TerraformModule).




End layers.

(** The graph does not depend on the order of the module list. *)

Section module_order.

Implicit Types (modules : list TerraformModule) (m : TerraformModule).

Lemma remainingDependencies_Permutation order modules modules' m :
  modules ≡ₚ modules' →
  remainingDependencies order modules m = remainingDependencies order modules' m.
Proof.
  intros Hp. destruct order; simpl; [done|]. unfold dependents.
  by rewrite Hp.
Qed.

Lemma graphOf_Permutation order modules modules' :
  NoDup (paths modules) → modules ≡ₚ modules' →
  graphOf order modules = graphOf order modules'.
Proof.
  intros Hnd Hp. unfold graphOf.
  assert ((λ m, (Path m, mkRunning m (remainingDependencies order modules m)))
            <$> modules
          = (λ m, (Path m, mkRunning m (remainingDependencies order modules' m)))
              <$> modules) as ->.
  { apply Forall_fmap_ext_1, Forall_forall. intros m _.
    by rewrite (remainingDependencies_Permutation _ _ _ _ Hp). }
  apply list_to_map_proper; [|by rewrite Hp].
  by rewrite <-list_fmap_compose.
Qed.

Lemma resolved_Permutation modules modules' :
  modules ≡ₚ modules' → resolved modules → resolved modules'.
Proof.
  intros Hp Hres m q Hm Hq. unfold paths. rewrite <-Hp.
  apply (Hres m q); [by rewrite Hp|done].
Qed.

End module_order.

(** Facts about the sample stacks. *)

Lemma stackDiamond_plan :
  getModuleRunGraph 4 stackDiamond "apply"
  = Some (inr [[moduleA]; [moduleB; moduleC]; [moduleD]]).
Proof. vm_compute. reflexivity. Qed.

Lemma stackDiamond_distinct : NoDup (paths (Modules stackDiamond)).
Proof. apply (inDependencyOrder_sound _ stackDiamond_ordered). Qed.

Lemma stackAB_distinct :
  NoDup (paths (Modules stackAB)) ∧ resolved (Modules stackAB).
Proof.
  assert (inDependencyOrder [] (Modules stackAB) = true) as Hord by done.
  split; apply (inDependencyOrder_sound _ Hord).
Qed.

Lemma stackCycle_resolved : resolved (Modules stackCycle).
Proof.
  intros m q Hm Hq.
  repeat (apply elem_of_cons in Hm as [->|Hm]; [set_solver|]).
  by apply elem_of_nil in Hm.
Qed.

Lemma stackAllApplied_resolved : resolved (Modules stackAllApplied).
Proof.
  intros m q Hm Hq. apply list_elem_of_singleton in Hm as ->.
  by apply elem_of_nil in Hq.
Qed.

(** ** The plans of [getModuleRunGraph] *)

Section plan_facts.

Implicit Types (G : gmap string runningModule) (n : runningModule).
Implicit Types (groups plan : list (list TerraformModule)).
Implicit Types (stack : Stack) (cmd : string) (m d c : TerraformModule).
Implicit Types (S : gset string).

(** X1.  A plan that [getModuleRunGraph] returns has at most [maxDepth]
    groups, and none of its groups is empty. *)
Theorem getModuleRunGraph_groups_bounded fuel stack cmd plan :
  getModuleRunGraph fuel stack cmd = Some (inr plan) →
  length plan ≤ maxDepth ∧ Forall (λ g, g ≠ []) plan.
Proof.
  rewrite getModuleRunGraph_orderFor.
  destruct (toRunningModules _ _) as [e|G]; [done|].
  destruct (groupLoop fuel G []) as [plan'|] eqn:Hrun; [|done].
  intros [= <-].
  destruct (groupLoop_bounded fuel G [] plan') as [Hne Hlen];
    [constructor|simpl; lia|done|done].
Qed.

(** X2.  A plan has at most as many groups as the stack has modules that
    are not assumed applied. *)
Theorem getModuleRunGraph_group_count fuel stack cmd plan :
  getModuleRunGraph fuel stack cmd = Some (inr plan) →
  length plan
  ≤ length (filter (λ m, AssumeAlreadyApplied m = false) (Modules stack)).
Proof.
  intros Hrun.
  apply getModuleRunGraph_loopInv in Hrun as (_ & G & Hinv & _).
  etrans; [apply length_concat_nonempty, Hinv|].
  apply submseteq_length, NoDup_submseteq.
  - eapply NoDup_fmap_1, inv_nodup, Hinv.
  - intros m (i & g & Hg & Hm)%elem_of_concat.
    apply list_elem_of_filter.
    by destruct (plan_members _ _ _ _ _ _ _ Hinv Hg Hm).
Qed.

(** X3.  In a stack of at most [maxDepth] modules whose dependencies
    resolve, a non-empty set of modules that are not assumed applied and each
    have a prerequisite in the set (a dependency cycle, or modules that wait
    for one) keeps [getModuleRunGraph] from ever returning: the nodes of the
    set are never removed, and the groups never reach the cap. *)
Theorem getModuleRunGraph_blocked stack cmd S :
  resolved (Modules stack) → length (Modules stack) ≤ maxDepth →
  (∃ p, p ∈ S) → (∀ p, p ∈ S → p ∈ paths (Modules stack)) →
  (∀ m, m ∈ Modules stack → Path m ∈ S →
     AssumeAlreadyApplied m = false
     ∧ ∃ d, d ∈ Modules stack ∧ Path d ∈ S ∧ prerequisiteOf (orderFor cmd) m d) →
  ∀ fuel, getModuleRunGraph fuel stack cmd = None.
Proof.
  intros Hres Hsmall [p0 Hp0] Hsub Hwait fuel.
  rewrite getModuleRunGraph_orderFor, toRunningModules_resolved by done.
  set (G0 := graphOf (orderFor cmd) (Modules stack)).
  destruct (groupLoop fuel G0 []) as [plan|] eqn:Hloop; [exfalso|done].
  destruct (groupLoop_invariant (λ G groups, loopInv G0 G groups ∧ waitingIn S G))
    with (fuel := fuel) (G := G0) (groups := @nil (list TerraformModule))
         (plan := plan) as (G & [Hinv Hw] & Hexit); [| | |done|].
  { intros G groups [Hinv _]. apply Hinv. }
  { intros G groups [Hinv Hw] _. split; [by apply loopInv_step|].
    by apply waitingIn_nextGraph. }
  { split; [apply loopInv_start; [apply graphOf_keyIsPath|by apply graphOf_closed]|].
    by apply waitingIn_graphOf. }
  apply loopCond_false in Hexit as [Hempty|Hcap].
  { destruct (Hw p0 Hp0) as (n & Hn & _).
    apply map_size_empty_iff in Hempty. by rewrite Hempty in Hn. }
  assert (length (Path <$> concat plan)
          ≤ size (list_to_set (paths (Modules stack)) ∖ {[p0]} : gset string))
    as Hcount.
  { apply NoDup_length_le_size; [apply Hinv|].
    intros x (m & -> & (i & g & Hg & Hm)%elem_of_concat)%list_elem_of_fmap.
    destruct (inv_group _ _ _ Hinv i g m Hg Hm) as (n0 & Hn0 & _ & _ & Hout & _).
    apply elem_of_difference. split.
    - rewrite <-(dom_graphOf (orderFor cmd)). by apply (elem_of_dom_2 _ _ n0).
    - intros Heq%elem_of_singleton. destruct Hout.
      destruct (Hw (Path m)) as (n & Hn & _); [by rewrite Heq|].
      by apply (elem_of_dom_2 _ _ n). }
  rewrite length_fmap in Hcount.
  pose proof (length_concat_nonempty plan (inv_nonempty _ _ _ Hinv)).
  pose proof (size_paths_le (Modules stack)).
  assert (size (list_to_set (paths (Modules stack)) ∖ {[p0]} : gset string)
          < size (list_to_set (paths (Modules stack)) : gset string)); [|lia].
  apply subset_size. apply subset_difference_elem_of.
  apply elem_of_list_to_set. by apply Hsub.
Qed.

(** X4.  When every module of the stack is assumed applied, the first
    iteration empties the graph and the plan has no group. *)
Theorem getModuleRunGraph_all_applied stack cmd fuel :
  resolved (Modules stack) →
  (∀ m, m ∈ Modules stack → AssumeAlreadyApplied m = true) →
  1 ≤ fuel →
  getModuleRunGraph fuel stack cmd = Some (inr []).
Proof.
  intros Hres Happlied Hfuel.
  rewrite getModuleRunGraph_orderFor, toRunningModules_resolved by done.
  set (G0 := graphOf (orderFor cmd) (Modules stack)).
  assert (∀ k n, G0 !! k = Some n → isReady n = true) as Hready.
  { intros k n (m & Hm & _ & ->)%graphOf_lookup. unfold isReady. simpl.
    by rewrite (Happlied m Hm). }
  assert (deployed G0 = []) as Hdep.
  { apply elem_of_nil_inv.
    intros m (k & n & Hn & [Ha _]%isDeployed_spec & ->)%elem_of_deployed.
    apply graphOf_lookup in Hn as (m & Hm & _ & ->). simpl in Ha.
    by rewrite (Happlied m Hm) in Ha. }
  destruct fuel as [|fuel]; [lia|].
  rewrite groupLoop_unfold by apply graphOf_keyIsPath.
  destruct (loopCond G0 []); [|done].
  rewrite (nextGraph_all_ready G0 Hready), Hdep.
  by destruct fuel.
Qed.

(** X5.  In a stack with distinct paths where some module starts ready,
    the first group of the plan holds exactly the modules that start ready
    (not assumed applied, without prerequisite in the stack), in ascending
    order of path. *)
Theorem getModuleRunGraph_first_group fuel stack cmd plan :
  getModuleRunGraph fuel stack cmd = Some (inr plan) →
  NoDup (paths (Modules stack)) →
  (∃ c, startsReady (orderFor cmd) (Modules stack) c) →
  ∃ g, plan !! 0 = Some g
       ∧ (∀ c, c ∈ g ↔ startsReady (orderFor cmd) (Modules stack) c)
       ∧ sortedByPath g.
Proof.
  intros Hrun Hnd [c0 Hc0].
  pose proof Hrun as [Hres _]%getModuleRunGraph_loopInv.
  rewrite getModuleRunGraph_orderFor, toRunningModules_resolved in Hrun by done.
  set (G0 := graphOf (orderFor cmd) (Modules stack)) in *.
  destruct (groupLoop fuel G0 []) as [plan'|] eqn:Hloop; [|done].
  injection Hrun as ->.
  assert (keyIsPath G0) as Hkey by apply graphOf_keyIsPath.
  assert (c0 ∈ sortByPath (deployed G0)) as Hin.
  { apply elem_of_sortByPath. by apply deployed_graphOf. }
  assert (0 < size G0) as Hsize.
  { apply elem_of_sortByPath, elem_of_deployed in Hin as (k & n & Hn & _).
    assert (size G0 ≠ 0); [|lia]. apply map_size_ne_0_lookup. eauto. }
  rewrite groupLoop_unfold in Hloop by done.
  assert (loopCond G0 [] = true) as Hc
    by (apply loopCond_true; split; [done|unfold maxDepth; simpl; lia]).
  rewrite Hc in Hloop. destruct fuel as [|fuel]; [done|].
  apply groupLoop_prefix in Hloop as [rest ->]; [|by apply nextGraph_keyIsPath].
  destruct (appendGroup_lookup_new [] _ c0 Hin) as [Hnew _]. simpl in Hnew.
  exists (sortByPath (deployed G0)). split_and!.
  - by apply lookup_app_l_Some.
  - intros c. rewrite elem_of_sortByPath. by apply deployed_graphOf.
  - by apply sortByPath_strict, deployed_NoDup.
Qed.

(** X6.  In a stack with distinct paths, no member of a group is a
    prerequisite of a member of the same group: the modules of a group can
    run side by side. *)
Theorem getModuleRunGraph_group_independent fuel stack cmd plan i g m d :
  getModuleRunGraph fuel stack cmd = Some (inr plan) →
  NoDup (paths (Modules stack)) →
  plan !! i = Some g → m ∈ g → d ∈ g →
  ¬ prerequisiteOf (orderFor cmd) m d.
Proof.
  intros Hrun Hnd Hg Hm Hd Hpre.
  apply getModuleRunGraph_loopInv in Hrun as (_ & G & Hinv & _).
  destruct (plan_members _ _ _ _ _ _ _ Hinv Hg Hd) as [Hdm Hda].
  destruct (plan_order stack cmd G plan i g m d) as (j & g' & Hj & Hg' & Hd');
    [done..|].
  assert (j = i); [|lia].
  eapply (NoDup_concat_unique plan j i); eauto.
  eapply NoDup_fmap_1, inv_nodup, Hinv.
Qed.


(** X8.  The plan does not depend on the order in which the stack lists
    its modules: two stacks with the same modules, with distinct paths and
    dependencies that resolve, are scheduled alike for every command. *)
Theorem getModuleRunGraph_module_order fuel stack stack' cmd :
  NoDup (paths (Modules stack)) → resolved (Modules stack) →
  Modules stack ≡ₚ Modules stack' →
  getModuleRunGraph fuel stack cmd = getModuleRunGraph fuel stack' cmd.
Proof.
  intros Hnd Hres Hp. rewrite !getModuleRunGraph_orderFor.
  rewrite !toRunningModules_resolved by eauto using resolved_Permutation.
  by rewrite (graphOf_Permutation _ _ _ Hnd Hp).
Qed.

End plan_facts.

Lemma getModuleRunGraph_groups_bounded_witness :
  length [[moduleA]; [moduleB; moduleC]; [moduleD]] ≤ maxDepth
  ∧ Forall (λ g, g ≠ []) [[moduleA]; [moduleB; moduleC]; [moduleD]].
Proof.
  exact (getModuleRunGraph_groups_bounded 4 stackDiamond "apply" _
           stackDiamond_plan).
Defined.

Lemma getModuleRunGraph_group_count_witness :
  length [[moduleA]; [moduleB; moduleC]; [moduleD]]
  ≤ length (filter (λ m, AssumeAlreadyApplied m = false)
              (Modules stackDiamond)).
Proof.
  exact (getModuleRunGraph_group_count 4 stackDiamond "apply" _
           stackDiamond_plan).
Defined.

Lemma getModuleRunGraph_blocked_witness :
  resolved (Modules stackCycle)
  ∧ ∀ fuel, getModuleRunGraph fuel stackCycle "apply" = None.
Proof.
  split; [exact stackCycle_resolved|].
  apply (getModuleRunGraph_blocked stackCycle "apply" {["X"; "Y"]}
           stackCycle_resolved).
  - unfold maxDepth. simpl. lia.
  - exists "X". set_solver.
  - intros p Hp. simpl. set_solver.
  - intros m Hm _.
    apply elem_of_cons in Hm as [->|Hm]; [|apply elem_of_cons in Hm as [->|Hm]].
    + split; [done|]. exists moduleY. split_and!; [set_solver|set_solver|].
      vm_compute. set_solver.
    + split; [done|]. exists moduleX. split_and!; [set_solver|set_solver|].
      vm_compute. set_solver.
    + by apply elem_of_nil in Hm.
Defined.

Lemma getModuleRunGraph_all_applied_witness :
  getModuleRunGraph 1 stackAllApplied "apply" = Some (inr []).
Proof.
  apply (getModuleRunGraph_all_applied stackAllApplied "apply" 1
           stackAllApplied_resolved); [|lia].
  intros m Hm. by apply list_elem_of_singleton in Hm as ->.
Defined.

Lemma getModuleRunGraph_first_group_witness :
  ∃ g, [[moduleA]; [moduleB; moduleC]; [moduleD]] !! 0 = Some g
       ∧ (∀ c, c ∈ g ↔ startsReady (orderFor "apply") (Modules stackDiamond) c)
       ∧ sortedByPath g.
Proof.
  apply (getModuleRunGraph_first_group 4 stackDiamond "apply" _
           stackDiamond_plan stackDiamond_distinct).
  exists moduleA. split_and!; [set_solver|done|].
  intros d _ Hpre. vm_compute in Hpre. by apply elem_of_nil in Hpre.
Defined.

Lemma getModuleRunGraph_group_independent_witness :
  [[moduleA]; [moduleB; moduleC]; [moduleD]] !! 1 = Some [moduleB; moduleC]
  ∧ ¬ prerequisiteOf (orderFor "apply") moduleB moduleC.
Proof.
  split; [done|].
  apply (getModuleRunGraph_group_independent 4 stackDiamond "apply" _ 1
           [moduleB; moduleC] moduleB moduleC stackDiamond_plan
           stackDiamond_distinct eq_refl); set_solver.
Defined.


Lemma getModuleRunGraph_module_order_witness :
  getModuleRunGraph 2 stackAB "apply" = getModuleRunGraph 2 stackBA "apply".
Proof.
  apply (getModuleRunGraph_module_order 2 stackAB stackBA "apply"
           (proj1 stackAB_distinct) (proj2 stackAB_distinct)).
  apply Permutation_swap.
Defined.

(** ** The deploy-order reports *)

Section strings.

Lemma string_app_assoc (a b c : string) : (a +:+ b) +:+ c = a +:+ (b +:+ c).
Proof.
  induction a as [|x a IH]; [done|].
  change (String x ((a +:+ b) +:+ c) = String x (a +:+ b +:+ c)).
  by rewrite IH.
Qed.

Lemma string_app_nil_r (a : string) : a +:+ "" = a.
Proof.
  induction a as [|x a IH]; [done|].
  change (String x (a +:+ "") = String x a). by rewrite IH.
Qed.

Lemma string_concat_cons sep (x y : string) (l : list string) :
  String.concat sep (x :: y :: l) = x +:+ sep +:+ String.concat sep (y :: l).
Proof. done. Qed.

Lemma string_concat_empty_cons (x : string) (l : list string) :
  String.concat "" (x :: l) = x +:+ String.concat "" l.
Proof. destruct l; simpl; [by rewrite string_app_nil_r|done]. Qed.

(** A string of a joined list is a part of the result; of two strings, the
    one at the earlier position comes first. *)
Lemma string_concat_lookup sep (l : list string) i x :
  l !! i = Some x → ∃ a c, String.concat sep l = a +:+ x +:+ c.
Proof.
  revert i. induction l as [|y l IH]; intros i Hi; [done|].
  destruct i as [|i]; simpl in Hi.
  - injection Hi as ->. destruct l as [|z l].
    + exists "", "". simpl. by rewrite string_app_nil_r.
    + rewrite string_concat_cons. by exists "", (sep +:+ String.concat sep (z :: l)).
  - destruct l as [|z l]; [done|]. rewrite string_concat_cons.
    destruct (IH i Hi) as (a & c & ->).
    exists (y +:+ sep +:+ a), c. by rewrite !string_app_assoc.
Qed.

Lemma string_concat_lookup2 sep (l : list string) i j x y :
  i < j → l !! i = Some x → l !! j = Some y →
  ∃ a b c, String.concat sep l = a +:+ x +:+ b +:+ y +:+ c.
Proof.
  revert i j. induction l as [|z l IH]; intros i j Hij Hi Hj; [done|].
  destruct j as [|j]; [lia|]. simpl in Hj.
  destruct l as [|z' l]; [done|]. rewrite string_concat_cons.
  destruct i as [|i]; simpl in Hi.
  - injection Hi as ->.
    destruct (string_concat_lookup sep _ _ _ Hj) as (b & c & ->).
    exists "", (sep +:+ b), c. by rewrite string_app_assoc.
  - destruct (IH i j) as (a & b & c & ->); [lia|done..|].
    exists (z +:+ sep +:+ a), b, c. by rewrite !string_app_assoc.
Qed.

Lemma foldl_snoc_fmap {A B} (f : A → B) (l : list A) (acc : list B) :
  foldl (λ acc x, acc ++ [f x]) acc l = acc ++ (f <$> l).
Proof.
  revert acc. induction l as [|x l IH]; intros acc; simpl.
  - by rewrite app_nil_r.
  - by rewrite IH, <-app_assoc.
Qed.

(** The ascending arrangement of a list of strings does not depend on the
    order of the list. *)
Lemma sortStrings_perm (l1 l2 : list string) :
  l1 ≡ₚ l2 → sortStrings l1 = sortStrings l2.
Proof.
  intros Hp. unfold sortStrings.
  apply (StronglySorted_unique String.le).
  - apply (StronglySorted_merge_sort _).
  - apply (StronglySorted_merge_sort _).
  - by rewrite !merge_sort_Permutation.
Qed.

Lemma strongly_sorted_lookup {A} (R : relation A) (l : list A) i j x y :
  StronglySorted R l → i < j → l !! i = Some x → l !! j = Some y → R x y.
Proof.
  intros Hs. revert i j. induction Hs as [|z l Hl IH Hz]; intros i j Hij Hi Hj.
  { done. }
  destruct j as [|j]; [lia|]. destruct i as [|i]; simpl in *.
  - injection Hi as ->. rewrite Forall_forall in Hz. apply Hz.
    by eapply list_elem_of_lookup_2.
  - apply (IH i j); [lia|done..].
Qed.

Lemma lookup_strongly_sorted {A} (R : relation A) (l : list A) :
  (∀ i j x y, i < j → l !! i = Some x → l !! j = Some y → R x y) →
  StronglySorted R l.
Proof.
  induction l as [|z l IH]; intros H; constructor.
  - apply IH. intros i j x y Hij Hi Hj. apply (H (S i) (S j)); [lia|done..].
  - apply Forall_forall. intros y [j Hj]%list_elem_of_lookup.
    apply (H 0 (S j)); [lia|done..].
Qed.

End strings.

Section reports.

Implicit Types (stack : Stack) (cmd : string).
Implicit Types (plan groups : list (list TerraformModule)).
Implicit Types (g : list TerraformModule).

Lemma logGroup_section outStr i g :
  logGroup outStr (i, g) = outStr +:+ groupSection i g.
Proof.
  unfold logGroup, groupSection. simpl.
  assert (∀ out, foldl (λ out m, out +:+ ("- Module " +:+ Path m +:+ lineFeed))
                   out g
                 = out +:+ String.concat ""
                     ((λ m, "- Module " +:+ Path m +:+ lineFeed) <$> g)) as ->.
  { induction g as [|m g IH]; intros out; simpl foldl.
    - by rewrite string_app_nil_r.
    - rewrite IH, fmap_cons, string_concat_empty_cons. by rewrite !string_app_assoc. }
  by rewrite !string_app_assoc.
Qed.

Lemma foldl_logGroup outStr k plan :
  foldl logGroup outStr (imap (λ i group, (k + i, group)) plan)
  = outStr +:+ String.concat "" (imap (λ i group, groupSection (k + i) group) plan).
Proof.
  revert outStr k. induction plan as [|g plan IH]; intros outStr k.
  { simpl. by rewrite string_app_nil_r. }
  rewrite !imap_cons. cbn [foldl]. rewrite logGroup_section.
  rewrite (imap_ext _ (λ i group, (S k + i, group)) plan),
    (imap_ext (_ ∘ S) (λ i group, groupSection (S k + i) group) plan).
  - by rewrite IH, string_concat_empty_cons, string_app_assoc.
  - intros i x _. simpl. f_equal. lia.
  - intros i x _. simpl. f_equal. lia.
Qed.

(** The text is the header followed by the sections of the groups. *)
Lemma deployOrderText_sections stack cmd plan :
  ∃ header,
    deployOrderText stack cmd plan
    = header +:+ String.concat "" (imap groupSection plan).
Proof.
  eexists. unfold deployOrderText.
  by rewrite (foldl_logGroup _ 0 plan).
Qed.

(** The entries of the map are the members of the groups, and no other. *)
Lemma fillJsonGraph_lookup_Some groups label ids :
  fillJsonGraph groups !! label = Some ids ↔
    ∃ i g, groups !! i = Some g ∧ (label, ids) = groupMember i g.
Proof.
  split.
  - induction groups as [|g0 groups IH] using rev_ind; [done|].
    rewrite fillJsonGraph_snoc.
    intros [[<- <-]|[_ Hl]]%lookup_insert_Some.
    + exists (length groups), g0. split; [|done]. by apply list_lookup_middle.
    + destruct (IH Hl) as (i & g & Hi & Heq). exists i, g.
      split; [|done]. by apply lookup_app_l_Some.
  - intros (i & g & Hi & [= -> ->]). by apply fillJsonGraph_lookup.
Qed.

Lemma groupMember_NoDup plan : NoDup (imap groupMember plan).
Proof.
  apply NoDup_alt. intros i j x [gi [Hi Hx]]%list_lookup_imap_Some
    [gj [Hj Hx']]%list_lookup_imap_Some.
  apply groupNum_inj. unfold groupMember in *. congruence.
Qed.

Lemma marshalMap_fillJsonGraph plan :
  marshalMap (fillJsonGraph plan) ≡ₚ imap groupMember plan.
Proof.
  rewrite marshalMap_Permutation. apply NoDup_Permutation.
  - apply NoDup_map_to_list.
  - apply groupMember_NoDup.
  - intros [label ids]. rewrite elem_of_map_to_list, fillJsonGraph_lookup_Some.
    rewrite elem_of_lookup_imap. naive_solver.
Qed.

(** The labels of the first nine groups ascend bytewise. *)
Lemma groupNum_ascending i j :
  i < j → j < 9 → String.ltb (groupNum i) (groupNum j) = true.
Proof.
  intros Hij Hj.
  assert (forallb (λ a, forallb (λ b,
            if a <? b then String.ltb (groupNum a) (groupNum b) else true)
            (seq 0 9)) (seq 0 9) = true) as Hall by (vm_compute; reflexivity).
  rewrite forallb_forall in Hall. specialize (Hall i).
  rewrite forallb_forall in Hall.
  assert (i <? j = true) as Hlt by by apply Nat.ltb_lt.
  specialize (Hall ltac:(apply in_seq; lia) j ltac:(apply in_seq; lia)).
  by rewrite Hlt in Hall.
Qed.

(** X9.  When the run graph is computed, [LogModuleDeployOrder] logs a text
    that holds the section of every group (its header with the number of the
    group, one line per module in the order of the group, and an empty line),
    and the sections of two groups stand in the order of execution, for any
    number of groups. *)
Theorem LogModuleDeployOrder_sections fuel stack cmd plan :
  getModuleRunGraph fuel stack cmd = Some (inr plan) →
  ∃ text,
    LogModuleDeployOrder fuel stack cmd = Some (inr text)
    ∧ (∀ i g, plan !! i = Some g →
         ∃ before after, text = before +:+ groupSection i g +:+ after)
    ∧ (∀ i j gi gj, i < j → plan !! i = Some gi → plan !! j = Some gj →
         ∃ before between after,
           text = before +:+ groupSection i gi +:+ between
                  +:+ groupSection j gj +:+ after).
Proof.
  intros Hrun. unfold LogModuleDeployOrder. rewrite Hrun.
  destruct (deployOrderText_sections stack cmd plan) as [header Htext].
  eexists. split; [done|]. rewrite Htext. split.
  - intros i g Hg.
    destruct (string_concat_lookup "" (imap groupSection plan) i (groupSection i g))
      as (a & c & ->); [by rewrite list_lookup_imap, Hg|].
    exists (header +:+ a), c. by rewrite string_app_assoc.
  - intros i j gi gj Hij Hi Hj.
    destruct (string_concat_lookup2 "" (imap groupSection plan) i j
                (groupSection i gi) (groupSection j gj))
      as (a & b & c & ->); [done|by rewrite list_lookup_imap, ?Hi, ?Hj..|].
    exists (header +:+ a), b, c. by rewrite string_app_assoc.
Qed.

(** X10.  When the run graph is computed, the JSON report has exactly one
    member per group, labelled with the number of the group and holding the
    paths of its modules in the order of the group, and the members are
    written in ascending bytewise order of their labels. *)
Theorem JsonModuleDeployOrder_members fuel stack cmd plan :
  getModuleRunGraph fuel stack cmd = Some (inr plan) →
  ∃ report,
    JsonModuleDeployOrder fuel stack cmd = Some (inr report)
    ∧ report ≡ₚ imap groupMember plan
    ∧ StronglySorted (λ a b, String.ltb a.1 b.1 = true) report.
Proof.
  intros Hrun. unfold JsonModuleDeployOrder. rewrite Hrun.
  eexists. split; [done|]. split.
  - apply marshalMap_fillJsonGraph.
  - apply marshalMap_sorted.
Qed.

(** X11.  The members of the JSON report stand in the order of execution
    exactly when the run graph has at most nine groups. *)
Theorem JsonModuleDeployOrder_execution_order fuel stack cmd plan :
  getModuleRunGraph fuel stack cmd = Some (inr plan) →
  JsonModuleDeployOrder fuel stack cmd = Some (inr (imap groupMember plan))
  ↔ length plan ≤ 9.
Proof.
  intros Hrun. unfold JsonModuleDeployOrder. rewrite Hrun.
  pose proof (marshalMap_sorted (fillJsonGraph plan)) as Hs.
  pose proof (marshalMap_fillJsonGraph plan) as Hp. split.
  - intros [= Heq]. rewrite Heq in Hs.
    destruct (decide (length plan ≤ 9)) as [|Hlong]; [done|].
    destruct (lookup_lt_is_Some_2 plan 1) as [g1 H1]; [lia|].
    destruct (lookup_lt_is_Some_2 plan 9) as [g9 H9]; [lia|].
    assert (String.ltb (groupNum 1) (groupNum 9) = true) as Hlt.
    { apply (strongly_sorted_lookup _ _ 1 9 (groupMember 1 g1)
               (groupMember 9 g9) Hs); [lia|by rewrite list_lookup_imap, ?H1, ?H9..]. }
    apply ltb_asym in Hlt. by vm_compute in Hlt.
  - intros Hlen. do 2 f_equal.
    apply (StronglySorted_unique_strong
             (λ a b : string * list string, String.ltb a.1 b.1 = true));
      [|done| |done].
    + intros x1 x2 _ _ H12 H21. apply ltb_asym in H12. congruence.
    + apply lookup_strongly_sorted.
      intros i j x y Hij [gi [Hi ->]]%list_lookup_imap_Some
        [gj [Hj ->]]%list_lookup_imap_Some.
      apply groupNum_ascending; [done|].
      apply lookup_lt_Some in Hj. lia.
Qed.

End reports.

Lemma LogModuleDeployOrder_sections_witness :
  ∃ text,
    LogModuleDeployOrder 4 stackDiamond "apply" = Some (inr text)
    ∧ (∀ i g, [[moduleA]; [moduleB; moduleC]; [moduleD]] !! i = Some g →
         ∃ before after, text = before +:+ groupSection i g +:+ after)
    ∧ (∀ i j gi gj, i < j →
         [[moduleA]; [moduleB; moduleC]; [moduleD]] !! i = Some gi →
         [[moduleA]; [moduleB; moduleC]; [moduleD]] !! j = Some gj →
         ∃ before between after,
           text = before +:+ groupSection i gi +:+ between
                  +:+ groupSection j gj +:+ after).
Proof.
  exact (LogModuleDeployOrder_sections 4 stackDiamond "apply" _
           stackDiamond_plan).
Defined.

Lemma JsonModuleDeployOrder_members_witness :
  ∃ report,
    JsonModuleDeployOrder 4 stackDiamond "apply" = Some (inr report)
    ∧ report ≡ₚ imap groupMember [[moduleA]; [moduleB; moduleC]; [moduleD]]
    ∧ StronglySorted (λ a b, String.ltb a.1 b.1 = true) report.
Proof.
  exact (JsonModuleDeployOrder_members 4 stackDiamond "apply" _
           stackDiamond_plan).
Defined.

Lemma JsonModuleDeployOrder_execution_order_witness :
  JsonModuleDeployOrder 4 stackDiamond "apply"
  = Some (inr (imap groupMember [[moduleA]; [moduleB; moduleC]; [moduleD]]))
  ↔ length [[moduleA]; [moduleB; moduleC]; [moduleD]] ≤ 9.
Proof.
  exact (JsonModuleDeployOrder_execution_order 4 stackDiamond "apply" _
           stackDiamond_plan).
Defined.

(** ** [Stack.String] *)

Section stack_string_facts.

Variable moduleString : TerraformModule → string.

(** X12.  The rendering of a stack does not depend on the order in which the
    stack lists its modules: the lines of the modules are sorted before they
    are joined. *)
Theorem Stack_String_permutation stack stack' :
  StackPath stack = StackPath stack' → Modules stack ≡ₚ Modules stack' →
  Stack_String moduleString stack = Stack_String moduleString stack'.
Proof.
  intros Hpath Hperm. unfold Stack_String.
  rewrite Hpath, !foldl_snoc_fmap. simpl.
  by rewrite (sortStrings_perm _ _ (fmap_Permutation _ _ _ Hperm)).
Qed.

End stack_string_facts.

Lemma Stack_String_permutation_witness :
  Stack_String Path stackAB = Stack_String Path stackBA.
Proof.
  apply (Stack_String_permutation Path stackAB stackBA eq_refl).
  apply Permutation_swap.
Defined.

(** ** [DependencyCycle.Error] *)

(** X13.  The message of a dependency cycle names every module of the cycle,
    and names them in the order of the cycle. *)
Theorem DependencyCycle_Error_names cycle :
  (∀ p, p ∈ cycle → Contains (DependencyCycle_Error cycle) p = true)
  ∧ (∀ i j p q, i < j → cycle !! i = Some p → cycle !! j = Some q →
       ∃ before between after,
         DependencyCycle_Error cycle
         = before +:+ p +:+ between +:+ q +:+ after).
Proof.
  unfold DependencyCycle_Error. split.
  - intros p [i Hi]%list_elem_of_lookup. apply Contains_spec.
    destruct (string_concat_lookup " -> " cycle i p Hi) as (a & c & ->).
    eexists (_ +:+ a), c. by rewrite string_app_assoc.
  - intros i j p q Hij Hi Hj.
    destruct (string_concat_lookup2 " -> " cycle i j p q Hij Hi Hj)
      as (a & b & c & ->).
    eexists (_ +:+ a), b, c. by rewrite string_app_assoc.
Qed.

(** ** The plan-error summary: failures and logged outputs *)

Section summary_facts.

Implicit Types (stack : Stack) (output : string) (errorStreams : list string).

Lemma summarizeStream_None stack i output :
  summarizeStream stack i output = None ↔
    tripsHint output ∧ length (Modules stack) ≤ i.
Proof.
  unfold summarizeStream, tripsHint. rewrite <-length_0_empty.
  destruct (decide (String.length output = 0)) as [He|Hne]; [naive_solver|].
  destruct (Contains output planErrorSignature); [|naive_solver].
  destruct (Contains output remoteStateSignature); [|naive_solver].
  destruct (Modules stack !! i) as [m|] eqn:Hm.
  - apply lookup_lt_Some in Hm. split; [done|]. intros [_ ?]. lia.
  - apply lookup_ge_None in Hm. naive_solver.
Qed.

Lemma summarizeFrom_None stack k errorStreams :
  summarizeFrom stack k errorStreams = None ↔
    ∃ i output, errorStreams !! i = Some output ∧ tripsHint output
                ∧ length (Modules stack) ≤ k + i.
Proof.
  revert k. induction errorStreams as [|output rest IH]; intros k; simpl.
  { split; [done|]. by intros (i & output & Hi & _). }
  destruct (summarizeStream stack k output) as [entries|] eqn:Hs.
  - destruct (summarizeFrom stack (S k) rest) as [more|] eqn:Hrest.
    + split; [done|]. intros ([|i] & out & Hi & Htrip & Hlen); simpl in Hi.
      * injection Hi as ->.
        assert (summarizeStream stack k out = None) as Hnone; [|congruence].
        apply summarizeStream_None. split; [done|lia].
      * assert (summarizeFrom stack (S k) rest = None) as Hnone; [|congruence].
        apply IH. exists i, out. split_and!; [done..|lia].
    + split; [|done]. intros _. apply IH in Hrest as (i & out & Hi & Htrip & Hlen).
      exists (S i), out. split_and!; [done..|lia].
  - split; [|done]. intros _. apply summarizeStream_None in Hs as [Htrip Hlen].
    exists 0, output. split_and!; [done..|lia].
Qed.

(** X14.  The summary fails with an index out of range exactly when some
    stream at an index at or beyond the number of modules is not empty and
    contains both signatures. *)
Theorem summarizePlanAllErrors_out_of_range stack errorStreams :
  summarizePlanAllErrors stack errorStreams = None ↔
    ∃ i output,
      errorStreams !! i = Some output ∧ length (Modules stack) ≤ i
      ∧ output ≠ "" ∧ Contains output planErrorSignature = true
      ∧ Contains output remoteStateSignature = true.
Proof.
  unfold summarizePlanAllErrors. rewrite fmap_None, summarizeFrom_None.
  unfold tripsHint. naive_solver.
Qed.

Lemma summarizeStream_outputs stack i output entries :
  summarizeStream stack i output = Some entries →
  loggedOutputs entries = if decide (output = "") then [] else [output].
Proof.
  unfold summarizeStream. rewrite <-(decide_ext _ _ _ _ (length_0_empty output)).
  destruct (decide (String.length output = 0)); [by intros [= <-]|].
  destruct (Contains output planErrorSignature); [|by intros [= <-]].
  destruct (Contains output remoteStateSignature); [|by intros [= <-]].
  destruct (Modules stack !! i); [|done]. by intros [= <-].
Qed.

Lemma loggedOutputs_app log1 log2 :
  loggedOutputs (log1 ++ log2) = loggedOutputs log1 ++ loggedOutputs log2.
Proof. apply omap_app. Qed.

Lemma summarizeFrom_outputs stack k errorStreams logs :
  summarizeFrom stack k errorStreams = Some logs →
  loggedOutputs (concat logs) = filter (λ output, output ≠ "") errorStreams.
Proof.
  revert k logs. induction errorStreams as [|output rest IH]; intros k logs; simpl.
  { by intros [= <-]. }
  destruct (summarizeStream stack k output) as [entries|] eqn:Hs; [|done].
  destruct (summarizeFrom stack (S k) rest) as [more|] eqn:Hrest; [|done].
  intros [= <-]. simpl. rewrite loggedOutputs_app, (IH _ _ Hrest).
  rewrite (summarizeStream_outputs _ _ _ _ Hs), filter_cons.
  by destruct (decide (output = "")), (decide (output ≠ "")).
Qed.

(** X15.  When the summary completes, the outputs it logs are the streams
    that are not empty, each once, in the order of the streams. *)
Theorem summarizePlanAllErrors_outputs stack errorStreams log :
  summarizePlanAllErrors stack errorStreams = Some log →
  loggedOutputs log = filter (λ output, output ≠ "") errorStreams.
Proof.
  unfold summarizePlanAllErrors.
  intros (logs & Hlogs & ->)%fmap_Some. by eapply summarizeFrom_outputs.
Qed.

End summary_facts.

Lemma summarizePlanAllErrors_outputs_witness :
  loggedOutputs [Infoln remoteStateFailure; Infof (remoteStateHint moduleB)]
  = filter (λ output, output ≠ "") [""; remoteStateFailure].
Proof.
  exact (summarizePlanAllErrors_outputs stackAB [""; remoteStateFailure] _
           stackAB_summary).
Defined.

(** ** [Run] with the dependency order respected *)

Section ordered_dispatch.

Variable TERRAFORM_COMMANDS_NEED_INPUT : list string.
Variable StringListInsert : list string → string → nat → list string.
Variable RunModulesIgnoreOrder : TerragruntOptions → list TerraformModule → nat → runOutcome.
Variable RunModulesReverseOrder : TerragruntOptions → list TerraformModule → nat → runOutcome.
Variable RunModules : TerragruntOptions → list TerraformModule → nat → runOutcome.

(** X16.  When [IgnoreDependencyOrder] is not set, [Run] starts the engine
    for the reverse order for destroy and the engine for the normal order for
    every other command, never the engine that ignores the order, and returns
    what the engine it started returns. *)
Theorem Run_dependency_order stack terragruntOptions :
  IgnoreDependencyOrder terragruntOptions = false →
  let prepared :=
    prepareOptions TERRAFORM_COMMANDS_NEED_INPUT StringListInsert
      terragruntOptions in
  selectEngine prepared (TerraformCommand terragruntOptions)
  = (if decide (TerraformCommand terragruntOptions = CommandNameDestroy)
     then ReverseOrderEngine else NormalOrderEngine)
  ∧ returned (Run TERRAFORM_COMMANDS_NEED_INPUT StringListInsert
                RunModulesIgnoreOrder RunModulesReverseOrder RunModules
                stack terragruntOptions)
    = runError
        (if decide (TerraformCommand terragruntOptions = CommandNameDestroy)
         then RunModulesReverseOrder prepared (Modules stack)
                (Parallelism terragruntOptions)
         else RunModules prepared (Modules stack)
                (Parallelism terragruntOptions)).
Proof.
  intros Hignore prepared.
  destruct (prepareOptions_keeps TERRAFORM_COMMANDS_NEED_INPUT StringListInsert
              terragruntOptions) as (Hcmd & Hign & Hpar).
  fold prepared in Hcmd, Hign, Hpar.
  assert (selectEngine prepared (TerraformCommand terragruntOptions)
          = (if decide (TerraformCommand terragruntOptions = CommandNameDestroy)
             then ReverseOrderEngine else NormalOrderEngine)) as Hselect.
  { unfold selectEngine. by rewrite Hign, Hignore. }
  split; [done|]. unfold Run, runEngine. simpl. fold prepared.
  rewrite Hselect, Hpar. by case_decide.
Qed.

End ordered_dispatch.

Lemma Run_dependency_order_witness :
  selectEngine (prepareOptions sampleNeedInput sampleInsert destroyInOrder)
    (TerraformCommand destroyInOrder)
  = ReverseOrderEngine
  ∧ returned (Run sampleNeedInput sampleInsert (sampleEngine "ignore" "")
                (sampleEngine "reverse" "") (sampleEngine "normal" "")
                stackAB destroyInOrder)
    = Some (ResolveError "reverse").
Proof.
  exact (Run_dependency_order sampleNeedInput sampleInsert
           (sampleEngine "ignore" "") (sampleEngine "reverse" "")
           (sampleEngine "normal" "") stackAB destroyInOrder eq_refl).
Defined.

(** ** [syncTerraformCliArgs] *)

Section sync_facts.

Variable TERRAFORM_COMMANDS_NEED_INPUT : list string.
Variable StringListInsert : list string → string → nat → list string.
Variable planFileIn : string → string → string.

Implicit Types (stack : Stack) (o : TerragruntOptions).
Implicit Types (mo : nat → ModuleOptions).

Lemma syncTerraformCliArgs_again stack o1 o2 mo i :
  syncTerraformCliArgs StringListInsert planFileIn stack o2
    (syncTerraformCliArgs StringListInsert planFileIn stack o1 mo) i
  = syncTerraformCliArgs StringListInsert planFileIn stack o2 mo i.
Proof. unfold syncTerraformCliArgs. by destruct (Modules stack !! i). Qed.

(** X17.  [syncTerraformCliArgs] replaces the arguments of a module of the
    stack by arguments computed from the arguments of the stack and from the
    output folder and the command of the module alone: what the module held
    before is dropped, so a call overrides any call before it; a module
    without output folder gets exactly the arguments of the stack; and the
    output folder and the command of the module are left as they were. *)
Theorem syncTerraformCliArgs_overrides stack o mo i :
  i < length (Modules stack) →
  let synced := syncTerraformCliArgs StringListInsert planFileIn stack o mo in
  (∀ mo', OutputFolder (mo' i) = OutputFolder (mo i) →
          ModuleCommand (mo' i) = ModuleCommand (mo i) →
          syncTerraformCliArgs StringListInsert planFileIn stack o mo' i
          = synced i)
  ∧ (∀ o', syncTerraformCliArgs StringListInsert planFileIn stack o
             (syncTerraformCliArgs StringListInsert planFileIn stack o' mo) i
           = synced i)
  ∧ (OutputFolder (mo i) = "" → ModuleCliArgs (synced i) = TerraformCliArgs o)
  ∧ OutputFolder (synced i) = OutputFolder (mo i)
  ∧ ModuleCommand (synced i) = ModuleCommand (mo i).
Proof.
  intros Hi synced. unfold synced.
  destruct (lookup_lt_is_Some_2 (Modules stack) i Hi) as [m Hm]. split_and!.
  - intros mo' Hf Hc. unfold syncTerraformCliArgs, syncModule.
    by rewrite Hm, Hf, Hc.
  - intros o'. apply syncTerraformCliArgs_again.
  - intros Hf. unfold syncTerraformCliArgs, syncModule. rewrite Hm. simpl.
    rewrite decide_False; [done|]. intros Hne. by apply Hne.
  - unfold syncTerraformCliArgs. by rewrite Hm.
  - unfold syncTerraformCliArgs. by rewrite Hm.
Qed.

(** X18.  When [Run] starts an engine, the modules hold the arguments of the
    stack as [Run] leaves them: for a command that needs input, for apply and
    for destroy, the options of every module are those of one
    [syncTerraformCliArgs] with the final arguments, whatever was synced on
    the way; for any other command neither the arguments of the stack nor the
    options of the modules are touched. *)
Theorem Run_syncs_modules stack o mo i :
  let stackCmd := TerraformCommand o in
  let prepared := prepareOptions TERRAFORM_COMMANDS_NEED_INPUT StringListInsert o in
  let started :=
    prepareModuleOptions TERRAFORM_COMMANDS_NEED_INPUT StringListInsert
      planFileIn stack o mo in
  (stackCmd ∈ TERRAFORM_COMMANDS_NEED_INPUT
   ∨ stackCmd = CommandNameApply ∨ stackCmd = CommandNameDestroy →
   started i = syncTerraformCliArgs StringListInsert planFileIn stack prepared mo i)
  ∧ (stackCmd ∉ TERRAFORM_COMMANDS_NEED_INPUT →
     stackCmd ≠ CommandNameApply → stackCmd ≠ CommandNameDestroy →
     started i = mo i ∧ TerraformCliArgs prepared = TerraformCliArgs o).
Proof.
  intros stackCmd prepared started.
  unfold started, prepared, prepareModuleOptions, prepareOptions.
  fold stackCmd. split.
  - intros Hcmd.
    destruct (decide (stackCmd ∈ TERRAFORM_COMMANDS_NEED_INPUT)) as [Hin|Hin];
      destruct (decide (stackCmd = CommandNameApply
                        ∨ stackCmd = CommandNameDestroy)) as [Hsw|Hsw];
      try done; try by rewrite ?syncTerraformCliArgs_again.
    naive_solver.
  - intros Hin Ha Hd. rewrite !decide_False by naive_solver. done.
Qed.

End sync_facts.

Lemma syncTerraformCliArgs_overrides_witness :
  (∀ mo', OutputFolder (mo' 0) = OutputFolder (staleOptions 0) →
          ModuleCommand (mo' 0) = ModuleCommand (staleOptions 0) →
          syncTerraformCliArgs sampleInsert samplePlanFile stackAB planInOrder
            mo' 0
          = syncTerraformCliArgs sampleInsert samplePlanFile stackAB
              planInOrder staleOptions 0)
  ∧ (∀ o', syncTerraformCliArgs sampleInsert samplePlanFile stackAB planInOrder
             (syncTerraformCliArgs sampleInsert samplePlanFile stackAB o'
                staleOptions) 0
           = syncTerraformCliArgs sampleInsert samplePlanFile stackAB
               planInOrder staleOptions 0)
  ∧ (OutputFolder (staleOptions 0) = "" →
     ModuleCliArgs (syncTerraformCliArgs sampleInsert samplePlanFile stackAB
                      planInOrder staleOptions 0)
     = TerraformCliArgs planInOrder)
  ∧ OutputFolder (syncTerraformCliArgs sampleInsert samplePlanFile stackAB
                    planInOrder staleOptions 0)
    = OutputFolder (staleOptions 0)
  ∧ ModuleCommand (syncTerraformCliArgs sampleInsert samplePlanFile stackAB
                     planInOrder staleOptions 0)
    = ModuleCommand (staleOptions 0).
Proof.
  apply (syncTerraformCliArgs_overrides sampleInsert samplePlanFile stackAB
           planInOrder staleOptions 0).
  simpl. lia.
Defined.

(** ** Stack construction: resolution errors and the search for files *)

Section find_facts.

Variable FindConfigFilesInPath : string → error + list string.
Variable ResolveTerraformModules : list string → error + list TerraformModule.

(** X19.  When the resolution of the modules fails, stack construction
    returns that error under a stack trace and no stack, and the cycle check
    is not run: the result does not depend on how deep the check may go. *)
Theorem createStack_resolve_error fuel path configPaths err :
  configPaths ≠ [] → ResolveTerraformModules configPaths = inl err →
  ∃ err',
    createStackForTerragruntConfigPaths ResolveTerraformModules fuel path
      configPaths = Some (inl err')
    ∧ Cause err' = Cause err.
Proof.
  intros Hne Hres. unfold createStackForTerragruntConfigPaths, Telemetry.
  rewrite decide_False by by destruct configPaths.
  rewrite Hres. eexists. split; [done|]. by rewrite !Cause_WithStackTrace.
Qed.

(** X20.  [FindStackInSubfolders] returns the error of the search for
    configuration files as it is, without a stack trace; when the search
    finds no file the error is [NoTerraformModulesFound]; and a stack that it
    returns has the working directory as its path, comes from a non-empty
    list of files that the search found, and holds the modules resolved from
    them. *)
Theorem FindStackInSubfolders_result fuel workingDir :
  (∀ err, FindConfigFilesInPath workingDir = inl err →
     FindStackInSubfolders FindConfigFilesInPath ResolveTerraformModules
       fuel workingDir = Some (inl err))
  ∧ (FindConfigFilesInPath workingDir = inr [] →
     ∃ err, FindStackInSubfolders FindConfigFilesInPath ResolveTerraformModules
              fuel workingDir = Some (inl err)
            ∧ Cause err = NoTerraformModulesFound)
  ∧ (∀ stack,
       FindStackInSubfolders FindConfigFilesInPath ResolveTerraformModules
         fuel workingDir = Some (inr stack) →
       StackPath stack = workingDir
       ∧ ∃ files, FindConfigFilesInPath workingDir = inr files ∧ files ≠ []
                  ∧ ResolveTerraformModules files = inr (Modules stack)).
Proof.
  unfold FindStackInSubfolders, Telemetry. split_and!.
  - by intros err ->.
  - intros ->. by eexists.
  - intros stack. destruct (FindConfigFilesInPath workingDir) as [e|files]; [done|].
    unfold createStackForTerragruntConfigPaths, Telemetry.
    destruct (decide (length files = 0)) as [|Hne]; [done|].
    destruct (ResolveTerraformModules files) as [e|modules] eqn:Hres; [done|].
    simpl. destruct (CheckForCycles fuel modules) as [[e|]|]; try done.
    intros [= <-]. split; [done|]. exists files. split_and!; [done| |done].
    by destruct files.
Qed.

End find_facts.

Lemma createStack_resolve_error_witness :
  ∃ err',
    createStackForTerragruntConfigPaths resolveFailing 0 "/stack" ["/stack/A"]
    = Some (inl err')
    ∧ Cause err' = Cause (ResolveError "cannot parse").
Proof.
  apply (createStack_resolve_error resolveFailing 0 "/stack" ["/stack/A"]
           (ResolveError "cannot parse")); done.
Defined.
